(** * umbled: an IRC presence bot that tolerates connection errors

    A shallow embedding of [umbled.go] and the properties of its
    configuration parser, its error log and its session loop.

    Go strings are byte sequences: they are [string] here, one [ascii] per
    byte.  The IRC client ([godrop.Client]), the wall clock and the
    diagnostic log live outside the program: every call on them is an
    [Event] appended to a trace, and their answers come from an [Env] that
    may depend on everything that happened before. *)

From Stdlib Require Import ZArith Ascii String.
From stdpp Require Import base option list strings gmap.

Local Open Scope Z_scope.

(** ** The parts of the Go library the program relies on *)

Module time.

(** A [time.Time]: an instant, in nanoseconds since the Unix epoch, and
    the offset of its zone in seconds east of UTC. *)
Record Time : Type := mkTime { unixNano : Z; zoneOffset : Z }.

(** A [time.Duration] is an int64 count of nanoseconds. *)
Definition Nanosecond : Z := 1.
Definition Second : Z := 1000000000 * Nanosecond.
Definition Minute : Z := 60 * Second.
Definition minDuration : Z := - 2 ^ 63.
Definition maxDuration : Z := 2 ^ 63 - 1.

(** The zero [Time]: January 1 of year 1, 00:00:00 UTC. *)
Definition zero : Time := mkTime (-62135596800 * Second) 0.

(** [t.Sub(u)]: the duration [t - u], or the largest (smallest) duration
    when the difference does not fit. *)
Definition Sub (t u : Time) : Z :=
  let d := unixNano t - unixNano u in
  if d <? minDuration then minDuration
  else if maxDuration <? d then maxDuration
  else d.

(** Decimal digits of a natural number, most significant first. *)
Fixpoint digitsFuel (fuel : nat) (n : Z) (acc : string) : string :=
  match fuel with
  | O => acc
  | S fuel' =>
      let acc' := String (ascii_of_nat (48 + Z.to_nat (n mod 10))) acc in
      if n <? 10 then acc' else digitsFuel fuel' (n / 10) acc'
  end.

Definition digits (n : Z) : string :=
  digitsFuel (S (Z.to_nat (Z.log2 n))) n "".

Fixpoint zeros (n : nat) : string :=
  match n with O => "" | S n' => String "0" (zeros n') end.

(** [appendInt]: [x] in decimal, zero-padded to [width] digits, with a
    leading minus sign when negative. *)
Definition appendInt (x : Z) (width : nat) : string :=
  let d := digits (Z.abs x) in
  (if x <? 0 then "-" else "") +:+ zeros (width - String.length d) +:+ d.

(** The civil date of a day count relative to 1970-01-01. *)
Definition civil (days : Z) : Z * Z * Z :=
  let z := days + 719468 in
  let era := z / 146097 in
  let doe := z mod 146097 in
  let yoe := (doe - doe / 1460 + doe / 36524 - doe / 146096) / 365 in
  let doy := doe - (365 * yoe + yoe / 4 - yoe / 100) in
  let mp := (5 * doy + 2) / 153 in
  let d := doy - (153 * mp + 2) / 5 + 1 in
  let m := if mp <? 10 then mp + 3 else mp - 9 in
  let y := yoe + era * 400 + (if m <=? 2 then 1 else 0) in
  (y, m, d).

(** The zone suffix of the layout element [Z07:00]. *)
Definition zoneSuffix (offset : Z) : string :=
  if offset =? 0 then "Z"
  else
    let zone := Z.quot offset 60 in
    let a := Z.abs zone in
    (if zone <? 0 then "-" else "+")
      +:+ appendInt (a / 60) 2 +:+ ":" +:+ appendInt (a mod 60) 2.

(** [t.Format(time.RFC3339)], layout [2006-01-02T15:04:05Z07:00]. *)
Definition formatRFC3339 (t : Time) : string :=
  let secs := unixNano t / Second + zoneOffset t in
  let '(y, m, d) := civil (secs / 86400) in
  let sod := secs mod 86400 in
  appendInt y 4 +:+ "-" +:+ appendInt m 2 +:+ "-" +:+ appendInt d 2
    +:+ "T" +:+ appendInt (sod / 3600) 2 +:+ ":"
    +:+ appendInt (sod mod 3600 / 60) 2 +:+ ":"
    +:+ appendInt (sod mod 60) 2 +:+ zoneSuffix (zoneOffset t).

End time.

(** Go's [error] values.  [io.EOF] is a sentinel compared by identity; every
    other error is known to the program by its text only. *)
Inductive error : Type :=
| io_EOF
| errorString (msg : string).

Definition Error (e : error) : string :=
  match e with
  | io_EOF => "EOF"
  | errorString msg => msg
  end.

Definition is_EOF (e : error) : bool :=
  match e with io_EOF => true | errorString _ => false end.

Module irc.

(** An [irc.Message] as the client library hands it over. *)
Record Message : Type :=
  mkMessage { Prefix : string; Command : string; Params : list string }.

(** Modelled from the spec: the constant [irc.ReplyWelcome] belongs to the
    [irc] package, which is not among the sources; the welcome reply is
    the numeric 001. *)
Definition ReplyWelcome : string := "001".

End irc.

(** A value passed as [interface{}]: the program formats strings, errors
    and messages; a value of another type is known by a name only. *)
Inductive any : Type :=
| AnyString (s : string)
| AnyError (e : error)
| AnyMessage (m : irc.Message)
| AnyOther (name : string).

(** What the model takes from the libraries as given: how a message renders
    itself ([String()]), the name of a value's dynamic type, how a value
    prints under a verb other than [%s] and [%v], the output of [Sprintf]
    for formats with directives other than the ones interpreted below (a
    single directive with flags, a width or a precision among them), and
    [strconv.Quote]. *)
Record Lib : Type := mkLib {
  MessageString : irc.Message -> string;
  TypeName : any -> string;
  FormatVerb : ascii -> any -> string;
  SprintfOther : string -> list any -> string;
  Quote : string -> string
}.

Module fmt.

(** One item of a format string: a literal byte, [%%], a verb that
    follows its [%] directly or an explicit operand index [[n]], a
    directive with flags, a width, a precision or a verb outside ASCII, or
    a [%] that ends the format.  A directive of the fourth kind is kept as
    it is written, with the number of operands it asks for: one for every
    [*] and one for its verb. *)
Inductive directive : Type :=
| DLit (c : ascii)
| DPercent
| DVerb (index : option Z) (verb : ascii)
| DNoVerb
| DSpec (text : string) (need : nat).

(** Where [doPrintf] stands in a directive once it has left the plain
    case: among the flags, in the digits of a width, behind the [*] of a
    width, behind the [.], in the digits of a precision, behind the [*] of
    a precision, [k] bytes before the end of the verb, or behind a number
    that [parsenum] gave up on. *)
Inductive phase : Type :=
| PFlags
| PWidth (n : Z)
| PStar
| PDot
| PPrec (n : Z)
| PVerb
| PRune (k : nat)
| PRest.

Inductive mode : Type :=
| MText
| MPercent
| MIndex (num : option Z)
| MAfterIndex (n : Z)
| MSpec (ph : phase) (text : string) (stars : nat).

Definition isDigit (c : ascii) : bool :=
  (48 <=? Z.of_nat (nat_of_ascii c)) && (Z.of_nat (nat_of_ascii c) <=? 57).

Definition digitValue (c : ascii) : Z := Z.of_nat (nat_of_ascii c) - 48.

(** The bytes that start a flag, a width, a precision or an index. *)
Definition isModifier (c : ascii) : bool :=
  Ascii.eqb c "#" || Ascii.eqb c "+" || Ascii.eqb c "-" || Ascii.eqb c " "
  || Ascii.eqb c "*" || Ascii.eqb c "." || Ascii.eqb c "[" || isDigit c.

(** A verb that follows its [%] or its index directly: any ASCII byte but
    a modifier and [%]. *)
Definition isVerb (c : ascii) : bool :=
  (Z.of_nat (nat_of_ascii c) <? 128) && negb (isModifier c) && negb (Ascii.eqb c "%").

(** The flags: [#], [0], [+], [-] and the space. *)
Definition isFlag (c : ascii) : bool :=
  Ascii.eqb c "#" || Ascii.eqb c "0" || Ascii.eqb c "+" || Ascii.eqb c "-"
  || Ascii.eqb c " ".

(** [parsenum] gives up on a number once it has passed a million. *)
Definition tooLarge (x : Z) : bool := 1000000 <? x.

(** One more digit of a width or a precision; a number [parsenum] has given
    up on takes the rest of the format with it. *)
Definition digit (n : Z) (c : ascii) (ph : Z -> phase) : phase :=
  if tooLarge n then PRest else ph (n * 10 + digitValue c).

(** A continuation byte of UTF-8. *)
Definition continues (c : ascii) : bool :=
  (128 <=? Z.of_nat (nat_of_ascii c)) && (Z.of_nat (nat_of_ascii c) <=? 191).

(** The number of bytes [utf8.DecodeRuneInString] takes for the rune that
    starts with [c]: one for ASCII and for an encoding that is not valid,
    else two to four. *)
Definition runeLen (c : ascii) (rest : string) : nat :=
  let s0 := Z.of_nat (nat_of_ascii c) in
  if (s0 <? 194) || (244 <? s0) then 1%nat
  else
    let lo := if s0 =? 224 then 160 else if s0 =? 240 then 144 else 128 in
    let hi := if s0 =? 237 then 159 else if s0 =? 244 then 143 else 191 in
    match rest with
    | String c1 rest1 =>
        let s1 := Z.of_nat (nat_of_ascii c1) in
        if (s1 <? lo) || (hi <? s1) then 1%nat
        else if s0 <? 224 then 2%nat
        else
          match rest1 with
          | String c2 rest2 =>
              if negb (continues c2) then 1%nat
              else if s0 <? 240 then 3%nat
              else
                match rest2 with
                | String c3 _ => if continues c3 then 4%nat else 1%nat
                | EmptyString => 1%nat
                end
          | EmptyString => 1%nat
          end
    | EmptyString => 1%nat
    end.

(** What a byte is to a directive in a phase before its verb: one more
    byte of the flags, the width or the precision, the start of the verb,
    or the [[] of an operand index. *)
Inductive action : Type :=
| Go (ph : phase) (stars : nat)
| Verb
| Index.

Definition step (ph : phase) (stars : nat) (c : ascii) : action :=
  if Ascii.eqb c "[" then Index
  else
    match ph with
    | PFlags =>
        if isFlag c then Go PFlags stars
        else if Ascii.eqb c "*" then Go PStar (S stars)
        else if isDigit c then Go (PWidth (digitValue c)) stars
        else if Ascii.eqb c "." then Go PDot stars
        else Verb
    | PWidth n =>
        if isDigit c then Go (digit n c PWidth) stars
        else if Ascii.eqb c "." then Go PDot stars
        else Verb
    | PStar => if Ascii.eqb c "." then Go PDot stars else Verb
    | PDot =>
        if Ascii.eqb c "*" then Go PVerb (S stars)
        else if isDigit c then Go (PPrec (digitValue c)) stars
        else Verb
    | PPrec n => if isDigit c then Go (digit n c PPrec) stars else Verb
    | PVerb | PRune _ | PRest => Verb
    end.

(** The operands a directive asks for: one for every [*], and one for its
    verb unless that is [%]. *)
Definition verbNeed (stars : nat) (c : ascii) : nat :=
  if Ascii.eqb c "%" then stars else S stars.

(** The directives of a format, or [None] when one of them has an operand
    index that is malformed or stands together with flags, a width or a
    precision. *)
Fixpoint parse (md : mode) (format : string) : option (list directive) :=
  match format with
  | EmptyString =>
      match md with
      | MText => Some []
      | MPercent => Some [DNoVerb]
      | MIndex _ | MAfterIndex _ => None
      | MSpec _ text need => Some [DSpec text need]
      end
  | String c rest =>
      let spec (ph : phase) (text : string) (stars : nat) :=
        let text := text +:+ String c EmptyString in
        match ph with
        | PRest => parse (MSpec PRest text stars) rest
        | PRune (S (S k)) => parse (MSpec (PRune (S k)) text stars) rest
        | PRune _ => cons (DSpec text stars) <$> parse MText rest
        | _ =>
            match step ph stars c with
            | Index => None
            | Go ph' stars' => parse (MSpec ph' text stars') rest
            | Verb =>
                match runeLen c rest with
                | S (S k) => parse (MSpec (PRune (S k)) text (verbNeed stars c)) rest
                | _ => cons (DSpec text (verbNeed stars c)) <$> parse MText rest
                end
            end
        end in
      match md with
      | MText =>
          if Ascii.eqb c "%" then parse MPercent rest
          else cons (DLit c) <$> parse MText rest
      | MPercent =>
          if Ascii.eqb c "%" then cons DPercent <$> parse MText rest
          else if isVerb c then cons (DVerb None c) <$> parse MText rest
          else if Ascii.eqb c "[" then parse (MIndex None) rest
          else spec PFlags "%" 0%nat
      | MIndex num =>
          if isDigit c then
            let n := default 0 num in
            if tooLarge n then None
            else parse (MIndex (Some (n * 10 + digitValue c))) rest
          else if Ascii.eqb c "]" then
            match num with
            | Some n => parse (MAfterIndex n) rest
            | None => None
            end
          else None
      | MAfterIndex n =>
          if isVerb c then cons (DVerb (Some n) c) <$> parse MText rest
          else None
      | MSpec ph text stars => spec ph text stars
      end
  end.

Section Render.
Variable lib : Lib.

(** [%s] and [%v] print a string as it is, an error through [Error()]
    and a message through [String()]. *)
Definition printArg (a : any) (verb : ascii) : string :=
  if Ascii.eqb verb "s" || Ascii.eqb verb "v" then
    match a with
    | AnyString s => s
    | AnyError e => Error e
    | AnyMessage m => MessageString lib m
    | AnyOther _ => FormatVerb lib verb a
    end
  else FormatVerb lib verb a.

Fixpoint joinWith (sep : string) (l : list string) : string :=
  match l with
  | [] => ""
  | [x] => x
  | x :: l' => x +:+ sep +:+ joinWith sep l'
  end.

(** Operands left over when the format is used up. *)
Definition extra (rest : list any) : string :=
  "%!(EXTRA "
    +:+ joinWith ", " (map (fun a => TypeName lib a +:+ "=" +:+ printArg a "v") rest)
    +:+ ")".

(** [doPrintf] over parsed directives: [argNum] is the next operand,
    [reordered] records that an explicit index was seen.  A directive with
    flags, a width or a precision prints what a format made of it alone
    prints from the operands it takes, as many as it asks for and are
    left.  [None] when an explicit index is out of range. *)
Fixpoint render (ds : list directive) (a : list any) (argNum : nat)
    (reordered : bool) : option string :=
  match ds with
  | [] =>
      Some (if negb reordered && (argNum <? length a)%nat
            then extra (drop argNum a) else "")
  | DLit c :: ds' => String c <$> render ds' a argNum reordered
  | DPercent :: ds' => String "%" <$> render ds' a argNum reordered
  | DNoVerb :: ds' => String.append "%!(NOVERB)" <$> render ds' a argNum reordered
  | DVerb None verb :: ds' =>
      match a !! argNum with
      | Some x => String.append (printArg x verb) <$> render ds' a (S argNum) reordered
      | None =>
          String.append ("%!" +:+ String verb "(MISSING)")
            <$> render ds' a argNum reordered
      end
  | DVerb (Some n) verb :: ds' =>
      if (1 <=? n) && (n <=? Z.of_nat (length a)) then
        match a !! Z.to_nat (n - 1) with
        | Some x => String.append (printArg x verb) <$> render ds' a (Z.to_nat n) true
        | None => None
        end
      else None
  | DSpec text need :: ds' =>
      let operands := take need (drop argNum a) in
      String.append (SprintfOther lib text operands)
        <$> render ds' a (argNum + length operands) reordered
  end.

(** [fmt.Sprintf]. *)
Definition Sprintf (format : string) (a : list any) : string :=
  match parse MText format with
  | Some ds =>
      match render ds a 0 false with
      | Some out => out
      | None => SprintfOther lib format a
      end
  | None => SprintfOther lib format a
  end.

(** [fmt.Errorf] without [%w]: an error whose text is the formatted
    string. *)
Definition Errorf (format : string) (a : list any) : error :=
  errorString (Sprintf format a).

End Render.

End fmt.

(** ** The world outside the program *)

(** One call on the clock, the log or the client, with the answer it got. *)
Inductive Event : Type :=
| EvSleep (d : Z)
| EvNow (t : time.Time)
| EvLog (line : string)
| EvIsConnected (b : bool)
| EvConnect (r : option error)
| EvRegister (r : option error)
| EvSetRegistered
| EvReadMessage (r : irc.Message + error)
| EvPong (m : irc.Message) (r : option error)
| EvJoin (ch : string) (r : option error)
| EvMessage (ch text : string) (r : option error)
| EvClose (r : option error).

Definition Trace : Type := list Event.

(** The answers of the clock and of the client, each a function of the
    calls made so far.  An [option error] is Go's [error] result, [None] for
    [nil]; [ReadMessage] answers with a message or with an error. *)
Record Env : Type := mkEnv {
  env_lib : Lib;
  env_Now : Trace -> time.Time;
  env_IsConnected : Trace -> bool;
  env_Connect : Trace -> option error;
  env_Register : Trace -> option error;
  env_ReadMessage : Trace -> irc.Message + error;
  env_Pong : Trace -> irc.Message -> option error;
  env_Join : Trace -> string -> option error;
  env_Message : Trace -> string -> string -> option error;
  env_Close : Trace -> option error
}.

(** Computations thread the trace; [None] stands for a loop that has not
    returned within its fuel. *)
Definition M (A : Type) : Type := Trace -> option (A * Trace).

Definition ret {A} (a : A) : M A := fun tr => Some (a, tr).

Definition bind {A B} (m : M A) (k : A -> M B) : M B :=
  fun tr => match m tr with
            | Some (a, tr') => k a tr'
            | None => None
            end.

Definition outOfFuel {A} : M A := fun _ => None.

Declare Scope go_scope.
Delimit Scope go_scope with go.
Notation "x <- m ;; k" := (bind m (fun x => k))
  (at level 100, m at next level, right associativity) : go_scope.
Notation "m ;;; k" := (bind m (fun _ => k))
  (at level 100, right associativity) : go_scope.

(** ** The program's data *)

(** [Config] holds what was parsed from a config file. *)
Record Config : Type := mkConfig {
  Channels : list string;
  Nick : string;
  ServerHost : string;
  ServerPort : Z
}.

Record state : Type := mkState {
  lastActivityTime : time.Time;
  errors : list string
}.

Definition waitPeriod : Z := 15 * time.Minute.

Definition set_lastActivityTime (t : time.Time) (s : state) : state :=
  mkState t (errors s).

Definition set_errors (es : list string) (s : state) : state :=
  mkState (lastActivityTime s) es.

Section Program.

Variable env : Env.

Local Open Scope go_scope.

(** *** Calls on the outside world *)

Definition call {A} (answer : Trace -> A) (ev : A -> Event) : M A :=
  fun tr => let a := answer tr in Some (a, tr ++ [ev a]).

Definition time_Sleep (d : Z) : M unit := call (fun _ => tt) (fun _ => EvSleep d).
Definition time_Now : M time.Time := call (env_Now env) EvNow.
Definition log_Print (m : string) : M unit := call (fun _ => tt) (fun _ => EvLog m).
Definition c_IsConnected : M bool := call (env_IsConnected env) EvIsConnected.
Definition c_Connect : M (option error) := call (env_Connect env) EvConnect.
Definition c_Register : M (option error) := call (env_Register env) EvRegister.
Definition c_SetRegistered : M unit := call (fun _ => tt) (fun _ => EvSetRegistered).
Definition c_ReadMessage : M (irc.Message + error) :=
  call (env_ReadMessage env) EvReadMessage.
Definition c_Pong (m : irc.Message) : M (option error) :=
  call (fun tr => env_Pong env tr m) (EvPong m).
Definition c_Join (ch : string) : M (option error) :=
  call (fun tr => env_Join env tr ch) (EvJoin ch).
Definition c_Message (ch text : string) : M (option error) :=
  call (fun tr => env_Message env tr ch text) (EvMessage ch text).
Definition c_Close : M (option error) := call (env_Close env) EvClose.

Definition Sprintf : string -> list any -> string := fmt.Sprintf (env_lib env).

Definition Errorf : string -> list any -> error := fmt.Errorf (env_lib env).

(** *** The session state's operations *)

Definition addError (s : state) (format : string) (args : list any) : M state :=
  now <- time_Now;;
  let finalArgs := [AnyString (time.formatRFC3339 now)] in
  let finalArgs := if (0 <? length args)%nat then finalArgs ++ args else finalArgs in
  let m := Sprintf ("%s: " +:+ format) finalArgs in
  log_Print m;;;
  ret (set_errors (errors s ++ [m]) s).

Definition shouldGiveUp (s : state) : M bool :=
  now <- time_Now;;
  ret (waitPeriod <? time.Sub now (lastActivityTime s)).

(** The inner loop of [sendMessages]: [es] is what remains of the range
    over [s.errors], [i] the index of its head. *)
Fixpoint sendErrors (ch : string) (s : state) (i : nat) (es : list string)
    : M (state * option error) :=
  match es with
  | [] => ret (s, None)
  | e :: es' =>
      r <- c_Message ch e;;
      match r with
      | Some err => ret (set_errors (drop i (errors s)) s, Some err)
      | None =>
          now <- time_Now;;
          sendErrors ch (set_lastActivityTime now s) (S i) es'
      end
  end.

(** The outer loop of [sendMessages], over the channels. *)
Fixpoint sendChannels (chs : list string) (s : state) : M (state * option error) :=
  match chs with
  | [] => ret (s, None)
  | ch :: chs' =>
      r <- sendErrors ch s 0 (errors s);;
      match r with
      | (s', Some err) => ret (s', Some err)
      | (s', None) => sendChannels chs' s'
      end
  end.

Definition sendMessages (conf : Config) (s : state) : M (state * option error) :=
  r <- sendChannels (Channels conf) s;;
  match r with
  | (s', Some err) => ret (s', Some err)
  | (s', None) => ret (set_errors [] s', None)
  end.

(** *** Connecting *)

(** The loop over [conf.Channels] once the welcome reply is in. *)
Fixpoint joinChannels (chs : list string) : M (option error) :=
  match chs with
  | [] => ret None
  | ch :: chs' =>
      r <- c_Join ch;;
      match r with
      | Some err =>
          ret (Some (Errorf "error joining channel: %s: %s"
                       [AnyString ch; AnyError err]))
      | None => joinChannels chs'
      end
  end.

(** The registration loop of [connect]; [fuel] bounds the number of reads. *)
Fixpoint awaitWelcome (fuel : nat) (conf : Config) : M (option error) :=
  match fuel with
  | O => outOfFuel
  | S fuel' =>
      r <- c_ReadMessage;;
      match r with
      | inr err => ret (Some err)
      | inl m =>
          if String.eqb (irc.Command m) irc.ReplyWelcome then
            c_SetRegistered;;;
            joinChannels (Channels conf)
          else if String.eqb (irc.Command m) "ERROR" then
            ret (Some (Errorf "received ERROR: %s" [AnyMessage m]))
          else awaitWelcome fuel' conf
      end
  end.

Definition connect (fuel : nat) (conf : Config) : M (option error) :=
  r <- c_Connect;;
  match r with
  | Some err => ret (Some err)
  | None =>
      r <- c_Register;;
      match r with
      | Some err => ret (Some err)
      | None => awaitWelcome fuel conf
      end
  end.

(** *** The session loop *)

(** One pass through the body of the loop of [run], up to its [continue]
    or its end. *)
Definition iteration (fuel : nat) (conf : Config) (s : state) : M state :=
  time_Sleep time.Second;;;
  connected <- c_IsConnected;;
  if negb connected then
    r <- connect fuel conf;;
    match r with
    | Some err =>
        s <- addError s "error connecting: %s" [AnyError err];;
        c_Close;;;
        ret s
    | None =>
        now <- time_Now;;
        ret (set_lastActivityTime now s)
    end
  else
    r <- c_ReadMessage;;
    match r with
    | inr err =>
        s <- addError s "error reading: %s" [AnyError err];;
        g <- shouldGiveUp s;;
        (if g || is_EOF err then c_Close;;; ret tt else ret tt);;;
        ret s
    | inl m =>
        now <- time_Now;;
        let s := set_lastActivityTime now s in
        if String.eqb (irc.Command m) "ERROR" then
          s <- addError s "got ERROR: %s" [AnyMessage m];;
          c_Close;;;
          ret s
        else if negb (String.eqb (irc.Command m) "PING") then ret s
        else
          r <- c_Pong m;;
          match r with
          | Some err =>
              s <- addError s "error PONGing: %s" [AnyError err];;
              g <- shouldGiveUp s;;
              (if g then c_Close;;; ret tt else ret tt);;;
              ret s
          | None =>
              now <- time_Now;;
              let s := set_lastActivityTime now s in
              r <- sendMessages conf s;;
              match r with
              | (s, Some err) =>
                  s <- addError s "error messaging: %s" [AnyError err];;
                  g <- shouldGiveUp s;;
                  (if g then c_Close;;; ret tt else ret tt);;;
                  ret s
              | (s, None) => ret s
              end
          end
    end.

(** The first [n] passes of the loop, from a given state. *)
Fixpoint iterations (n : nat) (fuel : nat) (conf : Config) (s : state) : M state :=
  match n with
  | O => ret s
  | S n' => s' <- iteration fuel conf s;; iterations n' fuel conf s'
  end.

(** [run] starts from the zero [state] and never returns; these are its
    first [n] passes. *)
Definition run (n : nat) (fuel : nat) (conf : Config) : M state :=
  iterations n fuel conf (mkState time.zero []).

End Program.

(** ** Reading the configuration *)

Module strings.

Definition byte (c : ascii) : Z := Z.of_nat (nat_of_ascii c).

(** The ASCII white space: tab, newline, vertical tab, form feed, carriage
    return and space. *)
Definition asciiSpace (c : ascii) : bool :=
  ((9 <=? byte c) && (byte c <=? 13)) || (byte c =? 32).

(** The two-byte encodings of white space: U+0085 and U+00A0. *)
Definition utf8Space2 (a b : ascii) : bool :=
  (byte a =? 194) && ((byte b =? 133) || (byte b =? 160)).

(** The three-byte encodings of white space: U+1680, U+2000 to U+200A,
    U+2028, U+2029, U+202F, U+205F and U+3000. *)
Definition utf8Space3 (a b c : ascii) : bool :=
  ((byte a =? 225) && (byte b =? 154) && (byte c =? 128))
  || ((byte a =? 226) && (byte b =? 128)
      && (((128 <=? byte c) && (byte c <=? 138))
          || (byte c =? 168) || (byte c =? 169) || (byte c =? 175)))
  || ((byte a =? 226) && (byte b =? 129) && (byte c =? 159))
  || ((byte a =? 227) && (byte b =? 128) && (byte c =? 128)).

(** Exactly one white space character, in UTF-8. *)
Definition isSpaceRune (s : string) : bool :=
  match s with
  | String a EmptyString => asciiSpace a
  | String a (String b EmptyString) => utf8Space2 a b
  | String a (String b (String c EmptyString)) => utf8Space3 a b c
  | _ => false
  end.

Fixpoint trimLeft (s : string) : string :=
  match s with
  | EmptyString => EmptyString
  | String a s1 =>
      if asciiSpace a then trimLeft s1
      else
        match s1 with
        | EmptyString => s
        | String b s2 =>
            if utf8Space2 a b then trimLeft s2
            else
              match s2 with
              | EmptyString => s
              | String c s3 => if utf8Space3 a b c then trimLeft s3 else s
              end
        end
  end.

Fixpoint trimRight (s : string) : string :=
  match s with
  | EmptyString => EmptyString
  | String a s1 =>
      let r := String a (trimRight s1) in
      if isSpaceRune r then EmptyString else r
  end.

(** [strings.TrimSpace]: the string without its leading and trailing white
    space, as Unicode defines it. *)
Definition TrimSpace (s : string) : string := trimRight (trimLeft s).

(** [strings.Split(s, sep)] for a separator of one byte. *)
Fixpoint Split (s : string) (sep : ascii) : list string :=
  match s with
  | EmptyString => [EmptyString]
  | String c s' =>
      if Ascii.eqb c sep then EmptyString :: Split s' sep
      else
        match Split s' sep with
        | piece :: pieces => String c piece :: pieces
        | [] => [String c EmptyString]
        end
  end.

(** The pieces around the first [sep], when there is one. *)
Fixpoint cut (s : string) (sep : ascii) : option (string * string) :=
  match s with
  | EmptyString => None
  | String c s' =>
      if Ascii.eqb c sep then Some (EmptyString, s')
      else
        match cut s' sep with
        | Some (before, after) => Some (String c before, after)
        | None => None
        end
  end.

(** [strings.SplitN(s, sep, 2)] for a separator of one byte. *)
Definition SplitN2 (s : string) (sep : ascii) : list string :=
  match cut s sep with
  | Some (before, after) => [before; after]
  | None => [s]
  end.

End strings.

Module bufio.

Definition MaxScanTokenSize : Z := 64 * 1024.

Definition ErrTooLong : error := errorString "bufio.Scanner: token too long".

Definition newline : ascii := ascii_of_nat 10.
Definition carriageReturn : ascii := ascii_of_nat 13.

(** The lines of a buffer as they stand between newlines; a last line
    needs no newline, and nothing follows a final newline. *)
Definition rawLines (buf : string) : list string :=
  let pieces := strings.Split buf newline in
  match last pieces with
  | Some EmptyString => removelast pieces
  | _ => pieces
  end.

(** [dropCR] drops a terminal carriage return. *)
Fixpoint dropCR (line : string) : string :=
  match line with
  | EmptyString => EmptyString
  | String c EmptyString =>
      if Ascii.eqb c carriageReturn then EmptyString else line
  | String c rest => String c (dropCR rest)
  end.

(** A line fits the scanner's buffer when it is shorter than
    [MaxScanTokenSize]. *)
Definition tooLong (line : string) : bool :=
  MaxScanTokenSize <=? Z.of_nat (String.length line).

(** What a [Scanner] with the default split function ([ScanLines]) yields
    over its lines: the texts of the successive [Scan]s, and the final
    [Err()]. *)
Fixpoint scan (lines : list string) : list string * option error :=
  match lines with
  | [] => ([], None)
  | line :: rest =>
      if tooLong line then ([], Some ErrTooLong)
      else let '(tokens, err) := scan rest in (dropCR line :: tokens, err)
  end.

Definition Scanner (buf : string) : list string * option error :=
  scan (rawLines buf).

End bufio.

Module strconv.

Definition isDigit (c : ascii) : bool :=
  (48 <=? strings.byte c) && (strings.byte c <=? 57).

(** [ParseUint] stops at the first byte that is not a digit, or as soon as
    the value passes the largest uint64. *)
Inductive uintResult : Type :=
| Value (un : Z)
| ErrSyntax
| ErrRange.

Fixpoint digitsValue (acc : Z) (s : string) : uintResult :=
  match s with
  | EmptyString => Value acc
  | String c rest =>
      if isDigit c then
        let acc' := acc * 10 + (strings.byte c - 48) in
        if 2 ^ 64 - 1 <? acc' then ErrRange else digitsValue acc' rest
      else ErrSyntax
  end.

Definition ParseUint (s : string) : uintResult :=
  match s with
  | EmptyString => ErrSyntax
  | _ => digitsValue 0 s
  end.

Section ParseInt.
Variable lib : Lib.

Definition NumError (num cause : string) : error :=
  errorString ("strconv.ParseInt: parsing " +:+ Quote lib num +:+ ": " +:+ cause).

(** [strconv.ParseInt(s, 10, 64)]. *)
Definition ParseInt (s : string) : Z + error :=
  match s with
  | EmptyString => inr (NumError s "invalid syntax")
  | String c rest =>
      let neg := Ascii.eqb c "-" in
      let body := if Ascii.eqb c "+" || neg then rest else s in
      match ParseUint body with
      | ErrSyntax => inr (NumError s "invalid syntax")
      | ErrRange => inr (NumError s "value out of range")
      | Value un =>
          if negb neg && (2 ^ 63 <=? un) then inr (NumError s "value out of range")
          else if neg && (2 ^ 63 <? un) then inr (NumError s "value out of range")
          else inl (if neg then - un else un)
      end
  end.
End ParseInt.

End strconv.

Section ParseConfig.

Variable lib : Lib.

(** [ioutil.ReadFile]: the bytes of a file, or why it cannot be read. *)
Variable ReadFile : string -> string + error.

Let Errorf := fmt.Errorf lib.

(** [m[key]]: the empty string stands for an absent key. *)
Definition index (m : gmap string string) (key : string) : string :=
  default EmptyString (m !! key).

(** The scanning loop of [parseConfig], over the texts of the [Scan]s. *)
Fixpoint readLines (texts : list string) (m : gmap string string)
    : gmap string string + error :=
  match texts with
  | [] => inl m
  | text :: rest =>
      let text := strings.TrimSpace text in
      match text with
      | EmptyString => readLines rest m
      | String c _ =>
          if Ascii.eqb c "#" then readLines rest m
          else
            match strings.SplitN2 text "=" with
            | [piece0; piece1] =>
                let key := strings.TrimSpace piece0 in
                let value := strings.TrimSpace piece1 in
                if String.eqb key EmptyString then
                  inr (Errorf "key is blank: %s" [AnyString text])
                else
                  match m !! key with
                  | Some _ => inr (Errorf "duplicate key: %s" [AnyString key])
                  | None => readLines rest (<[key := value]> m)
                  end
            | _ => inr (Errorf "malformed line: %s" [AnyString text])
            end
      end
  end.

(** The loop over the raw channel names. *)
Fixpoint readChannels (channelsRaw : list string) (channels : list string)
    : list string + error :=
  match channelsRaw with
  | [] => inl channels
  | c :: rest =>
      let c := strings.TrimSpace c in
      match c with
      | EmptyString => readChannels rest channels
      | String c0 _ =>
          if negb (Ascii.eqb c0 "#") then
            inr (Errorf "malformed channel name: %s" [AnyString c])
          else readChannels rest (channels ++ [c])
      end
  end.

(** [ServerPort] is an [int], taken to be 64 bits wide as [ParseInt]'s
    result is. *)
Definition parseConfig (path : string) : Config + error :=
  match ReadFile path with
  | inr err => inr (Errorf "error reading file: %s: %s" [AnyString path; AnyError err])
  | inl buf =>
      let '(texts, scanErr) := bufio.Scanner buf in
      match readLines texts ∅ with
      | inr err => inr err
      | inl m =>
          match scanErr with
          | Some err =>
              inr (Errorf "error scanning file: %s: %s" [AnyString path; AnyError err])
          | None =>
              match readChannels (strings.Split (index m "channels") ",") [] with
              | inr err => inr err
              | inl channels =>
                  if (length channels =? 0)%nat then
                    inr (Errorf "you must specify at least one channel" [])
                  else if String.eqb (index m "nick") EmptyString then
                    inr (Errorf "you must specify a nick" [])
                  else if String.eqb (index m "server-host") EmptyString then
                    inr (Errorf "you must specify a server-host" [])
                  else
                    match strconv.ParseInt lib (index m "server-port") with
                    | inr err => inr (Errorf "invalid server-port: %s" [AnyError err])
                    | inl p =>
                        inl (mkConfig channels (index m "nick")
                               (index m "server-host") p)
                    end
              end
          end
      end
  end.

End ParseConfig.

(** ** Reading a trace *)

(** The [Message] calls of a trace: channel, text and answer. *)
Definition attempts (tr : Trace) : list (string * string * option error) :=
  omap (fun ev => match ev with
                  | EvMessage ch text r => Some (ch, text, r)
                  | _ => None
                  end) tr.

(** The events of a trace that tell of the connection: what [IsConnected]
    answered, and the calls of [Connect] and [Close]. *)
Definition connectionEvents (tr : Trace) : Trace :=
  List.filter (fun ev => match ev with
                         | EvIsConnected _ | EvConnect _ | EvClose _ => true
                         | _ => false
                         end) tr.

(** Whether the last of the calls of [Connect] and [Close] in a trace is a
    [Close]; [closed] is the answer for a trace with neither. *)
Fixpoint closedLast (closed : bool) (tr : Trace) : bool :=
  match tr with
  | [] => closed
  | EvClose _ :: tr' => closedLast true tr'
  | EvConnect _ :: tr' => closedLast false tr'
  | _ :: tr' => closedLast closed tr'
  end.

(** What the loop relies on in the client, whose code is not among the
    sources: once [Close] has been called, [IsConnected] answers false
    until [Connect] is called again.  Nothing is asked of a client that
    has not been closed. *)
Definition reportsClosed (env : Env) : Prop :=
  forall tr, closedLast false tr = true -> env_IsConnected env tr = false.

(** The deliveries a flush sets out to make: channel by channel, and for
    each channel the entries of the log in order. *)
Definition deliveries (chs : list string) (es : list string) : list (string * string) :=
  ch ← chs; pair ch <$> es.

(** The events of deliveries that succeed, each followed by the reading of
    the clock that becomes [lastActivityTime]. *)
Fixpoint delivered (ds : list (string * string)) (ts : list time.Time) : Trace :=
  match ds, ts with
  | (ch, e) :: ds', t :: ts' => EvMessage ch e None :: EvNow t :: delivered ds' ts'
  | _, _ => []
  end.

(** What a flush has done when it leaves its loops: [ds] were delivered,
    each followed by a reading of the clock; then either everything is
    delivered, or entry [k] has failed on channel [ch] and the log is cut
    at [k]. *)
Definition flushOutcome (chs : list string) (s s' : state) (r : option error)
    (ds : list (string * string)) (tail : Trace) : Prop :=
  match r with
  | None => ds = deliveries chs (errors s) /\ tail = []
  | Some err =>
      exists chs1 ch chs2 k e,
        chs = chs1 ++ ch :: chs2
        /\ errors s !! k = Some e
        /\ ds = deliveries chs1 (errors s) ++ (pair ch <$> take k (errors s))
        /\ tail = [EvMessage ch e (Some err)]
        /\ errors s' = drop k (errors s)
  end.

(** ** A simulated server

    A client whose answers are scripted, for running the program on
    concrete inputs: the clock advances one second with every event, reads
    come from a list and end in [io.EOF], one chosen [Join] and one chosen
    [Message] fail, and the client is connected from a successful [Connect]
    to the next [Close]. *)

Module Simulated.

Definition lib : Lib :=
  mkLib (fun m => irc.Command m)
        (fun a => match a with
                  | AnyString _ => "string"
                  | AnyError _ => "*errors.errorString"
                  | AnyMessage _ => "irc.Message"
                  | AnyOther name => name
                  end)
        (fun _ _ => "")
        (fun _ _ => "")
        (fun s => s).

Definition reads (tr : Trace) : nat :=
  length (List.filter (fun ev => match ev with EvReadMessage _ => true | _ => false end) tr).

Definition joins (tr : Trace) : nat :=
  length (List.filter (fun ev => match ev with EvJoin _ _ => true | _ => false end) tr).

Definition messages (tr : Trace) : nat :=
  length (List.filter (fun ev => match ev with EvMessage _ _ _ => true | _ => false end) tr).

Fixpoint connected (up : bool) (tr : Trace) : bool :=
  match tr with
  | [] => up
  | EvConnect None :: tr' => connected true tr'
  | EvClose _ :: tr' => connected false tr'
  | _ :: tr' => connected up tr'
  end.

Definition failing (n : option nat) (count : nat) (msg : string) : option error :=
  match n with
  | Some k => if (k =? count)%nat then Some (errorString msg) else None
  | None => None
  end.

Definition env (script : list (irc.Message + error)) (failJoin failMessage : option nat)
    : Env :=
  {| env_lib := lib;
     env_Now tr := time.mkTime (Z.of_nat (length tr) * time.Second) 0;
     env_IsConnected tr := connected false tr;
     env_Connect _ := None;
     env_Register _ := None;
     env_ReadMessage tr := default (inr io_EOF) (script !! reads tr);
     env_Pong _ _ := None;
     env_Join tr _ := failing failJoin (joins tr) "cannot join";
     env_Message tr _ _ := failing failMessage (messages tr) "cannot send";
     env_Close _ := None |}.

End Simulated.

(** ** The shape of an RFC 3339 timestamp *)

(** The rest of a string after a prefix that fits a pattern, byte by byte. *)
Fixpoint after (pattern : list (ascii -> bool)) (s : string) : option string :=
  match pattern with
  | [] => Some s
  | p :: pattern' =>
      match s with
      | EmptyString => None
      | String c s' => if p c then after pattern' s' else None
      end
  end.

Definition digit : ascii -> bool := fmt.isDigit.
Definition lit (c : ascii) : ascii -> bool := Ascii.eqb c.
Definition sign (c : ascii) : bool := Ascii.eqb c "+" || Ascii.eqb c "-".

(** [dddd-dd-ddTdd:dd:dd] followed by [Z] or by [+dd:dd] or [-dd:dd]. *)
Definition isRFC3339 (s : string) : bool :=
  match after [digit; digit; digit; digit; lit "-"; digit; digit; lit "-";
               digit; digit; lit "T"; digit; digit; lit ":"; digit; digit;
               lit ":"; digit; digit] s with
  | Some zone =>
      String.eqb zone "Z"
      || match after [sign; digit; digit; lit ":"; digit; digit] zone with
         | Some EmptyString => true
         | _ => false
         end
  | None => false
  end.

(** A time whose civil year, in its own zone, has four digits, and whose
    zone is less than a hundred hours from UTC. *)
Definition fourDigitYear (t : time.Time) : Prop :=
  -62167219200 <= time.unixNano t / time.Second + time.zoneOffset t <= 253402300799
  /\ -360000 < time.zoneOffset t < 360000.

(** A check of every integer from [lo] on, [n] of them. *)
Fixpoint allFrom (P : Z -> bool) (lo : Z) (n : nat) : bool :=
  match n with
  | O => true
  | S n' => P lo && allFrom P (lo + 1) n'
  end.

Definition twoDigits (s : string) : bool :=
  match after [digit; digit] s with Some EmptyString => true | _ => false end.

Definition fourDigits (s : string) : bool :=
  match after [digit; digit; digit; digit] s with Some EmptyString => true | _ => false end.

(** Month, day and year within the era, for every day of an era of 400
    years that starts on a first of March. *)
Definition civilInEra (doe : Z) : bool :=
  let '(y, m, d) := time.civil (doe - 719468) in
  (1 <=? m) && (m <=? 12) && (1 <=? d) && (d <=? 31) && (0 <=? y) && (y <=? 400)
  && ((doe <? 146037) || (y =? 400)) && ((146036 <? doe) || (y <=? 399)).

(** ** Formats that take their operands in order *)

(** A format none of whose directives carries an operand index: its
    directives may have flags, a width, a precision and any verb, but no
    [[n]]. *)
Definition sequentialDirective (d : fmt.directive) : bool :=
  match d with
  | fmt.DVerb (Some _) _ => false
  | _ => true
  end.

Definition sequential (format : string) : bool :=
  match fmt.parse fmt.MText format with
  | Some ds => forallb sequentialDirective ds
  | None => false
  end.

(** A format without the byte that opens an operand index. *)
Fixpoint bracketFree (format : string) : bool :=
  match format with
  | EmptyString => true
  | String c rest => negb (Ascii.eqb c "[") && bracketFree rest
  end.

(** ** The connect protocol, as traces *)

(** A message that leaves the registration loop of [connect] waiting. *)
Definition undecided (m : irc.Message) : Prop :=
  irc.Command m <> irc.ReplyWelcome /\ irc.Command m <> "ERROR".

(** An answer to a read that ends the registration loop: a failure, the
    welcome reply, or an [ERROR]. *)
Definition decisive (r : irc.Message + error) : bool :=
  match r with
  | inr _ => true
  | inl m =>
      String.eqb (irc.Command m) irc.ReplyWelcome || String.eqb (irc.Command m) "ERROR"
  end.

(** The trace after [n] more reads, answered as the environment does. *)
Fixpoint afterReads (env : Env) (n : nat) (tr : Trace) : Trace :=
  match n with
  | O => tr
  | S n' => afterReads env n' (tr ++ [EvReadMessage (env_ReadMessage env tr)])
  end.

Definition readsOf (ms : list irc.Message) : Trace :=
  (fun m => EvReadMessage (inl m)) <$> ms.

Definition joined (chs : list string) : Trace :=
  (fun ch => EvJoin ch None) <$> chs.

(** The opening of every run of [connect] that reaches its loop, with the
    messages it read and passed over. *)
Definition registering (ms : list irc.Message) : Trace :=
  [EvConnect None; EvRegister None] ++ readsOf ms.

(** The [Join] calls of a trace: channel and answer. *)
Definition joinsOf (tr : Trace) : list (string * option error) :=
  omap (fun ev => match ev with
                  | EvJoin ch r => Some (ch, r)
                  | _ => None
                  end) tr.

(** How the registration loop of [connect] ends: on a read that fails, on
    an [ERROR], or on the welcome reply followed by the joins. *)
Inductive registrationEnd (lib : Lib) (conf : Config) : option error -> Trace -> Prop :=
| read_failed err :
    registrationEnd lib conf (Some err) [EvReadMessage (inr err)]
| error_received m :
    irc.Command m = "ERROR" ->
    registrationEnd lib conf
      (Some (fmt.Errorf lib "received ERROR: %s" [AnyMessage m]))
      [EvReadMessage (inl m)]
| join_failed m chs1 ch chs2 err :
    irc.Command m = irc.ReplyWelcome ->
    Channels conf = chs1 ++ ch :: chs2 ->
    registrationEnd lib conf
      (Some (fmt.Errorf lib "error joining channel: %s: %s" [AnyString ch; AnyError err]))
      ([EvReadMessage (inl m); EvSetRegistered] ++ joined chs1 ++ [EvJoin ch (Some err)])
| registered_and_joined m :
    irc.Command m = irc.ReplyWelcome ->
    registrationEnd lib conf None
      ([EvReadMessage (inl m); EvSetRegistered] ++ joined (Channels conf)).

(** The runs of [connect] that return, with what they return. *)
Inductive connectRun (lib : Lib) (conf : Config) : option error -> Trace -> Prop :=
| connect_refused err :
    connectRun lib conf (Some err) [EvConnect (Some err)]
| register_refused err :
    connectRun lib conf (Some err) [EvConnect None; EvRegister (Some err)]
| registration ms r tail :
    Forall undecided ms ->
    registrationEnd lib conf r tail ->
    connectRun lib conf r (registering ms ++ tail).

(** ** Reading a configuration file line by line *)

(** The end of a line. *)
Definition eol : string := String bufio.newline EmptyString.

(** What a line of the file is to [parseConfig]: blank or a comment, an
    entry [key=value] with both sides trimmed, or neither. *)
Inductive lineKind : Type :=
| Skipped
| Entry (key value : string)
| Malformed.

Definition classify (text : string) : lineKind :=
  match strings.TrimSpace text with
  | EmptyString => Skipped
  | String c _ as trimmed =>
      if Ascii.eqb c "#" then Skipped
      else
        match strings.cut trimmed "=" with
        | Some (before, after) =>
            Entry (strings.TrimSpace before) (strings.TrimSpace after)
        | None => Malformed
        end
  end.

Definition lineEntry (text : string) : option (string * string) :=
  match classify text with
  | Entry key value => Some (key, value)
  | _ => None
  end.

(** The entries of a file, line after line. *)
Definition entries (buf : string) : list (string * string) :=
  omap (fun line => lineEntry (bufio.dropCR line)) (bufio.rawLines buf).

(** The value of the first entry with a key, the empty string when there is
    none. *)
Fixpoint valueOf (key : string) (es : list (string * string)) : string :=
  match es with
  | [] => EmptyString
  | (k, v) :: es' => if String.eqb k key then v else valueOf key es'
  end.

(** The channel names among the comma-separated pieces of a value: the
    pieces trimmed, without the blank ones, in their order. *)
Definition channelNames (pieces : list string) : list string :=
  omap (fun c => match strings.TrimSpace c with
                 | EmptyString => None
                 | name => Some name
                 end) pieces.

Definition hashed (name : string) : Prop :=
  exists rest, name = String "#" rest.

(** The keys [parseConfig] knows. *)
Definition recognized : list string := ["channels"; "nick"; "server-host"; "server-port"].

(** ** What makes a file acceptable *)

(** A line the scanning loop of [parseConfig] passes: blank, a comment, or
    an entry whose key is not blank. *)
Definition lineOk (text : string) : bool :=
  match classify text with
  | Skipped => true
  | Entry key _ => negb (String.eqb key EmptyString)
  | Malformed => false
  end.

(** A file and the configuration it stands for: every line fits the
    scanner and is passed by the loop, no key comes twice, and the four
    recognized keys have values that pass their checks. *)
Definition accepted (lib : Lib) (buf : string) (conf : Config) : Prop :=
  Forall (fun line => bufio.tooLong line = false) (bufio.rawLines buf)
  /\ Forall (fun line => lineOk (bufio.dropCR line) = true) (bufio.rawLines buf)
  /\ NoDup (entries buf).*1
  /\ Channels conf = channelNames (strings.Split (valueOf "channels" (entries buf)) ",")
  /\ Forall hashed (Channels conf)
  /\ Channels conf <> []
  /\ Nick conf = valueOf "nick" (entries buf)
  /\ Nick conf <> EmptyString
  /\ ServerHost conf = valueOf "server-host" (entries buf)
  /\ ServerHost conf <> EmptyString
  /\ strconv.ParseInt lib (valueOf "server-port" (entries buf)) = inl (ServerPort conf).

(** ** The passes of the session loop, as traces *)

(** The failures the loop records, and the text it records for each. *)
Inductive failure : Type :=
| Connecting (err : error)
| Reading (err : error)
| GotError (m : irc.Message)
| Ponging (err : error)
| Messaging (err : error).

Definition describe (lib : Lib) (f : failure) : string :=
  match f with
  | Connecting err => "error connecting: " +:+ Error err
  | Reading err => "error reading: " +:+ Error err
  | GotError m => "got ERROR: " +:+ MessageString lib m
  | Ponging err => "error PONGing: " +:+ Error err
  | Messaging err => "error messaging: " +:+ Error err
  end.

(** The entry recorded at time [t] for a failure. *)
Definition entryOf (lib : Lib) (t : time.Time) (f : failure) : string :=
  time.formatRFC3339 t +:+ ": " +:+ describe lib f.

(** The give-up decision, for a reading of the clock and an activity time. *)
Definition gaveUp (now last : time.Time) : bool := waitPeriod <? time.Sub now last.

(** The call of [Close] that follows a decision to close. *)
Definition closing (decided : bool) (r : option error) : Trace :=
  if decided then [EvClose r] else [].

(** How every pass starts: the sleep of a second and the question whether
    the client is connected. *)
Definition polled (up : bool) : Trace := [EvSleep time.Second; EvIsConnected up].

(** The passes of the loop that return: the state a pass ends in and the
    calls it makes, from the state it starts in. *)
Inductive pass (lib : Lib) (conf : Config) (s : state) : state -> Trace -> Prop :=
| pass_connect_failed cext err t r :
    connectRun lib conf (Some err) cext ->
    pass lib conf s
      (set_errors (errors s ++ [entryOf lib t (Connecting err)]) s)
      (polled false ++ cext
         ++ [EvNow t; EvLog (entryOf lib t (Connecting err)); EvClose r])
| pass_connected cext t :
    connectRun lib conf None cext ->
    pass lib conf s (set_lastActivityTime t s) (polled false ++ cext ++ [EvNow t])
| pass_read_failed err t t2 r :
    pass lib conf s
      (set_errors (errors s ++ [entryOf lib t (Reading err)]) s)
      (polled true
         ++ [EvReadMessage (inr err); EvNow t; EvLog (entryOf lib t (Reading err));
             EvNow t2]
         ++ closing (gaveUp t2 (lastActivityTime s) || is_EOF err) r)
| pass_error m t1 t r :
    irc.Command m = "ERROR" ->
    pass lib conf s
      (mkState t1 (errors s ++ [entryOf lib t (GotError m)]))
      (polled true
         ++ [EvReadMessage (inl m); EvNow t1; EvNow t;
             EvLog (entryOf lib t (GotError m)); EvClose r])
| pass_other m t1 :
    irc.Command m <> "ERROR" ->
    irc.Command m <> "PING" ->
    pass lib conf s (mkState t1 (errors s))
      (polled true ++ [EvReadMessage (inl m); EvNow t1])
| pass_pong_failed m t1 err t t2 r :
    irc.Command m = "PING" ->
    pass lib conf s
      (mkState t1 (errors s ++ [entryOf lib t (Ponging err)]))
      (polled true
         ++ [EvReadMessage (inl m); EvNow t1; EvPong m (Some err); EvNow t;
             EvLog (entryOf lib t (Ponging err)); EvNow t2]
         ++ closing (gaveUp t2 t1) r)
| pass_flushed m t1 t2 ts :
    irc.Command m = "PING" ->
    length ts = length (deliveries (Channels conf) (errors s)) ->
    pass lib conf s
      (mkState (default t2 (last ts)) [])
      (polled true
         ++ [EvReadMessage (inl m); EvNow t1; EvPong m None; EvNow t2]
         ++ delivered (deliveries (Channels conf) (errors s)) ts)
| pass_flush_failed m t1 t2 chs1 ch chs2 k e ts err t t3 r :
    irc.Command m = "PING" ->
    Channels conf = chs1 ++ ch :: chs2 ->
    errors s !! k = Some e ->
    length ts = length (deliveries chs1 (errors s) ++ (pair ch <$> take k (errors s))) ->
    pass lib conf s
      (mkState (default t2 (last ts))
         (drop k (errors s) ++ [entryOf lib t (Messaging err)]))
      (polled true
         ++ [EvReadMessage (inl m); EvNow t1; EvPong m None; EvNow t2]
         ++ delivered (deliveries chs1 (errors s) ++ (pair ch <$> take k (errors s))) ts
         ++ [EvMessage ch e (Some err); EvNow t;
             EvLog (entryOf lib t (Messaging err)); EvNow t3]
         ++ closing (gaveUp t3 (default t2 (last ts))) r).

(** A number of passes, one after the other. *)
Inductive passes (lib : Lib) (conf : Config) : nat -> state -> state -> Trace -> Prop :=
| passes_O s : passes lib conf 0 s s []
| passes_S n s s1 s' ext1 ext :
    pass lib conf s s1 ext1 ->
    passes lib conf n s1 s' ext ->
    passes lib conf (S n) s s' (ext1 ++ ext).

(** The number of events of a kind in a trace. *)
Definition count (kind : Event -> bool) (tr : Trace) : nat :=
  length (List.filter kind tr).

Definition isSleep (ev : Event) : bool :=
  match ev with EvSleep d => d =? time.Second | _ => false end.

Definition isPoll (ev : Event) : bool :=
  match ev with EvIsConnected _ => true | _ => false end.

Definition isLog (ev : Event) : bool :=
  match ev with EvLog _ => true | _ => false end.

Definition isClose (ev : Event) : bool :=
  match ev with EvClose _ => true | _ => false end.

(** An answer that the client is not connected, a call of [Connect], a
    call of [Pong]. *)
Definition isDown (ev : Event) : bool :=
  match ev with EvIsConnected false => true | _ => false end.

Definition isConnectAttempt (ev : Event) : bool :=
  match ev with EvConnect _ => true | _ => false end.

Definition isPong (ev : Event) : bool :=
  match ev with EvPong _ _ => true | _ => false end.

(** The calls [connect] makes. *)
Definition isConnectCall (ev : Event) : bool :=
  match ev with
  | EvConnect _ | EvRegister _ | EvReadMessage _ | EvSetRegistered | EvJoin _ _ => true
  | _ => false
  end.

(** The calls [connect] makes once it has called [Connect]. *)
Definition isRegistrationCall (ev : Event) : bool :=
  match ev with
  | EvRegister _ | EvReadMessage _ | EvSetRegistered | EvJoin _ _ => true
  | _ => false
  end.

(** The lines printed to the log, in order. *)
Definition logged (tr : Trace) : list string :=
  omap (fun ev => match ev with
                  | EvLog line => Some line
                  | _ => None
                  end) tr.

(** An entry of the error log as the loop makes them: the timestamp of a
    time, a colon, a space and the text of a failure. *)
Definition recorded (lib : Lib) (e : string) : Prop :=
  exists t f, e = entryOf lib t f.

(** ** Starting up *)

(** [Args] hold command line arguments.  The field is [Config] in the
    source, a name that the configuration has here. *)
Record Args : Type := mkArgs { ArgsConfig : string }.

(** What the process does before the loop, on the packages [flag] and
    [log] and on [godrop]: [flag.PrintDefaults], [log.Fatal], which prints
    the error and ends the process, [godrop.New] and [SetTimeoutTime]. *)
Inductive StartEvent : Type :=
| EvPrintDefaults
| EvFatal (err : error)
| EvNew (nick name ident host : string) (port : Z) (tls : bool)
| EvSetTimeoutTime (d : Z).

(** [getArgs], from the value that the flag [-conf] holds when
    [flag.Parse] has returned. *)
Definition getArgs (lib : Lib) (config : string) : list StartEvent * (Args + error) :=
  if String.eqb config EmptyString then
    ([EvPrintDefaults], inr (fmt.Errorf lib "no config file provided" []))
  else ([], inl (mkArgs config)).

(** [main]: the calls before the loop and, unless the process has ended
    in [log.Fatal], the first [n] passes of [run]. *)
Definition main (env : Env) (ReadFile : string -> string + error) (config : string)
    (n fuel : nat) : list StartEvent * option (option (state * Trace)) :=
  match getArgs (env_lib env) config with
  | (evs, inr err) => (evs ++ [EvFatal err], None)
  | (evs, inl args) =>
      match parseConfig (env_lib env) ReadFile (ArgsConfig args) with
      | inr err => (evs ++ [EvFatal err], None)
      | inl conf =>
          (evs ++ [EvNew (Nick conf) (Nick conf) (Nick conf) (ServerHost conf)
                     (ServerPort conf) true;
                   EvSetTimeoutTime (7 * time.Minute)],
           Some (run env n fuel conf []))
      end
  end.

(** ** The test of [addError] *)

Module testing.

(** What the expressions of [TestAddError] accept where the zone starts,
    the class of [-], [+] and [Z]. *)
Definition zoneMark (c : ascii) : bool :=
  Ascii.eqb c "-" || Ascii.eqb c "+" || Ascii.eqb c "Z".

(** The expressions of [TestAddError], anchored at both ends: four digits,
    [-], two digits, [-], two digits, [T], two digits, [:], two digits, [:],
    two digits, a zone mark, two digits, [:], two digits, [: ] and the
    message. *)
Definition wanted (message : string) (s : string) : bool :=
  match after [digit; digit; digit; digit; lit "-"; digit; digit; lit "-";
               digit; digit; lit "T"; digit; digit; lit ":"; digit; digit;
               lit ":"; digit; digit; zoneMark; digit; digit; lit ":";
               digit; digit; lit ":"; lit " "] s with
  | Some rest => String.eqb rest message
  | None => false
  end.

Record case : Type := mkCase {
  Format : string;
  Args : list any;
  Output : string -> bool
}.

Definition tests : list case :=
  [ mkCase "hi" [] (wanted "hi");
    mkCase "some error: %s" [AnyError (errorString "something went wrong")]
      (wanted "some error: something went wrong") ].

(** How a case ends: without complaint, or in one of the two calls of
    [t.Errorf]. *)
Inductive verdict : Type :=
| Pass
| WrongLength (n : nat)
| NoMatch (entry : string).

(** The body of the loop over the cases. *)
Definition check (env : Env) (test : case) : M verdict :=
  (s <- addError env (mkState time.zero []) (Format test) (Args test);;
   ret (if negb (length (errors s) =? 1)%nat then WrongLength (length (errors s))
        else
          let entry := default EmptyString (errors s !! 0%nat) in
          if negb (Output test entry) then NoMatch entry else Pass))%go.

Fixpoint checks (env : Env) (cases : list case) : M (list verdict) :=
  match cases with
  | [] => ret []
  | test :: rest =>
      (v <- check env test;;
       vs <- checks env rest;;
       ret (v :: vs))%go
  end.

Definition TestAddError (env : Env) : M (list verdict) := checks env tests.

End testing.

(** ** Sample inputs *)

Module Sample.

Definition conf : Config := mkConfig ["#a"; "#b"] "bot" "irc.example.com" 6667.

Definition welcome : irc.Message := irc.mkMessage "irc.example.com" "001" ["bot"; "Welcome"].
Definition notice : irc.Message := irc.mkMessage "irc.example.com" "NOTICE" ["*"; "hello"].
Definition ping : irc.Message := irc.mkMessage "" "PING" ["irc.example.com"].
Definition closing : irc.Message := irc.mkMessage "" "ERROR" ["Closing Link"].

(** The epoch, as a [Time] in UTC. *)
Definition epoch : time.Time := time.mkTime 0 0.

(** A configuration file with two channels. *)
Definition file : string :=
  "channels=#a,#b" +:+ eol +:+ "nick=bot" +:+ eol
    +:+ "server-host=irc.example.com" +:+ eol +:+ "server-port=6667" +:+ eol.

(** An entry with a key of its own, [n] bytes long. *)
Definition longEntry (n : Z) : string := "motd=" +:+ time.zeros (Z.to_nat (n - 5)).

(** A file system with one file. *)
Definition disk (name content : string) (path : string) : string + error :=
  if String.eqb path name then inl content
  else inr (errorString "no such file or directory").

End Sample.

(** More inputs: a client that is connected, hands over a [PING] at every
    read and cannot send its answer, with a clock one hour east of UTC; a
    trace after which the simulated client is connected; and the sample
    file with its first two lines in the other order, and with a comment
    after its first line. *)
Module Scenario.

Definition refusing : Env :=
  {| env_lib := Simulated.lib;
     env_Now tr := time.mkTime (Z.of_nat (length tr) * time.Second) 3600;
     env_IsConnected _ := true;
     env_Connect _ := None;
     env_Register _ := None;
     env_ReadMessage _ := inl Sample.ping;
     env_Pong _ _ := Some (errorString "broken pipe");
     env_Join _ _ := None;
     env_Message _ _ _ := None;
     env_Close _ := None |}.

Definition connected : Trace := [EvConnect None].

Definition firstLine : string := "channels=#a,#b" +:+ eol.

Definition otherLines : string :=
  "nick=bot" +:+ eol +:+ "server-host=irc.example.com" +:+ eol
    +:+ "server-port=6667" +:+ eol.

Definition reordered : string :=
  "nick=bot" +:+ eol +:+ "channels=#a,#b" +:+ eol
    +:+ "server-host=irc.example.com" +:+ eol +:+ "server-port=6667" +:+ eol.

Definition comment : string := "# where the bot sits".

End Scenario.

(** * Properties *)

(** ** Library models at work *)

Example program_formats_sequential :
  forallb sequential
    ["error connecting: %s"; "error reading: %s"; "got ERROR: %s";
     "error PONGing: %s"; "error messaging: %s"; "hi"; "some error: %s"] = true.
Proof. reflexivity. Qed.

Example indexed_format_not_sequential : sequential "%[1]s" = false.
Proof. reflexivity. Qed.

(** Flags, widths, precisions, stars and verbs of any kind leave a format
    sequential; an operand index does not, wherever it stands in its
    directive. *)
Example flagged_formats_sequential :
  forallb sequential
    ["%5d"; "%-10s"; "%+v"; "%.2f"; "%03d"; "%*d"; "%.*f"; "%#x"; "% d";
     "%6.2f%%"; "%5"; "[%s] %q"; "100%"] = true.
Proof. reflexivity. Qed.

Example indexed_formats_not_sequential :
  existsb sequential
    ["%[2]d"; "%5[1]d"; "%.[2]d"; "%[1]*d"; "%-[1]d"; "%*[1]d"; "%.3[1]d"; "%["]
  = false.
Proof. reflexivity. Qed.

Example parse_flagged :
  fmt.parse fmt.MText "%-10s|%*.*f|%d"
  = Some [fmt.DSpec "%-10s" 1; fmt.DLit "|"; fmt.DSpec "%*.*f" 3; fmt.DLit "|";
          fmt.DVerb None "d"].
Proof. reflexivity. Qed.

(** A number past a million makes [parsenum] give up, and the directive
    takes the rest of the format; a number of seven digits does not. *)
Example parse_number_too_large :
  fmt.parse fmt.MText "%12345678d x" = Some [fmt.DSpec "%12345678d x" 0]
  /\ fmt.parse fmt.MText "%1234567d x"
     = Some [fmt.DSpec "%1234567d" 1; fmt.DLit " "; fmt.DLit "x"].
Proof. split; reflexivity. Qed.

(** Four passes of [run] against a server that welcomes the bot, pings it
    once and then closes the stream: the bot connects and joins, answers
    the ping, meets the end of the stream and closes, and then tries to
    connect again. *)
Example run_reconnects_after_EOF :
  let env := Simulated.env [inl Sample.welcome; inl Sample.ping] None None in
  exists s tr,
    run env 4 1 Sample.conf [] = Some (s, tr)
    /\ connectionEvents tr
       = [EvIsConnected false; EvConnect None;
          EvIsConnected true;
          EvIsConnected true; EvClose None;
          EvIsConnected false; EvConnect None; EvClose None]
    /\ joinsOf tr = [("#a", None); ("#b", None)]
    /\ errors s = ["1970-01-01T00:00:18Z: error reading: EOF";
                   "1970-01-01T00:00:27Z: error connecting: EOF"].
Proof. intros env. eexists _, _. split; [vm_compute; reflexivity|]. by vm_compute. Qed.

(** The two cases of [TestAddError], on a state with an empty log. *)
Example TestAddError_entries :
  let env := Simulated.env [] None None in
  let s := mkState time.zero [] in
  (errors ∘ fst <$> addError env s "hi" [] [])
  = Some ["1970-01-01T00:00:00Z: hi"]
  /\ (errors ∘ fst
       <$> addError env s "some error: %s"
             [AnyError (errorString "something went wrong")] [])
     = Some ["1970-01-01T00:00:00Z: some error: something went wrong"].
Proof. split; reflexivity. Qed.

Example ParseInt_port lib : strconv.ParseInt lib "6667" = inl 6667.
Proof. reflexivity. Qed.

Example ParseInt_signed lib : strconv.ParseInt lib "-12" = inl (-12).
Proof. reflexivity. Qed.

Example ParseInt_not_a_number lib :
  strconv.ParseInt lib "66x7" = inr (strconv.NumError lib "66x7" "invalid syntax").
Proof. reflexivity. Qed.

Example ParseInt_empty lib :
  strconv.ParseInt lib "" = inr (strconv.NumError lib "" "invalid syntax").
Proof. reflexivity. Qed.

Example ParseInt_too_large lib :
  strconv.ParseInt lib "9223372036854775808"
  = inr (strconv.NumError lib "9223372036854775808" "value out of range").
Proof. reflexivity. Qed.

Example TrimSpace_unicode :
  strings.TrimSpace
    (String (ascii_of_nat 9) (" nick "
       +:+ String (ascii_of_nat 194) (String (ascii_of_nat 160) "")))
  = "nick".
Proof. reflexivity. Qed.

Example Scanner_longest_line :
  bufio.tooLong (Sample.longEntry 65535) = false
  /\ parseConfig Simulated.lib
       (Sample.disk "umbled.conf" (Sample.longEntry 65535 +:+ eol +:+ Sample.file))
       "umbled.conf"
     = inl Sample.conf.
Proof. split; vm_compute; reflexivity. Qed.

Example Scanner_token_too_long :
  bufio.tooLong (Sample.longEntry 65536) = true
  /\ parseConfig Simulated.lib
       (Sample.disk "umbled.conf" (Sample.longEntry 65536 +:+ eol +:+ Sample.file))
       "umbled.conf"
     = inr (errorString
              "error scanning file: umbled.conf: bufio.Scanner: token too long").
Proof. split; vm_compute; reflexivity. Qed.

Example Scanner_lines :
  bufio.Scanner ("a" +:+ String bufio.carriageReturn eol +:+ eol +:+ "b")
  = (["a"; ""; "b"], None).
Proof. reflexivity. Qed.

Example formatRFC3339_epoch :
  time.formatRFC3339 (time.mkTime 0 0) = "1970-01-01T00:00:00Z".
Proof. reflexivity. Qed.

Example formatRFC3339_reference :
  time.formatRFC3339 (time.mkTime (1136239445 * time.Second) (-7 * 3600))
  = "2006-01-02T15:04:05-07:00".
Proof. reflexivity. Qed.

Example formatRFC3339_leap_day :
  time.formatRFC3339 (time.mkTime (1709251199 * time.Second + 5) 19800)
  = "2024-03-01T05:29:59+05:30".
Proof. reflexivity. Qed.

Example formatRFC3339_zero : time.formatRFC3339 time.zero = "0001-01-01T00:00:00Z".
Proof. reflexivity. Qed.

Example formatRFC3339_sub_minute_zone :
  time.formatRFC3339 (time.mkTime 0 (-30)) = "1969-12-31T23:59:30+00:00".
Proof. reflexivity. Qed.

Example Sprintf_plain lib :
  fmt.Sprintf lib "error reading: %s" [AnyError io_EOF] = "error reading: EOF".
Proof. reflexivity. Qed.

Example Sprintf_missing lib : fmt.Sprintf lib "50%% %s%" [] = "50% %!s(MISSING)%!(NOVERB)".
Proof. reflexivity. Qed.

Example Sprintf_indexed lib :
  fmt.Sprintf lib "%[2]s-%[1]s-%s" [AnyString "a"; AnyString "b"] = "b-a-b".
Proof. reflexivity. Qed.

(** A directive with a width prints what the library prints for it from
    the operand it takes, between its neighbours. *)
Example Sprintf_flagged lib (n : any) :
  fmt.Sprintf lib "%s: try %3d of %s." [AnyString "t"; n; AnyString "five"]
  = "t: try " +:+ (SprintfOther lib "%3d" [n] +:+ " of five.").
Proof. reflexivity. Qed.

(** ** The session state's operations *)

Section StateProperties.

Variable env : Env.

Lemma bind_Some {A B} (m : M A) (k : A -> M B) tr a tr1 :
  m tr = Some (a, tr1) -> bind m k tr = k a tr1.
Proof. intros H. unfold bind. by rewrite H. Qed.

Lemma call_eq {A} (answer : Trace -> A) (ev : A -> Event) tr :
  call answer ev tr = Some (answer tr, tr ++ [ev (answer tr)]).
Proof. reflexivity. Qed.

(** The inner loop of a flush, for one channel: some entries are
    delivered, each followed by a reading of the clock; then the loop is
    through, or the next entry fails and the log is cut at it. *)
Lemma sendErrors_spec ch es : forall s i tr,
  exists ts s' r tail,
    sendErrors env ch s i es tr
      = Some ((s', r), tr ++ delivered (pair ch <$> take (length ts) es) ts ++ tail)
    /\ (length ts <= length es)%nat
    /\ lastActivityTime s' = default (lastActivityTime s) (last ts)
    /\ match r with
       | None => length ts = length es /\ tail = [] /\ errors s' = errors s
       | Some err =>
           exists e, es !! length ts = Some e
             /\ tail = [EvMessage ch e (Some err)]
             /\ errors s' = drop (i + length ts) (errors s)
       end.
Proof.
  induction es as [|e es IH]; intros s i tr.
  - exists [], s, None, []. simpl. rewrite app_nil_r. done.
  - simpl. unfold bind at 1. unfold c_Message at 1. rewrite call_eq.
    destruct (env_Message env tr ch e) as [err|] eqn:Hmsg.
    + exists [], (set_errors (drop i (errors s)) s), (Some err),
        [EvMessage ch e (Some err)].
      simpl. repeat split; try lia.
      exists e. rewrite Nat.add_0_r. done.
    + unfold bind at 1. unfold time_Now at 1. rewrite call_eq.
      set (tr1 := tr ++ [EvMessage ch e None]).
      set (now := env_Now env tr1).
      destruct (IH (set_lastActivityTime now s) (S i) (tr1 ++ [EvNow now]))
        as (ts & s' & r & tail & Hrun & Hlen & Hlast & Hr).
      exists (now :: ts), s', r, tail.
      split; [|split; [|split]].
      * rewrite Hrun. subst tr1. simpl. by rewrite <- !app_assoc.
      * simpl. lia.
      * rewrite Hlast. simpl. destruct ts as [|t ts]; [done|].
        rewrite last_cons_cons. destruct (last (t :: ts)) eqn:E; [done|].
        by apply last_None in E.
      * destruct r as [err|]; simpl in *.
        -- destruct Hr as (e' & He' & Htail & Herrs). exists e'.
           repeat split; try done. rewrite Herrs. f_equal. lia.
        -- destruct Hr as (Hl & Htail & Herrs). by rewrite Hl.
Qed.

Lemma delivered_app ds1 ts1 ds2 ts2 :
  length ts1 = length ds1 ->
  delivered (ds1 ++ ds2) (ts1 ++ ts2) = delivered ds1 ts1 ++ delivered ds2 ts2.
Proof.
  revert ts1. induction ds1 as [|[ch e] ds1 IH]; intros [|t ts1] Hlen;
    simpl in *; try done.
  rewrite IH; [done|lia].
Qed.

Lemma default_last_app {A} (d : A) (l1 l2 : list A) :
  default (default d (last l1)) (last l2) = default d (last (l1 ++ l2)).
Proof. rewrite last_app. by destruct (last l2). Qed.

Lemma deliveries_cons ch chs es :
  deliveries (ch :: chs) es = (pair ch <$> es) ++ deliveries chs es.
Proof. reflexivity. Qed.

Lemma deliveries_app chs1 chs2 es :
  deliveries (chs1 ++ chs2) es = deliveries chs1 es ++ deliveries chs2 es.
Proof. unfold deliveries. by rewrite bind_app. Qed.

Lemma sendChannels_spec chs : forall s tr,
  exists ds ts s' r tail,
    sendChannels env chs s tr = Some ((s', r), tr ++ delivered ds ts ++ tail)
    /\ length ts = length ds
    /\ lastActivityTime s' = default (lastActivityTime s) (last ts)
    /\ (r = None -> errors s' = errors s)
    /\ flushOutcome chs s s' r ds tail.
Proof.
  induction chs as [|ch chs IH]; intros s tr.
  - exists [], [], s, None, []. simpl. rewrite app_nil_r. done.
  - simpl. unfold bind at 1.
    destruct (sendErrors_spec ch (errors s) s 0%nat tr)
      as (ts1 & s1 & r1 & tail1 & Hrun1 & Hlen1 & Hlast1 & Hr1).
    rewrite Hrun1.
    assert (Hl1 : length ts1 = length (pair ch <$> take (length ts1) (errors s))).
    { rewrite length_fmap, length_take. lia. }
    destruct r1 as [err|].
    + destruct Hr1 as (e & He & Htail & Herrs).
      exists (pair ch <$> take (length ts1) (errors s)), ts1, s1, (Some err), tail1.
      repeat split; try done.
      exists [], ch, chs, (length ts1), e. repeat split; done.
    + destruct Hr1 as (Hfull & Htail & Herrs). subst tail1.
      rewrite Hfull, firstn_all, app_nil_r in *.
      destruct (IH s1 (tr ++ delivered (pair ch <$> errors s) ts1))
        as (ds2 & ts2 & s' & r & tail & Hrun & Hlen & Hlast & Hkeep & Hr).
      exists ((pair ch <$> errors s) ++ ds2), (ts1 ++ ts2), s', r, tail.
      split; [|split; [|split; [|split]]].
      * rewrite Hrun, delivered_app by (rewrite length_fmap; lia).
        by rewrite <- !app_assoc.
      * rewrite !length_app. lia.
      * rewrite Hlast, Hlast1. apply default_last_app.
      * intros Hn. rewrite Hkeep by done. done.
      * unfold flushOutcome in *. destruct r as [err|].
        -- destruct Hr as (chs1 & ch' & chs2 & k & e & -> & He & -> & -> & Hd).
           exists (ch :: chs1), ch', chs2, k, e. rewrite Herrs in *.
           repeat split; try done.
           by rewrite deliveries_cons, <- app_assoc.
        -- destruct Hr as [-> ->]. by rewrite Herrs, deliveries_cons.
Qed.

Lemma sendMessages_spec conf s tr :
  exists ds ts s' r tail,
    sendMessages env conf s tr = Some ((s', r), tr ++ delivered ds ts ++ tail)
    /\ length ts = length ds
    /\ lastActivityTime s' = default (lastActivityTime s) (last ts)
    /\ (r = None -> errors s' = [])
    /\ flushOutcome (Channels conf) s s' r ds tail.
Proof.
  destruct (sendChannels_spec (Channels conf) s tr)
    as (ds & ts & s' & r & tail & Hrun & Hlen & Hlast & Hkeep & Hr).
  unfold sendMessages, bind. rewrite Hrun.
  destruct r as [err|].
  - exists ds, ts, s', (Some err), tail. done.
  - exists ds, ts, (set_errors [] s'), None, tail. done.
Qed.

Lemma attempts_delivered ds : forall ts,
  length ts = length ds ->
  attempts (delivered ds ts) = (fun d => (d, None)) <$> ds.
Proof.
  induction ds as [|[ch e] ds IH]; intros [|t ts] Hlen; simpl in *; try done.
  unfold attempts in *. simpl. rewrite IH; [done|lia].
Qed.

Lemma attempts_app tr1 tr2 : attempts (tr1 ++ tr2) = attempts tr1 ++ attempts tr2.
Proof. apply omap_app. Qed.

(** The saturation of [Sub] never crosses the wait period. *)
Lemma Sub_exceeds_waitPeriod (now last : time.Time) :
  (waitPeriod <? time.Sub now last) = true
  <-> waitPeriod < time.unixNano now - time.unixNano last.
Proof.
  rewrite Z.ltb_lt. unfold time.Sub.
  unfold waitPeriod, time.Minute, time.Second, time.Nanosecond,
    time.minDuration, time.maxDuration.
  repeat case_match; lia.
Qed.

(** C2.  The give-up decision reads the clock once and answers true
    exactly when the time elapsed since [lastActivityTime] is strictly
    more than the wait period of fifteen minutes: false when no time has
    passed, false at fifteen minutes sharp, true at sixteen minutes. *)
Theorem shouldGiveUp_iff (s : state) (tr : Trace) :
  let now := env_Now env tr in
  let elapsed := time.unixNano now - time.unixNano (lastActivityTime s) in
  exists b,
    shouldGiveUp env s tr = Some (b, tr ++ [EvNow now])
    /\ (b = true <-> waitPeriod < elapsed)
    /\ (lastActivityTime s = now -> b = false)
    /\ (elapsed = waitPeriod -> b = false)
    /\ (elapsed = 16 * time.Minute -> b = true)
    /\ waitPeriod = 15 * 60 * 1000000000.
Proof.
  intros now elapsed.
  exists (waitPeriod <? time.Sub now (lastActivityTime s)).
  assert (Hiff : (waitPeriod <? time.Sub now (lastActivityTime s)) = true
                 <-> waitPeriod < elapsed) by apply Sub_exceeds_waitPeriod.
  split; [done|]. split; [done|].
  repeat split.
  - intros Heq. apply not_true_is_false. rewrite Hiff.
    subst elapsed. rewrite Heq.
    unfold waitPeriod, time.Minute, time.Second, time.Nanosecond. lia.
  - intros Heq. apply not_true_is_false. rewrite Hiff. lia.
  - intros Heq. apply Hiff. rewrite Heq.
    unfold waitPeriod, time.Minute, time.Second, time.Nanosecond. lia.
Qed.

(** C1.  A flush always returns.  When it returns an error, the delivery
    that failed is the first failure: it was the delivery of entry [k] to
    some channel, every delivery before it succeeded, the error returned
    is the one that delivery gave, and the log is left holding exactly the
    entries from [k] on, in their order.  When it returns no error, every
    entry was delivered to every channel and the log is empty. *)
Theorem sendMessages_keeps_undelivered (conf : Config) (s : state) (tr : Trace) :
  exists s' r ext,
    sendMessages env conf s tr = Some ((s', r), tr ++ ext)
    /\ match r with
       | Some err =>
           exists chs1 ch chs2 k e,
             Channels conf = chs1 ++ ch :: chs2
             /\ errors s !! k = Some e
             /\ attempts ext
                = ((fun d => (d, None))
                     <$> deliveries chs1 (errors s) ++ (pair ch <$> take k (errors s)))
                  ++ [(ch, e, Some err)]
             /\ errors s' = drop k (errors s)
             /\ length (errors s') = (length (errors s) - k)%nat
             /\ (forall j, errors s' !! j = errors s !! (k + j)%nat)
       | None =>
           attempts ext = (fun d => (d, None)) <$> deliveries (Channels conf) (errors s)
           /\ errors s' = []
       end.
Proof.
  destruct (sendMessages_spec conf s tr)
    as (ds & ts & s' & r & tail & Hrun & Hlen & Hlast & Hclear & Hout).
  exists s', r, (delivered ds ts ++ tail). split; [done|].
  rewrite attempts_app, attempts_delivered by done.
  destruct r as [err|]; simpl in Hout.
  - destruct Hout as (chs1 & ch & chs2 & k & e & Hchs & He & -> & -> & Hd).
    exists chs1, ch, chs2, k, e. repeat split; try done.
    + rewrite Hd. apply length_drop.
    + intros j. rewrite Hd. apply lookup_drop.
  - destruct Hout as [-> ->]. rewrite app_nil_r. split; [done|]. by apply Hclear.
Qed.

Lemma elem_of_deliveries c e chs es :
  (c, e) ∈ deliveries chs es <-> c ∈ chs /\ e ∈ es.
Proof.
  unfold deliveries. rewrite list_elem_of_bind. split.
  - intros (c' & Hin & Hc). apply list_elem_of_fmap in Hin as (e' & Heq & He).
    by simplify_eq.
  - intros [Hc He]. exists c. split; [|done]. apply list_elem_of_fmap. by exists e.
Qed.

Lemma fst_succeeded (ds : list (string * string)) :
  fst <$> ((fun d => (d, None (A:=error))) <$> ds) = ds.
Proof. induction ds as [|d ds IH]; [done|]. csimpl. by f_equal. Qed.

Lemma elem_of_drop_elem {A} (x : A) k l : x ∈ drop k l -> x ∈ l.
Proof. intros H. rewrite <- (take_drop k l). apply elem_of_app. by right. Qed.

(** C9.  When a flush fails at entry [k] on channel [ch], the channels
    listed before [ch] have each received the whole log, [ch] has received
    the entries before [k], and no delivery was made to the channels listed
    after [ch]; yet the log is cut to the entries from [k] on, so the entries
    before [k] are gone for those later channels.  Every later flush starts
    over from the first channel with its whole log: when it succeeds, each
    retained entry goes to every channel, the ones before [ch], which have
    had it already, included. *)
Theorem partial_flush_resends (conf : Config) (s s' : state) (err : error)
    (tr tr' : Trace) :
  sendMessages env conf s tr = Some ((s', Some err), tr') ->
  exists chs1 ch chs2 k e ext,
    Channels conf = chs1 ++ ch :: chs2
    /\ tr' = tr ++ ext
    /\ errors s !! k = Some e
    /\ attempts ext
       = ((fun d => (d, None))
            <$> deliveries chs1 (errors s) ++ (pair ch <$> take k (errors s)))
         ++ [(ch, e, Some err)]
    /\ length (attempts ext) = (length chs1 * length (errors s) + k + 1)%nat
    /\ errors s' = drop k (errors s)
    /\ (forall c e', c ∈ chs1 -> e' ∈ errors s' -> (c, e', None) ∈ attempts ext)
    /\ (forall s2 tr2,
          exists s3 r2 ext2,
            sendMessages env conf s2 tr2 = Some ((s3, r2), tr2 ++ ext2)
            /\ (fst <$> attempts ext2) `prefix_of` deliveries (Channels conf) (errors s2)
            /\ (r2 = None ->
                forall c e', c ∈ Channels conf -> e' ∈ errors s2 ->
                  (c, e', None) ∈ attempts ext2)).
Proof.
  intros Hrun0.
  destruct (sendMessages_spec conf s tr)
    as (ds & ts & s0 & r & tail & Hrun & Hlen & Hlast & Hclear & Hout).
  rewrite Hrun in Hrun0. simplify_eq. simpl in Hout.
  destruct Hout as (chs1 & ch & chs2 & k & e & Hchs & He & -> & -> & Hd).
  exists chs1, ch, chs2, k, e. eexists. split; [done|]. split; [done|].
  split; [done|].
  rewrite attempts_app, attempts_delivered by done.
  assert (Hk : (k < length (errors s))%nat) by by eapply lookup_lt_Some.
  repeat split; try done.
  - rewrite length_app, length_fmap, length_app, length_fmap, length_take.
    unfold deliveries. simpl.
    assert (Hb : forall (cs : list string),
               length (cs ≫= fun c => pair c <$> errors s)
               = (length cs * length (errors s))%nat).
    { induction cs as [|c cs IH]; [done|]. csimpl.
      rewrite length_app, length_fmap, IH. done. }
    rewrite Hb. lia.
  - intros c e' Hc He'. apply elem_of_app. left.
    apply list_elem_of_fmap. exists (c, e'). split; [done|].
    apply elem_of_app. left. apply elem_of_deliveries. split; [done|].
    rewrite Hd in He'. by eapply elem_of_drop_elem.
  - intros s2 tr2.
    destruct (sendMessages_spec conf s2 tr2)
      as (ds2 & ts2 & s3 & r2 & tail2 & Hrun2 & Hlen2 & Hlast2 & Hclear2 & Hout2).
    exists s3, r2, (delivered ds2 ts2 ++ tail2). split; [done|].
    rewrite attempts_app, attempts_delivered by done.
    destruct r2 as [err2|]; simpl in Hout2.
    + destruct Hout2 as (cs1 & c2 & cs2 & k2 & e2 & Hcs & He2 & -> & -> & Hd2).
      split; [|done]. rewrite Hcs.
      rewrite deliveries_app, deliveries_cons.
      rewrite (fmap_app fst), fst_succeeded.
      rewrite <- app_assoc. apply prefix_app.
      rewrite <- (take_drop k2 (errors s2)) at 2.
      rewrite fmap_app, <- app_assoc. apply prefix_app.
      unfold attempts. simpl.
      rewrite (drop_S _ _ _ He2). simpl. apply prefix_cons, prefix_nil.
    + destruct Hout2 as [-> ->]. rewrite app_nil_r. split.
      * by rewrite fst_succeeded.
      * intros _ c e' Hc He'. apply list_elem_of_fmap. exists (c, e').
        split; [done|]. by apply elem_of_deliveries.
Qed.

End StateProperties.

Lemma partial_flush_resends_witness :
  let env := Simulated.env [] None (Some 4%nat) in
  let conf := mkConfig ["#a"; "#b"] "bot" "irc.example.com" 6667 in
  let s := mkState time.zero ["e0"; "e1"; "e2"] in
  exists s' err tr',
    sendMessages env conf s [] = Some ((s', Some err), tr')
    /\ errors s' = ["e1"; "e2"]
    /\ exists chs1 ch chs2 k e ext,
         Channels conf = chs1 ++ ch :: chs2
         /\ tr' = [] ++ ext
         /\ errors s !! k = Some e
         /\ attempts ext
            = ((fun d => (d, None))
                 <$> deliveries chs1 (errors s) ++ (pair ch <$> take k (errors s)))
              ++ [(ch, e, Some err)]
         /\ length (attempts ext) = (length chs1 * length (errors s) + k + 1)%nat
         /\ errors s' = drop k (errors s)
         /\ (forall c e', c ∈ chs1 -> e' ∈ errors s' -> (c, e', None) ∈ attempts ext)
         /\ (forall s2 tr2,
               exists s3 r2 ext2,
                 sendMessages env conf s2 tr2 = Some ((s3, r2), tr2 ++ ext2)
                 /\ (fst <$> attempts ext2)
                      `prefix_of` deliveries (Channels conf) (errors s2)
                 /\ (r2 = None ->
                     forall c e', c ∈ Channels conf -> e' ∈ errors s2 ->
                       (c, e', None) ∈ attempts ext2)).
Proof.
  intros env conf s. eexists _, _, _.
  split; [reflexivity|]. split; [reflexivity|].
  exact (partial_flush_resends env conf s _ _ [] _ eq_refl).
Defined.

(** ** Timestamps *)

Lemma allFrom_spec (P : Z -> bool) (n : nat) : forall lo,
  allFrom P lo n = true ->
  forall x, lo <= x < lo + Z.of_nat n -> P x = true.
Proof.
  induction n as [|n IH]; intros lo Hall x Hx; [lia|].
  simpl in Hall. apply andb_true_iff in Hall as [Hlo Hrest].
  destruct (decide (x = lo)) as [->|Hne]; [done|].
  apply (IH (lo + 1)); [done|lia].
Qed.

Lemma twoDigits_inv (s : string) :
  twoDigits s = true ->
  exists a b, s = String a (String b "") /\ digit a = true /\ digit b = true.
Proof.
  unfold twoDigits.
  destruct s as [|a [|b [|c s]]]; simpl; try done;
    destruct (digit a) eqn:Ha; try done; destruct (digit b) eqn:Hb; try done.
  intros _. by exists a, b.
Qed.

Lemma fourDigits_inv (s : string) :
  fourDigits s = true ->
  exists a b c d,
    s = String a (String b (String c (String d "")))
    /\ digit a = true /\ digit b = true /\ digit c = true /\ digit d = true.
Proof.
  unfold fourDigits.
  destruct s as [|a [|b [|c [|d [|e s]]]]]; simpl; try done;
    destruct (digit a) eqn:Ha; try done; destruct (digit b) eqn:Hb; try done;
    destruct (digit c) eqn:Hc; try done; destruct (digit d) eqn:Hd; try done.
  intros _. by exists a, b, c, d.
Qed.

Lemma appendInt_two (x : Z) : 0 <= x < 100 -> twoDigits (time.appendInt x 2) = true.
Proof.
  intros Hx.
  apply (allFrom_spec (fun x => twoDigits (time.appendInt x 2)) 100 0); [|lia].
  by vm_compute.
Qed.

Lemma appendInt_four (x : Z) : 0 <= x < 10000 -> fourDigits (time.appendInt x 4) = true.
Proof.
  intros Hx.
  apply (allFrom_spec (fun x => fourDigits (time.appendInt x 4)) (Z.to_nat 10000) 0);
    [by vm_compute|lia].
Qed.

Lemma civilInEra_all (doe : Z) : 0 <= doe < 146097 -> civilInEra doe = true.
Proof.
  intros Hdoe.
  apply (allFrom_spec civilInEra (Z.to_nat 146097) 0); [by vm_compute|lia].
Qed.

Lemma civil_era (days : Z) :
  let z := days + 719468 in
  time.civil days
  = let '(y, m, d) := time.civil (z mod 146097 - 719468) in
    (y + z / 146097 * 400, m, d).
Proof.
  intros z. unfold time.civil. fold z.
  replace (z mod 146097 - 719468 + 719468) with (z mod 146097) by lia.
  rewrite Z.mod_mod by lia.
  rewrite (Z.div_small (z mod 146097) 146097) by (apply Z.mod_pos_bound; lia).
  cbv zeta. f_equal. f_equal. lia.
Qed.

Lemma civil_range (days : Z) :
  -719528 <= days <= 2932896 ->
  let '(y, m, d) := time.civil days in
  0 <= y < 10000 /\ 0 <= m < 100 /\ 0 <= d < 100.
Proof.
  intros Hdays. rewrite civil_era.
  set (z := days + 719468).
  assert (Hdoe : 0 <= z mod 146097 < 146097) by (apply Z.mod_pos_bound; lia).
  pose proof (civilInEra_all _ Hdoe) as Hcheck. unfold civilInEra in Hcheck.
  destruct (time.civil (z mod 146097 - 719468)) as [[y m] d].
  repeat (apply andb_true_iff in Hcheck as [Hcheck ?]).
  assert (Hzdef : z = days + 719468) by done.
  assert (Hera : -1 <= z / 146097 < 25).
  { split; [apply Z.div_le_lower_bound|apply Z.div_lt_upper_bound]; lia. }
  assert (Hz : z = 146097 * (z / 146097) + z mod 146097) by (apply Z.div_mod; lia).
  repeat match goal with
         | H : (_ || _) = true |- _ => apply orb_true_iff in H
         | H : (_ <=? _) = true |- _ => apply Z.leb_le in H
         | H : (_ <? _) = true |- _ => apply Z.ltb_lt in H
         | H : (_ =? _) = true |- _ => apply Z.eqb_eq in H
         end.
  lia.
Qed.

(** The timestamps of the years 0000 to 9999 have the shape that RFC 3339
    gives them. *)
Lemma formatRFC3339_shape (t : time.Time) :
  fourDigitYear t -> isRFC3339 (time.formatRFC3339 t) = true.
Proof.
  intros [Hsecs Hzone]. unfold time.formatRFC3339.
  set (secs := time.unixNano t / time.Second + time.zoneOffset t) in *.
  assert (Hsod : 0 <= secs mod 86400 < 86400) by (apply Z.mod_pos_bound; lia).
  assert (Hdays : -719528 <= secs / 86400 <= 2932896).
  { assert (-719528 <= secs / 86400 < 2932897); [|lia].
    split; [apply Z.div_le_lower_bound|apply Z.div_lt_upper_bound]; lia. }
  pose proof (civil_range _ Hdays) as Hcivil.
  destruct (time.civil (secs / 86400)) as [[y m] d].
  destruct Hcivil as (Hy & Hm & Hd).
  set (sod := secs mod 86400) in *.
  assert (Hh : 0 <= sod / 3600 < 100).
  { split; [apply Z.div_pos|apply Z.div_lt_upper_bound]; lia. }
  assert (Hmi : 0 <= sod mod 3600 / 60 < 100).
  { pose proof (Z.mod_pos_bound sod 3600).
    split; [apply Z.div_pos|apply Z.div_lt_upper_bound]; lia. }
  assert (Hs : 0 <= sod mod 60 < 100) by (pose proof (Z.mod_pos_bound sod 60); lia).
  pose proof (appendInt_four y Hy) as Ey.
  pose proof (appendInt_two m Hm) as Em.
  pose proof (appendInt_two d Hd) as Ed.
  pose proof (appendInt_two _ Hh) as Eh.
  pose proof (appendInt_two _ Hmi) as Emi.
  pose proof (appendInt_two _ Hs) as Es.
  assert (Ez : time.zoneSuffix (time.zoneOffset t) = "Z"
               \/ exists c s1 s2,
                    time.zoneSuffix (time.zoneOffset t)
                    = String c (s1 +:+ ":" +:+ s2)
                    /\ sign c = true /\ twoDigits s1 = true /\ twoDigits s2 = true).
  { unfold time.zoneSuffix.
    destruct (time.zoneOffset t =? 0); [by left|right].
    set (a := Z.abs (Z.quot (time.zoneOffset t) 60)).
    assert (Ha : 0 <= a < 6000).
    { subst a. rewrite <- (Z.quot_abs _ 60) by lia. change (Z.abs 60) with 60.
      rewrite Z.quot_div_nonneg by lia.
      split; [apply Z.div_pos|apply Z.div_lt_upper_bound]; lia. }
    assert (Ha1 : 0 <= a / 60 < 100).
    { split; [apply Z.div_pos|apply Z.div_lt_upper_bound]; lia. }
    assert (Ha2 : 0 <= a mod 60 < 100) by (pose proof (Z.mod_pos_bound a 60); lia).
    destruct (Z.quot (time.zoneOffset t) 60 <? 0);
      eexists _, _, _; (split; [reflexivity|]);
      (split; [reflexivity|]); split; by apply appendInt_two. }
  apply fourDigits_inv in Ey as (y1 & y2 & y3 & y4 & -> & ? & ? & ? & ?).
  apply twoDigits_inv in Em as (m1 & m2 & -> & ? & ?).
  apply twoDigits_inv in Ed as (d1 & d2 & -> & ? & ?).
  apply twoDigits_inv in Eh as (h1 & h2 & -> & ? & ?).
  apply twoDigits_inv in Emi as (i1 & i2 & -> & ? & ?).
  apply twoDigits_inv in Es as (s1 & s2 & -> & ? & ?).
  destruct Ez as [->|(c & z1 & z2 & -> & Hc & Hz1 & Hz2)].
  - unfold isRFC3339.
    cbv [String.append after lit Ascii.eqb Bool.eqb].
    repeat match goal with
           | H : digit _ = true |- _ => rewrite H; clear H
           end.
    done.
  - apply twoDigits_inv in Hz1 as (a1 & a2 & -> & ? & ?).
    apply twoDigits_inv in Hz2 as (b1 & b2 & -> & ? & ?).
    unfold isRFC3339.
    cbv [String.append after lit Ascii.eqb Bool.eqb].
    repeat match goal with
           | H : digit _ = true |- _ => rewrite H; clear H
           end.
    rewrite Hc. apply orb_true_r.
Qed.

(** ** Recording an error *)

Lemma parse_timestamp_prefix (format : string) :
  fmt.parse fmt.MText ("%s: " +:+ format)
  = (fun ds => fmt.DVerb None "s" :: fmt.DLit ":" :: fmt.DLit " " :: ds)
      <$> fmt.parse fmt.MText format.
Proof.
  change ("%s: " +:+ format)
    with (String "%" (String "s" (String ":" (String " " format)))).
  simpl. by destruct (fmt.parse fmt.MText format).
Qed.

Lemma render_shift lib ds :
  forallb sequentialDirective ds = true ->
  forall x a n r,
    fmt.render lib ds (x :: a) (S n) r = fmt.render lib ds a n r.
Proof.
  induction ds as [|d ds IH]; intros Hseq x a n r.
  - simpl. done.
  - simpl in Hseq. apply andb_true_iff in Hseq as [Hd Hds].
    destruct d as [c| |[i|] v| |text need]; simpl in *; try done;
      rewrite ?IH by done; done.
Qed.

Lemma render_sequential_is_Some lib ds :
  forallb sequentialDirective ds = true ->
  forall a n r, is_Some (fmt.render lib ds a n r).
Proof.
  induction ds as [|d ds IH]; intros Hseq a n r.
  - simpl. eauto.
  - simpl in Hseq. apply andb_true_iff in Hseq as [Hd Hds].
    destruct d as [c| |[i|] v| |text need]; simpl in *; try done;
      try solve [destruct (IH Hds a n r) as [out ->]; simpl; eauto].
    + destruct (a !! n).
      * destruct (IH Hds a (S n) r) as [out ->]; simpl; eauto.
      * destruct (IH Hds a n r) as [out ->]; simpl; eauto.
    + destruct (IH Hds a (n + length (take need (drop n a)))%nat r) as [out ->].
      simpl; eauto.
Qed.

(** With its operands taken in order, a format prefixed with [%s: ] prints
    the first operand, a colon and a space, and then what the format alone
    prints from the other operands. *)
Lemma Sprintf_timestamp_prefix lib (format : string) (ts : string) (args : list any) :
  sequential format = true ->
  fmt.Sprintf lib ("%s: " +:+ format) (AnyString ts :: args)
  = ts +:+ ": " +:+ fmt.Sprintf lib format args.
Proof.
  unfold sequential, fmt.Sprintf. rewrite parse_timestamp_prefix.
  destruct (fmt.parse fmt.MText format) as [ds|]; [|done]. intros Hseq.
  simpl. rewrite render_shift by done.
  destruct (render_sequential_is_Some lib ds Hseq args 0%nat false) as [out ->].
  simpl. done.
Qed.

(** A format without a [[] has no operand index: from every place but
    the inside of an index, [fmt.parse] reads it to its end and finds
    directives that take their operands in order. *)
Lemma parse_bracketFree (format : string) :
  bracketFree format = true ->
  forall md,
    match md with fmt.MIndex _ | fmt.MAfterIndex _ => False | _ => True end ->
    exists ds,
      fmt.parse md format = Some ds /\ forallb sequentialDirective ds = true.
Proof.
  induction format as [|c rest IH]; intros Hfree md Hmd.
  - destruct md; simpl; try done; eauto.
  - simpl in Hfree. apply andb_true_iff in Hfree as [Hc Hrest].
    apply negb_true_iff in Hc.
    assert (Hlit : forall d,
               sequentialDirective d = true ->
               exists ds, cons d <$> fmt.parse fmt.MText rest = Some ds
                          /\ forallb sequentialDirective ds = true).
    { intros d Hd. destruct (IH Hrest fmt.MText I) as (ds & -> & Hds).
      exists (d :: ds). simpl. by rewrite Hd, Hds. }
    assert (Hgo : forall ph text stars,
               exists ds, fmt.parse (fmt.MSpec ph text stars) rest = Some ds
                          /\ forallb sequentialDirective ds = true).
    { intros ph text stars. by apply IH. }
    destruct md as [| |num|n|ph text stars]; try done; simpl; rewrite ?Hc.
    + destruct (Ascii.eqb c "%"); [by apply IH|by apply Hlit].
    + destruct (Ascii.eqb c "%"); [by apply Hlit|].
      destruct (fmt.isVerb c); [by apply Hlit|].
      unfold fmt.step. rewrite Hc.
      repeat match goal with
             | |- context [if ?b then _ else _] => destruct b
             end;
        try apply Hgo; destruct (fmt.runeLen c rest) as [|[|k]];
        (apply Hgo || by apply Hlit).
    + destruct ph as [|w| | |p| |[|[|k]]|]; unfold fmt.step; rewrite ?Hc;
        repeat match goal with
               | |- context [if ?b then _ else _] => destruct b
               end;
        try apply Hgo; try (by apply Hlit);
        destruct (fmt.runeLen c rest) as [|[|k']];
        (apply Hgo || by apply Hlit).
Qed.

Lemma bracketFree_sequential (format : string) :
  bracketFree format = true -> sequential format = true.
Proof.
  intros Hfree. unfold sequential.
  by destruct (parse_bracketFree format Hfree fmt.MText I) as (ds & -> & Hds).
Qed.

Section AddError.

Variable env : Env.

(** C5, as amended.  A call to [addError] reads the clock, prints the entry
    to the log output and appends it to the error log: the log grows by
    exactly one entry and its earlier entries stay as they were, whatever
    the format and the operands.  The entry is the format prefixed with
    [%s: ], printed with the RFC 3339 timestamp as first operand.  For a
    format none of whose directives has an operand index [[n]], whatever
    their flags, widths, precisions and verbs, this is the timestamp, a
    colon, a space and the formatted message; every format without a [[]
    is such a format.  The timestamp of a time in the years 0000 to 9999
    has the shape [dddd-dd-ddTdd:dd:dd] with its zone. *)
Theorem addError_appends (s : state) (format : string) (args : list any) (tr : Trace) :
  let now := env_Now env tr in
  let stamp := time.formatRFC3339 now in
  exists entry s',
    addError env s format args tr = Some (s', tr ++ [EvNow now; EvLog entry])
    /\ errors s' = errors s ++ [entry]
    /\ length (errors s') = S (length (errors s))
    /\ (forall i e, errors s !! i = Some e -> errors s' !! i = Some e)
    /\ lastActivityTime s' = lastActivityTime s
    /\ entry = Sprintf env ("%s: " +:+ format) (AnyString stamp :: args)
    /\ (sequential format = true ->
        entry = stamp +:+ ": " +:+ Sprintf env format args)
    /\ (bracketFree format = true ->
        entry = stamp +:+ ": " +:+ Sprintf env format args)
    /\ (fourDigitYear now -> isRFC3339 stamp = true).
Proof.
  intros now stamp.
  exists (Sprintf env ("%s: " +:+ format) (AnyString stamp :: args)).
  eexists. split.
  - unfold addError, bind, time_Now, log_Print. rewrite !call_eq. fold now stamp.
    replace (if (0 <? length args)%nat then [AnyString stamp] ++ args else [AnyString stamp])
      with (AnyString stamp :: args) by (by destruct args).
    unfold ret. rewrite <- app_assoc. reflexivity.
  - simpl. repeat split; try done.
    + rewrite length_app. simpl. lia.
    + intros i e Hi. by apply lookup_app_l_Some.
    + intros Hseq. by apply Sprintf_timestamp_prefix.
    + intros Hfree. by apply Sprintf_timestamp_prefix, bracketFree_sequential.
    + apply formatRFC3339_shape.
Qed.

End AddError.

(** The claim of C5 as the specification words it fails for a format with
    an explicit operand index: operand 1 is then the timestamp, not the
    caller's first operand. *)
Lemma addError_indexed_format :
  let env := Simulated.env [] None None in
  exists s' tr',
    addError env (mkState time.zero []) "%[1]s" [AnyString "x"] [] = Some (s', tr')
    /\ errors s' = ["1970-01-01T00:00:00Z: 1970-01-01T00:00:00Z"]
    /\ time.formatRFC3339 (env_Now env []) = "1970-01-01T00:00:00Z"
    /\ Sprintf env "%[1]s" [AnyString "x"] = "x"
    /\ errors s'
       <> [time.formatRFC3339 (env_Now env []) +:+ ": "
            +:+ Sprintf env "%[1]s" [AnyString "x"]].
Proof.
  intros env. eexists _, _.
  split; [vm_compute; reflexivity|]. split; [reflexivity|].
  split; [reflexivity|]. split; [reflexivity|].
  vm_compute. discriminate.
Qed.

(** ** Connecting *)

Section Connect.

Variable env : Env.

Lemma joinChannels_spec (chs : list string) : forall tr,
  exists r ext,
    joinChannels env chs tr = Some (r, tr ++ ext)
    /\ match r with
       | None => ext = joined chs
       | Some err =>
           exists chs1 ch chs2 e,
             chs = chs1 ++ ch :: chs2
             /\ ext = joined chs1 ++ [EvJoin ch (Some e)]
             /\ err = fmt.Errorf (env_lib env) "error joining channel: %s: %s"
                        [AnyString ch; AnyError e]
       end.
Proof.
  induction chs as [|ch chs IH]; intros tr.
  - exists None, []. simpl. by rewrite app_nil_r.
  - simpl. unfold bind at 1. unfold c_Join at 1. rewrite call_eq.
    destruct (env_Join env tr ch) as [e|] eqn:Hjoin.
    + eexists (Some _), _. split; [reflexivity|].
      by exists [], ch, chs, e.
    + destruct (IH (tr ++ [EvJoin ch None])) as (r & ext & Hrun & Hr).
      exists r, (EvJoin ch None :: ext). split.
      * rewrite Hrun. by rewrite <- app_assoc.
      * destruct r as [err|].
        -- destruct Hr as (chs1 & ch' & chs2 & e & -> & -> & ->).
           by exists (ch :: chs1), ch', chs2, e.
        -- by subst ext.
Qed.

Lemma undecided_decisive (m : irc.Message) :
  decisive (inl m) = false <-> undecided m.
Proof.
  unfold decisive, undecided. rewrite orb_false_iff, !String.eqb_neq. done.
Qed.

(** The registration loop: when it returns, it has read and passed over
    some messages and then met a failure, an [ERROR] or the welcome reply;
    it runs out of fuel only when every read so far was passed over. *)
Lemma awaitWelcome_spec (conf : Config) (fuel : nat) : forall tr,
  match awaitWelcome env fuel conf tr with
  | Some (r, tr') =>
      exists ms tail,
        tr' = tr ++ readsOf ms ++ tail
        /\ Forall undecided ms
        /\ (length ms < fuel)%nat
        /\ registrationEnd (env_lib env) conf r tail
  | None =>
      forall n, (n < fuel)%nat ->
        decisive (env_ReadMessage env (afterReads env n tr)) = false
  end.
Proof.
  induction fuel as [|fuel IH]; intros tr.
  - simpl. intros n Hn. lia.
  - simpl. unfold bind at 1. unfold c_ReadMessage at 1. rewrite call_eq.
    destruct (env_ReadMessage env tr) as [m|err] eqn:Hread.
    + destruct (String.eqb (irc.Command m) irc.ReplyWelcome) eqn:Hwelcome.
      { apply String.eqb_eq in Hwelcome.
        unfold bind, c_SetRegistered. rewrite call_eq.
        destruct (joinChannels_spec (Channels conf)
                    ((tr ++ [EvReadMessage (inl m)]) ++ [EvSetRegistered]))
          as (r & ext & Hrun & Hr).
        rewrite Hrun.
        exists [], ([EvReadMessage (inl m); EvSetRegistered] ++ ext).
        split; [by rewrite <- !app_assoc|]. split; [done|]. split; [simpl; lia|].
        destruct r as [err|].
        - destruct Hr as (chs1 & ch & chs2 & e & Hchs & -> & ->).
          by apply (join_failed _ _ m chs1 ch chs2 e).
        - subst ext. by apply (registered_and_joined _ _ m). }
      destruct (String.eqb (irc.Command m) "ERROR") eqn:Herror.
      { apply String.eqb_eq in Herror.
        exists [], [EvReadMessage (inl m)]. split; [done|]. split; [done|].
        split; [simpl; lia|]. by apply (error_received _ _ m). }
      assert (Hm : undecided m).
      { apply undecided_decisive. simpl. by rewrite Hwelcome, Herror. }
      specialize (IH (tr ++ [EvReadMessage (inl m)])).
      destruct (awaitWelcome env fuel conf (tr ++ [EvReadMessage (inl m)]))
        as [[r tr']|].
      * destruct IH as (ms & tail & -> & Hms & Hlen & Hrun).
        exists (m :: ms), tail. split; [by rewrite <- app_assoc|].
        split; [by constructor|]. split; [simpl; lia|]. done.
      * intros [|n] Hn; simpl.
        -- rewrite Hread. apply undecided_decisive, Hm.
        -- rewrite Hread. apply IH. lia.
    + exists [], [EvReadMessage (inr err)]. split; [done|]. split; [done|].
      split; [simpl; lia|]. by apply read_failed.
Qed.

Lemma joinsOf_app tr1 tr2 : joinsOf (tr1 ++ tr2) = joinsOf tr1 ++ joinsOf tr2.
Proof. apply omap_app. Qed.

Lemma joinsOf_readsOf ms : joinsOf (readsOf ms) = [].
Proof. induction ms as [|m ms IH]; [done|]. exact IH. Qed.

Lemma joinsOf_joined chs : joinsOf (joined chs) = (fun ch => (ch, None)) <$> chs.
Proof.
  induction chs as [|ch chs IH]; [done|].
  unfold joinsOf, joined in *. csimpl. by rewrite IH.
Qed.

(** What the joins of a run of [connect] are: on success one for each
    configured channel, in order, each accepted; on failure the accepted
    joins of the channels before the one refused, and that refusal last. *)
Lemma connectRun_joins lib conf r ext :
  connectRun lib conf r ext ->
  match r with
  | None => joinsOf ext = (fun ch => (ch, None)) <$> Channels conf
  | Some _ =>
      joinsOf ext = []
      \/ exists chs1 ch chs2 e,
           Channels conf = chs1 ++ ch :: chs2
           /\ joinsOf ext = ((fun ch => (ch, None)) <$> chs1) ++ [(ch, Some e)]
  end.
Proof.
  destruct 1 as [| |ms r tail Hms Hend]; [by left|by left|].
  unfold registering. rewrite !joinsOf_app, joinsOf_readsOf. simpl.
  destruct Hend; rewrite ?joinsOf_app, ?joinsOf_joined; simpl; eauto.
  right. by exists chs1, ch, chs2, err.
Qed.

(** C3.  A run of [connect] that returns is one of the runs of
    [connectRun]: it returns no error only after the welcome reply, having
    marked the client registered and then issued one join for each
    configured channel, in the listed order, each accepted; it returns an
    error when the connection or the registration is refused, when a read
    fails, when an [ERROR] arrives, or at the first join that is refused,
    with no join after it.  It returns as soon as the server's answers
    include a failed read, the welcome reply or an [ERROR]. *)
Theorem connect_contract (conf : Config) (tr : Trace) :
  (forall fuel,
     match connect env fuel conf tr with
     | Some (r, tr') =>
         exists ext,
           tr' = tr ++ ext
           /\ connectRun (env_lib env) conf r ext
           /\ match r with
              | None => joinsOf ext = (fun ch => (ch, None)) <$> Channels conf
              | Some _ =>
                  joinsOf ext = []
                  \/ exists chs1 ch chs2 e,
                       Channels conf = chs1 ++ ch :: chs2
                       /\ joinsOf ext
                          = ((fun ch => (ch, None)) <$> chs1) ++ [(ch, Some e)]
              end
     | None =>
         forall n, (n < fuel)%nat ->
           decisive (env_ReadMessage env
                       (afterReads env n (tr ++ [EvConnect None; EvRegister None])))
           = false
     end)
  /\ (forall n fuel,
        decisive (env_ReadMessage env
                    (afterReads env n (tr ++ [EvConnect None; EvRegister None])))
        = true ->
        (n < fuel)%nat ->
        exists r tr', connect env fuel conf tr = Some (r, tr')).
Proof.
  assert (Hmain : forall fuel,
    match connect env fuel conf tr with
    | Some (r, tr') =>
        exists ext, tr' = tr ++ ext /\ connectRun (env_lib env) conf r ext
    | None =>
        forall n, (n < fuel)%nat ->
          decisive (env_ReadMessage env
                      (afterReads env n (tr ++ [EvConnect None; EvRegister None])))
          = false
    end).
  { intros fuel. unfold connect, bind, c_Connect, c_Register. rewrite call_eq.
    destruct (env_Connect env tr) as [err|] eqn:Hc.
    { exists [EvConnect (Some err)]. split; [done|]. constructor. }
    rewrite call_eq.
    destruct (env_Register env (tr ++ [EvConnect None])) as [err|] eqn:Hr.
    { exists [EvConnect None; EvRegister (Some err)].
      split; [by rewrite <- app_assoc|]. constructor. }
    pose proof (awaitWelcome_spec conf fuel
                  ((tr ++ [EvConnect None]) ++ [EvRegister None])) as Hloop.
    rewrite <- app_assoc in *. simpl in *.
    destruct (awaitWelcome env fuel conf (tr ++ [EvConnect None; EvRegister None]))
      as [[r tr']|]; [|done].
    destruct Hloop as (ms & tail & -> & Hms & Hlen & Hrun).
    exists (registering ms ++ tail). split; [|by constructor].
    unfold registering. by rewrite <- !app_assoc. }
  split.
  - intros fuel. specialize (Hmain fuel).
    destruct (connect env fuel conf tr) as [[r tr']|]; [|done].
    destruct Hmain as (ext & -> & Hrun). exists ext.
    split; [done|]. split; [done|]. by eapply connectRun_joins.
  - intros n fuel Hdec Hn. specialize (Hmain fuel).
    destruct (connect env fuel conf tr) as [[r tr']|]; [by eauto|].
    rewrite Hmain in Hdec by done. done.
Qed.

(** A [connect] that returns has called [Connect] first. *)
Lemma connect_starts (fuel : nat) (conf : Config) (tr tr' : Trace) (r : option error) :
  connect env fuel conf tr = Some (r, tr') ->
  exists rest, tr' = tr ++ EvConnect (env_Connect env tr) :: rest.
Proof.
  unfold connect, bind at 1, c_Connect, call.
  destruct (env_Connect env tr) as [err|].
  - intros Hrun. injection Hrun as _ <-. by exists [].
  - unfold bind at 1, c_Register, call.
    destruct (env_Register env _) as [err|].
    + intros Hrun. injection Hrun as _ <-. rewrite <- app_assoc. by eexists.
    + intros Hrun.
      pose proof (awaitWelcome_spec conf fuel
                    ((tr ++ [EvConnect None]) ++ [EvRegister None])) as Hloop.
      rewrite Hrun in Hloop. destruct Hloop as (ms & tail & -> & _).
      rewrite <- !app_assoc. by eexists.
Qed.

End Connect.

(** ** The session loop *)

Lemma closedLast_app (tr1 tr2 : Trace) : forall closed,
  closedLast closed (tr1 ++ tr2) = closedLast (closedLast closed tr1) tr2.
Proof.
  induction tr1 as [|ev tr1 IH]; intros closed; [done|].
  destruct ev; simpl; apply IH.
Qed.

(** The simulated client keeps to [reportsClosed]. *)
Lemma Simulated_connected_closed (tr : Trace) : forall closed up,
  (closed = true -> up = false) ->
  closedLast closed tr = true ->
  Simulated.connected up tr = false.
Proof.
  induction tr as [|ev tr IH]; intros closed up Hup; simpl.
  - exact Hup.
  - destruct ev as [| | | |[err|]| | | | | | |]; try (by apply IH);
      apply IH; done.
Qed.

Lemma Simulated_reportsClosed script failJoin failMessage :
  reportsClosed (Simulated.env script failJoin failMessage).
Proof. intros tr. by apply Simulated_connected_closed. Qed.

Lemma append_empty_r (x : string) : x +:+ "" = x.
Proof.
  induction x as [|c x IH]; [done|].
  change (String c x +:+ "") with (String c (x +:+ "")). by f_equal.
Qed.

Section Loop.

Variable env : Env.

(** The entry that [addError] makes of one of the program's formats, which
    end in a single [%s]. *)
Ltac entry_text :=
  unfold Sprintf; rewrite Sprintf_timestamp_prefix by reflexivity;
  unfold fmt.Sprintf; simpl; rewrite ?append_empty_r.

(** Unfold the calls of one pass of the loop and bring the traces to the
    form [tr ++ [e1; ...; en]]. *)
Ltac step_calls :=
  unfold iteration, addError, shouldGiveUp, bind, ret, time_Sleep, time_Now, log_Print,
    c_IsConnected, c_ReadMessage, c_Pong, c_Close, call;
  repeat (rewrite <- ?app_assoc; simpl).

(** C7.  With the connection up, a message whose command is [ERROR] is
    recorded in the error log and the connection is closed; a message whose
    command is neither [ERROR] nor [PING] changes nothing but the activity
    time of the read that brought it: nothing is recorded, nothing is sent
    and the connection is not closed.  In both cases the loop goes on with
    its next pass. *)
Theorem error_and_other_commands (fuel : nat) (conf : Config) (s : state)
    (tr : Trace) (m : irc.Message) :
  env_IsConnected env (tr ++ [EvSleep time.Second]) = true ->
  env_ReadMessage env (tr ++ [EvSleep time.Second; EvIsConnected true]) = inl m ->
  let tr1 := tr ++ [EvSleep time.Second; EvIsConnected true; EvReadMessage (inl m)] in
  let t1 := env_Now env tr1 in
  let t2 := env_Now env (tr1 ++ [EvNow t1]) in
  let entry :=
    time.formatRFC3339 t2 +:+ ": got ERROR: " +:+ MessageString (env_lib env) m in
  let closed := env_Close env (tr1 ++ [EvNow t1; EvNow t2; EvLog entry]) in
  (irc.Command m = "ERROR" ->
     iteration env fuel conf s tr
     = Some (mkState t1 (errors s ++ [entry]),
             tr1 ++ [EvNow t1; EvNow t2; EvLog entry; EvClose closed])
     /\ forall n,
          iterations env (S n) fuel conf s tr
          = iterations env n fuel conf (mkState t1 (errors s ++ [entry]))
              (tr1 ++ [EvNow t1; EvNow t2; EvLog entry; EvClose closed]))
  /\ (irc.Command m <> "ERROR" -> irc.Command m <> "PING" ->
       iteration env fuel conf s tr = Some (mkState t1 (errors s), tr1 ++ [EvNow t1])
       /\ forall n,
            iterations env (S n) fuel conf s tr
            = iterations env n fuel conf (mkState t1 (errors s)) (tr1 ++ [EvNow t1])).
Proof.
  intros Hup Hread tr1 t1 t2 entry closed.
  split.
  - intros Hcmd.
    assert (Hit : iteration env fuel conf s tr
                  = Some (mkState t1 (errors s ++ [entry]),
                          tr1 ++ [EvNow t1; EvNow t2; EvLog entry; EvClose closed])).
    { step_calls. rewrite Hup. simpl. step_calls. rewrite Hread. simpl.
      rewrite Hcmd. simpl. step_calls. subst tr1 t1 t2 entry closed.
      repeat (rewrite <- ?app_assoc; simpl). entry_text. reflexivity. }
    split; [done|]. intros n. simpl. unfold bind. by rewrite Hit.
  - intros Hnot_error Hnot_ping.
    assert (Hit : iteration env fuel conf s tr
                  = Some (mkState t1 (errors s), tr1 ++ [EvNow t1])).
    { step_calls. rewrite Hup. simpl. step_calls. rewrite Hread. simpl.
      apply String.eqb_neq in Hnot_error, Hnot_ping.
      rewrite Hnot_error, Hnot_ping. simpl. subst tr1 t1.
      repeat (rewrite <- ?app_assoc; simpl). reflexivity. }
    split; [done|]. intros n. simpl. unfold bind. by rewrite Hit.
Qed.

(** C4.  When the read of a pass fails, the error is recorded and the clock
    is read for the give-up decision.  If the error is [io.EOF] the
    connection is closed whatever [lastActivityTime] is; any other error
    closes it exactly when more than the wait period has gone by since
    [lastActivityTime].  Where the pass has closed the connection, and with
    a client that answers [IsConnected] with false once it has been closed,
    the next pass finds the client disconnected and runs [connect], which
    calls [Connect] first. *)
Theorem eof_forces_close (fuel : nat) (conf : Config) (s : state) (tr : Trace)
    (err : error) :
  env_IsConnected env (tr ++ [EvSleep time.Second]) = true ->
  env_ReadMessage env (tr ++ [EvSleep time.Second; EvIsConnected true]) = inr err ->
  let tr1 := tr ++ [EvSleep time.Second; EvIsConnected true; EvReadMessage (inr err)] in
  let t1 := env_Now env tr1 in
  let entry := time.formatRFC3339 t1 +:+ ": error reading: " +:+ Error err in
  let tr2 := tr1 ++ [EvNow t1; EvLog entry] in
  let t2 := env_Now env tr2 in
  let elapsed := time.unixNano t2 - time.unixNano (lastActivityTime s) in
  let s' := mkState (lastActivityTime s) (errors s ++ [entry]) in
  let closes := (waitPeriod <? time.Sub t2 (lastActivityTime s)) || is_EOF err in
  let tr3 :=
    tr2 ++ EvNow t2
        :: (if closes then [EvClose (env_Close env (tr2 ++ [EvNow t2]))] else []) in
  iteration env fuel conf s tr = Some (s', tr3)
  /\ (err = io_EOF -> closes = true)
  /\ (err <> io_EOF -> (closes = true <-> waitPeriod < elapsed))
  /\ (closes = true ->
      reportsClosed env ->
      env_IsConnected env (tr3 ++ [EvSleep time.Second]) = false
      /\ let tr4 := tr3 ++ [EvSleep time.Second; EvIsConnected false] in
         match connect env fuel conf tr4 with
         | Some (r, tr5) =>
             exists s'' calls rest,
               tr5 = tr4 ++ EvConnect (env_Connect env tr4) :: calls
               /\ iteration env fuel conf s' tr3 = Some (s'', tr5 ++ rest)
         | None => iteration env fuel conf s' tr3 = None
         end).
Proof.
  intros Hup Hread tr1 t1 entry tr2 t2 elapsed s' closes tr3.
  split; [|split; [|split]].
  - step_calls. rewrite Hup. simpl. step_calls. rewrite Hread. simpl.
    subst tr3 closes s' elapsed t2 tr2 entry t1 tr1. entry_text.
    repeat (rewrite <- ?app_assoc; simpl).
    destruct (_ || _); repeat (rewrite <- ?app_assoc; simpl); reflexivity.
  - intros ->. apply orb_true_r.
  - intros Hne. subst closes. destruct err; [done|]. simpl. rewrite orb_false_r.
    apply Sub_exceeds_waitPeriod.
  - intros Hcl Hclient.
    assert (Hdown : env_IsConnected env (tr3 ++ [EvSleep time.Second]) = false).
    { apply Hclient. subst tr3. rewrite Hcl.
      rewrite !closedLast_app. reflexivity. }
    split; [exact Hdown|]. intros tr4.
    unfold iteration, bind, time_Sleep, c_IsConnected, call.
    rewrite Hdown. simpl. rewrite <- app_assoc. simpl. fold tr4.
    destruct (connect env fuel conf tr4) as [[r tr5]|] eqn:Hconnect; [|done].
    destruct (connect_starts env _ _ _ _ _ Hconnect) as [calls Hcalls].
    destruct r as [e|].
    + unfold addError, bind, ret, time_Now, log_Print, c_Close, call.
      eexists _, calls, _. split; [exact Hcalls|].
      rewrite <- !app_assoc. reflexivity.
    + unfold bind, ret, time_Now, call. eexists _, calls, _.
      split; [exact Hcalls|]. reflexivity.
Qed.

(** C6.  A pass of the loop returns, unless the client is down and
    [connect] does not return.  What [lastActivityTime] is after it: when the
    client is down: the reading of the clock that follows a [connect] that
    succeeds, and the former value when [connect] fails.  When it is up: the
    former value when the read fails; the reading that follows the read when
    it succeeds and nothing more succeeds after it (another command than
    [PING], or a [Pong] that fails); the reading that follows the [Pong]
    when it succeeds and no delivery does; and otherwise the reading that
    follows the last delivery of the flush that succeeds.  A delivery that
    fails sets nothing.  The give-up decision depends on the state through
    [lastActivityTime] alone. *)
Theorem lastActivityTime_updates (fuel : nat) (conf : Config) (s : state) (tr : Trace) :
  let up := env_IsConnected env (tr ++ [EvSleep time.Second]) in
  let tr1 := tr ++ [EvSleep time.Second; EvIsConnected up] in
  match iteration env fuel conf s tr with
  | Some (s', tr') =>
      if up then
        match env_ReadMessage env tr1 with
        | inr _ => lastActivityTime s' = lastActivityTime s
        | inl m =>
            let tr2 := tr1 ++ [EvReadMessage (inl m)] in
            let t1 := env_Now env tr2 in
            if String.eqb (irc.Command m) "PING" then
              match env_Pong env (tr2 ++ [EvNow t1]) m with
              | Some _ => lastActivityTime s' = t1
              | None =>
                  let tr3 := tr2 ++ [EvNow t1; EvPong m None] in
                  let t2 := env_Now env tr3 in
                  exists ds ts rest,
                    tr' = tr3 ++ [EvNow t2] ++ delivered ds ts ++ rest
                    /\ length ts = length ds
                    /\ (rest = []
                        \/ exists ch e err rest',
                             rest = EvMessage ch e (Some err) :: rest'
                             /\ attempts rest' = [])
                    /\ lastActivityTime s' = default t2 (last ts)
              end
            else lastActivityTime s' = t1
        end
      else
        match connect env fuel conf tr1 with
        | Some (None, tr2) => lastActivityTime s' = env_Now env tr2
        | _ => lastActivityTime s' = lastActivityTime s
        end
  | None => up = false /\ connect env fuel conf tr1 = None
  end
  /\ (forall s1 s2 tr0,
        lastActivityTime s1 = lastActivityTime s2 ->
        shouldGiveUp env s1 tr0 = shouldGiveUp env s2 tr0).
Proof.
  intros up tr1. split; [|by intros s1 s2 tr0 Heq; unfold shouldGiveUp; rewrite Heq].
  destruct (iteration env fuel conf s tr) as [[s' tr']|] eqn:Hrun.
  - subst tr1. revert Hrun.
    unfold iteration, bind at 1 2, time_Sleep, c_IsConnected, call.
    fold up. rewrite <- app_assoc. simpl app.
    destruct up; simpl negb; cbv iota.
    + step_calls.
      destruct (env_ReadMessage env _) as [m|err] eqn:Hread; simpl.
      * repeat (rewrite <- ?app_assoc; simpl).
        destruct (String.eqb (irc.Command m) "ERROR") eqn:Herror.
        { apply String.eqb_eq in Herror. rewrite Herror. simpl.
          intros Hrun. by simplify_eq. }
        destruct (String.eqb (irc.Command m) "PING") eqn:Hping; simpl;
          [|by intros Hrun; simplify_eq].
        destruct (env_Pong env _ m) as [err|] eqn:Hpong; simpl.
        { repeat (rewrite <- ?app_assoc; simpl).
          intros Hrun. destruct (_ <? _); by simplify_eq. }
        repeat (rewrite <- ?app_assoc; simpl).
        match goal with
        | |- context [sendMessages env conf ?st ?t] =>
            destruct (sendMessages_spec env conf st t)
              as (ds & ts & s0 & r & tail & Hflush & Hlen & Hlast & Hclear & Hout)
        end.
        rewrite Hflush. simpl in Hlast.
        destruct r as [err|].
        -- destruct Hout as (chs1 & ch & chs2 & k & e & Hchs & He & -> & -> & Hd).
           repeat (rewrite <- ?app_assoc; simpl).
           intros Hrun. simpl in *.
           destruct (_ <? _); simplify_eq;
             (exists (deliveries chs1 (errors s) ++ (pair ch <$> take k (errors s))), ts;
              eexists; split;
              [simpl; repeat (rewrite <- ?app_assoc; simpl); reflexivity|];
              split; [done|]; split; [|done];
              right; eexists _, _, _, _; split; [reflexivity|done]).
        -- destruct Hout as [-> ->]. intros Hrun. simplify_eq.
           eexists _, ts, []. split; [|split; [done|split; [by left|done]]].
           simpl. repeat (rewrite <- ?app_assoc; simpl). reflexivity.
      * repeat (rewrite <- ?app_assoc; simpl).
        intros Hrun. destruct (_ || _); by simplify_eq.
    + simpl. unfold bind at 1.
      destruct (connect env fuel conf _) as [[[err|] tr2]|]; [| |done].
      * unfold addError, bind, ret, time_Now, log_Print, c_Close, call.
        intros Hrun. by simplify_eq.
      * unfold bind, ret, time_Now, call. intros Hrun. by simplify_eq.
  - subst tr1. revert Hrun.
    unfold iteration, bind at 1 2, time_Sleep, c_IsConnected, call.
    fold up. rewrite <- app_assoc. simpl app.
    destruct up; simpl negb; cbv iota.
    + step_calls.
      destruct (env_ReadMessage env _) as [m|err]; simpl.
      * destruct (String.eqb (irc.Command m) "ERROR"); [done|].
        destruct (String.eqb (irc.Command m) "PING"); simpl; [|done].
        destruct (env_Pong env _ m) as [err|]; simpl.
        { by destruct (_ <? _). }
        repeat (rewrite <- ?app_assoc; simpl).
        match goal with
        | |- context [sendMessages env conf ?st ?t] =>
            destruct (sendMessages_spec env conf st t)
              as (ds & ts & s0 & r & tail & Hflush & _)
        end.
        rewrite Hflush. destruct r as [err|]; [|done].
        by destruct (_ <? _).
      * by destruct (_ || _).
    + simpl. unfold bind at 1.
      destruct (connect env fuel conf _) as [[[err|] tr2]|]; [done|done|].
      intros _. done.
Qed.

End Loop.

Lemma error_and_other_commands_witness :
  let env := Simulated.env [inl Sample.closing] None None in
  let s := mkState time.zero [] in
  let tr := [EvConnect None] in
  env_IsConnected env (tr ++ [EvSleep time.Second]) = true
  /\ env_ReadMessage env (tr ++ [EvSleep time.Second; EvIsConnected true])
     = inl Sample.closing
  /\ iteration env 0 Sample.conf s tr
     = Some (mkState (time.mkTime 4000000000 0)
               ["1970-01-01T00:00:05Z: got ERROR: ERROR"],
             [EvConnect None; EvSleep time.Second; EvIsConnected true;
              EvReadMessage (inl Sample.closing);
              EvNow (time.mkTime 4000000000 0);
              EvNow (time.mkTime 5000000000 0);
              EvLog "1970-01-01T00:00:05Z: got ERROR: ERROR";
              EvClose None]).
Proof.
  intros env s tr. split; [reflexivity|]. split; [reflexivity|].
  exact (proj1 (proj1 (error_and_other_commands env 0 Sample.conf s tr
                         Sample.closing eq_refl eq_refl) eq_refl)).
Defined.

Lemma eof_forces_close_witness :
  let env := Simulated.env [] None None in
  let s := mkState (time.mkTime 3000000000 0) [] in
  let tr := [EvConnect None] in
  let entry := "1970-01-01T00:00:04Z: error reading: EOF" in
  let tr3 :=
    [EvConnect None; EvSleep time.Second; EvIsConnected true;
     EvReadMessage (inr io_EOF); EvNow (time.mkTime 4000000000 0); EvLog entry;
     EvNow (time.mkTime 6000000000 0); EvClose None] in
  env_IsConnected env (tr ++ [EvSleep time.Second]) = true
  /\ env_ReadMessage env (tr ++ [EvSleep time.Second; EvIsConnected true])
     = inr io_EOF
  /\ iteration env 1 Sample.conf s tr
     = Some (mkState (time.mkTime 3000000000 0) [entry], tr3)
  /\ env_IsConnected env (tr3 ++ [EvSleep time.Second]) = false
  /\ exists s'' calls rest,
       iteration env 1 Sample.conf (mkState (time.mkTime 3000000000 0) [entry]) tr3
       = Some (s'', (tr3 ++ [EvSleep time.Second; EvIsConnected false])
                      ++ EvConnect None :: calls ++ rest).
Proof.
  intros env s tr entry tr3. split; [reflexivity|]. split; [reflexivity|].
  destruct (eof_forces_close env 1 Sample.conf s tr io_EOF eq_refl eq_refl)
    as (Hrun & Hcloses & _ & Hnext).
  split; [exact Hrun|].
  destruct (Hnext (Hcloses eq_refl) (Simulated_reportsClosed _ _ _)) as [Hdown Hpass].
  split; [exact Hdown|].
  cbv zeta in Hpass.
  destruct (connect env 1 Sample.conf _) as [[r tr5]|] eqn:Hconnect in Hpass;
    [|by vm_compute in Hconnect].
  destruct Hpass as (s'' & calls & rest & -> & Hpass).
  exists s'', calls, rest. vm_compute in Hpass |- *. exact Hpass.
Defined.

Lemma lastActivityTime_updates_witness :
  let env := Simulated.env [inl Sample.ping] None (Some 1%nat) in
  let s := mkState Sample.epoch ["e0"; "e1"] in
  let tr := [EvConnect None] in
  exists s' tr',
    iteration env 0 Sample.conf s tr = Some (s', tr')
    /\ lastActivityTime s' = time.mkTime 8000000000 0
    /\ (exists ds ts rest,
          tr' = ([EvConnect None; EvSleep time.Second; EvIsConnected true;
                  EvReadMessage (inl Sample.ping)]
                 ++ [EvNow (time.mkTime 4000000000 0); EvPong Sample.ping None])
                ++ [EvNow (time.mkTime 6000000000 0)] ++ delivered ds ts ++ rest
          /\ length ts = length ds
          /\ (rest = []
              \/ exists ch e err rest',
                   rest = EvMessage ch e (Some err) :: rest' /\ attempts rest' = [])
          /\ lastActivityTime s' = default (time.mkTime 6000000000 0) (last ts)).
Proof.
  intros env s tr. eexists _, _. split; [vm_compute; reflexivity|].
  split; [reflexivity|].
  exact (proj1 (lastActivityTime_updates env 0 Sample.conf s tr)).
Defined.

(** ** Reading the configuration *)

Lemma append_assoc (a b c : string) : (a +:+ b) +:+ c = a +:+ (b +:+ c).
Proof.
  induction a as [|x a IH]; [done|].
  change (String x (((a +:+ b) +:+ c)) = String x (a +:+ (b +:+ c))). by f_equal.
Qed.

Lemma Split_not_nil (s : string) (sep : ascii) : strings.Split s sep <> [].
Proof.
  destruct s as [|c s]; simpl; [done|].
  destruct (Ascii.eqb c sep); [done|]. by destruct (strings.Split s sep).
Qed.

Lemma Split_append (a b : string) (sep : ascii) :
  strings.Split (a +:+ String sep b) sep = strings.Split a sep ++ strings.Split b sep.
Proof.
  induction a as [|c a IH].
  - change (strings.Split (String sep b) sep = [EmptyString] ++ strings.Split b sep).
    simpl. by rewrite Ascii.eqb_refl.
  - change (strings.Split (String c (a +:+ String sep b)) sep
            = strings.Split (String c a) sep ++ strings.Split b sep).
    simpl. destruct (Ascii.eqb c sep); [by rewrite IH|].
    rewrite IH. pose proof (Split_not_nil a sep).
    by destruct (strings.Split a sep).
Qed.

(** A string without the separator is one piece. *)
Lemma Split_one (s : string) (sep : ascii) :
  strings.cut s sep = None -> strings.Split s sep = [s].
Proof.
  induction s as [|c s IH]; simpl; [done|].
  destruct (Ascii.eqb c sep); [done|].
  destruct (strings.cut s sep) as [[? ?]|]; [done|]. intros _. by rewrite IH.
Qed.

Lemma rawLines_append (a b : string) :
  bufio.rawLines (a +:+ String bufio.newline b)
  = strings.Split a bufio.newline ++ bufio.rawLines b.
Proof.
  unfold bufio.rawLines. rewrite Split_append.
  pose proof (Split_not_nil b bufio.newline) as Hb.
  destruct (strings.Split b bufio.newline) as [|p ps _] using rev_ind; [done|].
  rewrite app_assoc, !last_snoc.
  destruct p; rewrite ?removelast_last, <- ?app_assoc; done.
Qed.

(** Lines put before a text that starts on a line of its own. *)
Lemma rawLines_lines (pre rest : string) :
  pre = EmptyString \/ (exists p, pre = p +:+ eol) ->
  bufio.rawLines (pre +:+ rest) = bufio.rawLines pre ++ bufio.rawLines rest.
Proof.
  intros [->|[p ->]]; [done|].
  unfold eol. rewrite append_assoc.
  change (String bufio.newline "" +:+ rest) with (String bufio.newline rest).
  rewrite !rawLines_append. by rewrite app_nil_r.
Qed.

Lemma scan_fits (lines : list string) :
  Forall (fun line => bufio.tooLong line = false) lines ->
  bufio.scan lines = (bufio.dropCR <$> lines, None).
Proof.
  induction 1 as [|line lines Hline _ IH]; [done|].
  simpl. by rewrite Hline, IH.
Qed.

Lemma scan_no_error (lines texts : list string) :
  bufio.scan lines = (texts, None) ->
  Forall (fun line => bufio.tooLong line = false) lines
  /\ texts = bufio.dropCR <$> lines.
Proof.
  revert texts. induction lines as [|line lines IH]; intros texts; simpl.
  - intros. by simplify_eq.
  - destruct (bufio.tooLong line) eqn:Hlong; [done|].
    destruct (bufio.scan lines) as [tokens err]. intros. simplify_eq.
    destruct (IH tokens eq_refl) as [Hfit ->]. split; [by constructor|done].
Qed.

Lemma omap_lineEntry_dropCR (lines : list string) :
  omap lineEntry (bufio.dropCR <$> lines)
  = omap (fun line => lineEntry (bufio.dropCR line)) lines.
Proof.
  induction lines as [|line lines IH]; [done|]. csimpl.
  rewrite IH. done.
Qed.

Lemma valueOf_elem (es : list (string * string)) (k v : string) :
  NoDup es.*1 -> (k, v) ∈ es -> valueOf k es = v.
Proof.
  induction es as [|[k' v'] es IH]; intros Hnodup Hin; [by apply elem_of_nil in Hin|].
  csimpl in Hnodup. apply NoDup_cons in Hnodup as [Hk' Hnodup].
  apply elem_of_cons in Hin as [Heq|Hin]; simpl.
  - simplify_eq. by rewrite String.eqb_refl.
  - destruct (String.eqb k' k) eqn:Heq; [|by apply IH].
    apply String.eqb_eq in Heq. subst k'. destruct Hk'.
    apply list_elem_of_fmap. by exists (k, v).
Qed.

Lemma valueOf_missing (es : list (string * string)) (k : string) :
  k ∉ es.*1 -> valueOf k es = EmptyString.
Proof.
  induction es as [|[k' v'] es IH]; intros Hk; [done|]. csimpl in Hk.
  apply not_elem_of_cons in Hk as [Hne Hk]. simpl.
  destruct (String.eqb k' k) eqn:Heq; [|by apply IH].
  apply String.eqb_eq in Heq. by subst.
Qed.

Section ConfigProperties.

Variable lib : Lib.

Lemma readLines_cons (text : string) (rest : list string) (m : gmap string string) :
  readLines lib (text :: rest) m
  = match classify text with
    | Skipped => readLines lib rest m
    | Malformed =>
        inr (fmt.Errorf lib "malformed line: %s" [AnyString (strings.TrimSpace text)])
    | Entry k v =>
        if String.eqb k EmptyString then
          inr (fmt.Errorf lib "key is blank: %s" [AnyString (strings.TrimSpace text)])
        else
          match m !! k with
          | Some _ => inr (fmt.Errorf lib "duplicate key: %s" [AnyString k])
          | None => readLines lib rest (<[k := v]> m)
          end
    end.
Proof.
  unfold classify. cbn [readLines].
  destruct (strings.TrimSpace text) as [|c trimmed]; [done|].
  destruct (Ascii.eqb c "#"); [done|].
  unfold strings.SplitN2.
  by destruct (strings.cut (String c trimmed) "=") as [[before after]|].
Qed.

(** A scanning loop that comes through has met no key twice, and its map
    holds the entries it met on top of the map it started from. *)
Lemma readLines_inl (texts : list string) : forall m0 m,
  readLines lib texts m0 = inl m ->
  let es := omap lineEntry texts in
  NoDup es.*1
  /\ (forall k, k ∈ es.*1 -> m0 !! k = None)
  /\ (forall k v, (k, v) ∈ es -> m !! k = Some v)
  /\ (forall k, k ∉ es.*1 -> m !! k = m0 !! k).
Proof.
  induction texts as [|text texts IH]; intros m0 m Hrun.
  - simpl in *. simplify_eq. repeat split.
    + constructor.
    + intros k Hk. by apply elem_of_nil in Hk.
    + intros k v Hk. by apply elem_of_nil in Hk.
  - rewrite readLines_cons in Hrun. cbv zeta. csimpl.
    assert (Hentry : lineEntry text
                     = match classify text with
                       | Entry k v => Some (k, v)
                       | _ => None
                       end) by done.
    rewrite Hentry. clear Hentry.
    destruct (classify text) as [|k v|]; [by apply IH| |done].
    destruct (String.eqb k EmptyString); [done|].
    destruct (m0 !! k) eqn:Hk; [done|].
    destruct (IH _ _ Hrun) as (Hnodup & Hfresh & Hin & Hout).
    assert (Hnew : k ∉ (omap lineEntry texts).*1).
    { intros Hmem. apply Hfresh in Hmem. by rewrite lookup_insert_eq in Hmem. }
    csimpl. repeat split.
    + by apply NoDup_cons.
    + intros k' [->|Hk']%elem_of_cons; [done|].
      specialize (Hfresh k' Hk').
      destruct (decide (k = k')) as [->|Hne]; [done|].
      by rewrite lookup_insert_ne in Hfresh.
    + intros k' v' [Heq|Hk']%elem_of_cons; [|by apply Hin].
      simplify_eq. rewrite Hout by done. apply lookup_insert_eq.
    + intros k' [Hne Hk']%not_elem_of_cons.
      rewrite Hout by done. by apply lookup_insert_ne.
Qed.

Lemma readLines_index (texts : list string) (m : gmap string string) (k : string) :
  readLines lib texts ∅ = inl m ->
  index m k = valueOf k (omap lineEntry texts).
Proof.
  intros Hrun. destruct (readLines_inl texts ∅ m Hrun) as (Hnodup & _ & Hin & Hout).
  unfold index.
  destruct (decide (k ∈ (omap lineEntry texts).*1)) as [Hk|Hk].
  - apply list_elem_of_fmap in Hk as ([k' v] & -> & Hkv). simpl.
    rewrite (Hin _ _ Hkv). simpl. symmetry. by apply valueOf_elem.
  - rewrite Hout, valueOf_missing by done. by rewrite lookup_empty.
Qed.

Lemma readChannels_inl (pieces : list string) : forall acc chs,
  readChannels lib pieces acc = inl chs ->
  chs = acc ++ channelNames pieces /\ Forall hashed (channelNames pieces).
Proof.
  induction pieces as [|c pieces IH]; intros acc chs Hrun.
  - simpl in Hrun. simplify_eq. split; [by rewrite app_nil_r|constructor].
  - cbn [readChannels] in Hrun. unfold channelNames. csimpl.
    destruct (strings.TrimSpace c) as [|c0 rest] eqn:Htrim; [by apply IH|].
    destruct (Ascii.eqb c0 "#") eqn:Hhash; [|done]. simpl in Hrun.
    apply Ascii.eqb_eq in Hhash. subst c0.
    destruct (IH _ _ Hrun) as [-> Hall]. split.
    + by rewrite <- app_assoc.
    + constructor; [by exists rest|done].
Qed.

Lemma omap_lineEntry_cons (text : string) (texts : list string) :
  omap lineEntry (text :: texts)
  = match classify text with
    | Entry k v => (k, v) :: omap lineEntry texts
    | _ => omap lineEntry texts
    end.
Proof. csimpl. unfold lineEntry at 1. by destruct (classify text). Qed.

(** An entry put into the starting map stays on top of a scanning loop that
    does not meet its key. *)
Lemma readLines_frame (texts : list string) : forall m0 m k v,
  readLines lib texts m0 = inl m ->
  k ∉ (omap lineEntry texts).*1 ->
  readLines lib texts (<[k := v]> m0) = inl (<[k := v]> m).
Proof.
  induction texts as [|text texts IH]; intros m0 m k v Hrun Hk.
  - simpl in *. by simplify_eq.
  - rewrite readLines_cons in *. rewrite omap_lineEntry_cons in Hk.
    destruct (classify text) as [|k' v'|]; [by apply IH| |done].
    destruct (String.eqb k' EmptyString); [done|].
    csimpl in Hk. apply not_elem_of_cons in Hk as [Hne Hk].
    destruct (m0 !! k') eqn:Hk'; [done|].
    rewrite lookup_insert_ne, Hk' by done.
    rewrite insert_insert_ne by done. by apply IH.
Qed.

(** One more entry with a key of its own, anywhere among the lines, adds
    its key to the map and changes nothing else. *)
Lemma readLines_insert_line (before : list string) : forall after text m0 m k v,
  classify text = Entry k v ->
  k <> EmptyString ->
  k ∉ (omap lineEntry (before ++ after)).*1 ->
  m0 !! k = None ->
  readLines lib (before ++ after) m0 = inl m ->
  readLines lib (before ++ text :: after) m0 = inl (<[k := v]> m).
Proof.
  induction before as [|b before IH]; intros after text m0 m k v Hentry Hkey Hk Hm0 Hrun.
  - simpl app in *. rewrite readLines_cons, Hentry.
    apply String.eqb_neq in Hkey. rewrite Hkey, Hm0. by apply readLines_frame.
  - simpl app in *. rewrite readLines_cons in *. rewrite omap_lineEntry_cons in Hk.
    destruct (classify b) as [|k' v'|]; [by apply IH| |done].
    destruct (String.eqb k' EmptyString); [done|].
    csimpl in Hk. apply not_elem_of_cons in Hk as [Hne Hk].
    destruct (m0 !! k') eqn:Hk'; [done|].
    apply IH; try done. by rewrite lookup_insert_ne.
Qed.

Lemma index_insert_ne (m : gmap string string) (k v key : string) :
  k <> key -> index (<[k := v]> m) key = index m key.
Proof. intros Hne. unfold index. by rewrite lookup_insert_ne. Qed.

Variable ReadFile : string -> string + error.

(** What a configuration that [parseConfig] accepts says of its file. *)
Lemma parseConfig_inl (path : string) (conf : Config) :
  parseConfig lib ReadFile path = inl conf ->
  exists buf,
    ReadFile path = inl buf
    /\ Forall (fun line => bufio.tooLong line = false) (bufio.rawLines buf)
    /\ NoDup (entries buf).*1
    /\ Channels conf
       = channelNames (strings.Split (valueOf "channels" (entries buf)) ",")
    /\ Forall hashed (Channels conf)
    /\ Channels conf <> []
    /\ Nick conf = valueOf "nick" (entries buf)
    /\ Nick conf <> EmptyString
    /\ ServerHost conf = valueOf "server-host" (entries buf)
    /\ ServerHost conf <> EmptyString
    /\ strconv.ParseInt lib (valueOf "server-port" (entries buf))
       = inl (ServerPort conf).
Proof.
  unfold parseConfig.
  destruct (ReadFile path) as [buf|err]; [|done].
  unfold bufio.Scanner.
  destruct (bufio.scan (bufio.rawLines buf)) as [texts scanErr] eqn:Hscan.
  destruct (readLines lib texts ∅) as [m|err] eqn:Hlines; [|done].
  destruct scanErr as [err|]; [done|].
  apply scan_no_error in Hscan as [Hfit ->].
  pose proof (fun k => readLines_index _ _ k Hlines) as Hindex.
  apply readLines_inl in Hlines as (Hnodup & _).
  rewrite omap_lineEntry_dropCR in Hnodup, Hindex. fold (entries buf) in Hnodup, Hindex.
  rewrite !Hindex.
  destruct (readChannels lib _ []) as [channels|err] eqn:Hchannels; [|done].
  apply readChannels_inl in Hchannels as [-> Hhashed]. simpl.
  destruct (length _ =? 0)%nat eqn:Hlen; [done|].
  destruct (String.eqb (valueOf "nick" _) EmptyString) eqn:Hnick; [done|].
  destruct (String.eqb (valueOf "server-host" _) EmptyString) eqn:Hhost; [done|].
  destruct (strconv.ParseInt lib _) as [p|err] eqn:Hport; [|done].
  intros Hconf. simplify_eq. exists buf. simpl.
  apply String.eqb_neq in Hnick, Hhost. apply Nat.eqb_neq in Hlen.
  repeat split; try done.
  intros Hnil. by rewrite Hnil in Hlen.
Qed.

(** C8.  Of a file that can be read: the sample file with two channels
    gives the configuration with those channels in the listed order, and an
    accepted file always gives its channels in the listed order; the file is
    rejected when two of its entries have the same key, when it has no
    [nick] or an empty one, when a channel name does not start with [#],
    when it names no channel, when it has no [server-host] or an empty one,
    and when its [server-port] is missing or is no integer for
    [strconv.ParseInt]. *)
Theorem parseConfig_accepts_and_rejects (path buf : string) :
  ReadFile path = inl buf ->
  let es := entries buf in
  let rejected := exists err, parseConfig lib ReadFile path = inr err in
  (buf = Sample.file ->
     parseConfig lib ReadFile path
     = inl (mkConfig ["#a"; "#b"] "bot" "irc.example.com" 6667))
  /\ (forall conf,
        parseConfig lib ReadFile path = inl conf ->
        Channels conf = channelNames (strings.Split (valueOf "channels" es) ","))
  /\ (forall i j k,
        i <> j -> es.*1 !! i = Some k -> es.*1 !! j = Some k -> rejected)
  /\ ("nick" ∉ es.*1 \/ ("nick", EmptyString) ∈ es -> rejected)
  /\ (forall v c c0 rest,
        ("channels", v) ∈ es -> c ∈ strings.Split v "," ->
        strings.TrimSpace c = String c0 rest -> c0 <> "#"%char -> rejected)
  /\ ("channels" ∉ es.*1
      \/ (exists v, ("channels", v) ∈ es
                    /\ forall c, c ∈ strings.Split v "," ->
                                 strings.TrimSpace c = EmptyString) ->
      rejected)
  /\ ("server-host" ∉ es.*1 \/ ("server-host", EmptyString) ∈ es -> rejected)
  /\ ("server-port" ∉ es.*1
      \/ (exists v err, ("server-port", v) ∈ es /\ strconv.ParseInt lib v = inr err) ->
      rejected).
Proof.
  intros Hfile es rejected.
  assert (Hinv : forall conf,
             parseConfig lib ReadFile path = inl conf ->
             NoDup es.*1
             /\ Channels conf = channelNames (strings.Split (valueOf "channels" es) ",")
             /\ Forall hashed (Channels conf)
             /\ Channels conf <> []
             /\ valueOf "nick" es <> EmptyString
             /\ valueOf "server-host" es <> EmptyString
             /\ strconv.ParseInt lib (valueOf "server-port" es) = inl (ServerPort conf)).
  { intros conf Hconf.
    destruct (parseConfig_inl path conf Hconf)
      as (buf' & Hbuf & _ & Hnodup & Hchs & Hhashed & Hsome & Hnick & Hnick'
          & Hhost & Hhost' & Hport).
    rewrite Hfile in Hbuf. simplify_eq. fold es in Hnodup, Hchs, Hnick, Hhost, Hport.
    rewrite <- Hnick, <- Hhost. done. }
  assert (Hrej : (forall conf, parseConfig lib ReadFile path = inl conf -> False) ->
                 rejected).
  { intros Hno. unfold rejected.
    destruct (parseConfig lib ReadFile path) as [conf|err]; [|by eauto].
    by destruct (Hno conf). }
  split; [|split; [|split; [|split; [|split; [|split; [|split]]]]]].
  - intros ->. unfold parseConfig. rewrite Hfile. vm_compute. reflexivity.
  - intros conf Hconf. by destruct (Hinv conf Hconf) as (_ & -> & _).
  - intros i j k Hij Hi Hj. apply Hrej. intros conf Hconf.
    destruct (Hinv conf Hconf) as (Hnodup & _).
    apply Hij. by eapply NoDup_lookup.
  - intros Hnick. apply Hrej. intros conf Hconf.
    destruct (Hinv conf Hconf) as (Hnodup & _ & _ & _ & Hne & _).
    apply Hne. destruct Hnick as [Hmissing|Hempty].
    + by apply valueOf_missing.
    + by apply valueOf_elem.
  - intros v c c0 rest Hv Hc Htrim Hc0. apply Hrej. intros conf Hconf.
    destruct (Hinv conf Hconf) as (Hnodup & Hchs & Hhashed & _).
    rewrite (valueOf_elem es "channels" v Hnodup Hv) in Hchs.
    rewrite Hchs in Hhashed. rewrite Forall_forall in Hhashed.
    destruct (Hhashed (String c0 rest)) as [rest' Heq]; [|by simplify_eq].
    unfold channelNames. apply list_elem_of_omap. exists c. by rewrite Htrim.
  - intros Hnone. apply Hrej. intros conf Hconf.
    destruct (Hinv conf Hconf) as (Hnodup & Hchs & _ & Hsome & _).
    apply Hsome. rewrite Hchs. destruct Hnone as [Hmissing|(v & Hv & Hblank)].
    + by rewrite valueOf_missing.
    + rewrite (valueOf_elem es "channels" v Hnodup Hv).
      unfold channelNames.
      induction (strings.Split v ",") as [|c cs IH]; [done|]. csimpl.
      rewrite (Hblank c) by apply list_elem_of_here.
      apply IH. intros c' Hc'. apply Hblank. by apply list_elem_of_further.
  - intros Hhost. apply Hrej. intros conf Hconf.
    destruct (Hinv conf Hconf) as (Hnodup & _ & _ & _ & _ & Hne & _).
    apply Hne. destruct Hhost as [Hmissing|Hempty].
    + by apply valueOf_missing.
    + by apply valueOf_elem.
  - intros Hport. apply Hrej. intros conf Hconf.
    destruct (Hinv conf Hconf) as (Hnodup & _ & _ & _ & _ & _ & Hok).
    destruct Hport as [Hmissing|(v & err & Hv & Herr)].
    + rewrite valueOf_missing in Hok by done. done.
    + rewrite (valueOf_elem es "server-port" v Hnodup Hv), Herr in Hok. done.
Qed.

End ConfigProperties.

Section UnknownKeys.

Variable lib : Lib.

(** C10, as amended.  A line [key=value] on its own, short enough for the
    scanner, whose key is none of the four that [parseConfig] knows and is
    not a key of the file already, can be put between the lines of a file
    that [parseConfig] accepts: the file is still accepted, with the same
    configuration. *)
Theorem parseConfig_ignores_new_key (fs fs' : string -> string + error)
    (path pre line post k v : string) (conf : Config) :
  fs path = inl (pre +:+ post) ->
  fs' path = inl (pre +:+ line +:+ eol +:+ post) ->
  pre = EmptyString \/ (exists p, pre = p +:+ eol) ->
  strings.cut line bufio.newline = None ->
  bufio.tooLong line = false ->
  lineEntry (bufio.dropCR line) = Some (k, v) ->
  k <> EmptyString ->
  k ∉ recognized ->
  k ∉ (entries (pre +:+ post)).*1 ->
  parseConfig lib fs path = inl conf ->
  parseConfig lib fs' path = inl conf.
Proof.
  intros Hfs Hfs' Hpre Hline Hfit Hentry Hkey Hnew Hfresh.
  unfold entries in Hfresh. unfold parseConfig, bufio.Scanner.
  rewrite Hfs, Hfs'.
  rewrite rawLines_lines in * by done. rewrite (rawLines_lines pre) by done.
  change (line +:+ eol +:+ post) with (line +:+ String bufio.newline post).
  rewrite rawLines_append, (Split_one _ _ Hline).
  set (l1 := bufio.rawLines pre) in *. set (l2 := bufio.rawLines post) in *.
  destruct (bufio.scan (l1 ++ l2)) as [texts scanErr] eqn:Hscan.
  destruct (readLines lib texts ∅) as [m|err] eqn:Hlines; [|done].
  destruct scanErr as [err|]; [done|].
  apply scan_no_error in Hscan as [Hfits ->].
  apply Forall_app in Hfits as [Hfits1 Hfits2].
  rewrite (scan_fits (l1 ++ [line] ++ l2))
    by (apply Forall_app; split; [done|by constructor]).
  rewrite <- omap_lineEntry_dropCR in Hfresh.
  rewrite !fmap_app in *.
  change (bufio.dropCR <$> [line]) with [bufio.dropCR line]. simpl app.
  assert (Hclass : classify (bufio.dropCR line) = Entry k v).
  { unfold lineEntry in Hentry. by destruct (classify (bufio.dropCR line)); simplify_eq. }
  rewrite (readLines_insert_line lib _ _ _ ∅ m k v Hclass Hkey Hfresh (lookup_empty _) Hlines).
  unfold recognized in Hnew.
  rewrite !index_insert_ne; [done|..];
    intros ->; apply Hnew; repeat (first [apply list_elem_of_here|apply list_elem_of_further]).
Qed.

End UnknownKeys.

(** The claim of C10 as it is worded fails when the added line repeats a key
    that the file has already, be it one [parseConfig] does not know. *)
Lemma parseConfig_repeated_unknown_key :
  let line := "motd=hello" in
  let pre := "motd=hi" +:+ eol in
  let without := Sample.disk "umbled.conf" (pre +:+ Sample.file) in
  let with_line := Sample.disk "umbled.conf" (pre +:+ line +:+ eol +:+ Sample.file) in
  lineEntry line = Some ("motd", "hello")
  /\ ~ ("motd" ∈ recognized)
  /\ parseConfig Simulated.lib without "umbled.conf"
     = inl (mkConfig ["#a"; "#b"] "bot" "irc.example.com" 6667)
  /\ parseConfig Simulated.lib with_line "umbled.conf"
     = inr (errorString "duplicate key: motd").
Proof.
  intros line pre without with_line.
  split; [reflexivity|]. split; [|split; vm_compute; reflexivity].
  unfold recognized. intros Hin.
  repeat (apply elem_of_cons in Hin as [Hin|Hin]; [done|]).
  by apply elem_of_nil in Hin.
Qed.

Lemma parseConfig_accepts_and_rejects_witness :
  let fs := Sample.disk "umbled.conf" Sample.file in
  let twice := Sample.disk "umbled.conf" ("nick=bot" +:+ eol +:+ Sample.file) in
  fs "umbled.conf" = inl Sample.file
  /\ parseConfig Simulated.lib fs "umbled.conf"
     = inl (mkConfig ["#a"; "#b"] "bot" "irc.example.com" 6667)
  /\ exists err, parseConfig Simulated.lib twice "umbled.conf" = inr err.
Proof.
  intros fs twice. split; [reflexivity|]. split.
  - exact (proj1 (parseConfig_accepts_and_rejects Simulated.lib fs "umbled.conf"
                    Sample.file eq_refl) eq_refl).
  - exact (proj1 (proj2 (proj2 (parseConfig_accepts_and_rejects Simulated.lib twice
                                  "umbled.conf" _ eq_refl)))
             0%nat 2%nat "nick" ltac:(discriminate) eq_refl eq_refl).
Defined.

Lemma parseConfig_ignores_new_key_witness :
  let pre := "# umbled" +:+ eol in
  let line := "motd = hello" in
  let fs := Sample.disk "umbled.conf" (pre +:+ Sample.file) in
  let fs' := Sample.disk "umbled.conf" (pre +:+ line +:+ eol +:+ Sample.file) in
  lineEntry (bufio.dropCR line) = Some ("motd", "hello")
  /\ parseConfig Simulated.lib fs "umbled.conf"
     = inl (mkConfig ["#a"; "#b"] "bot" "irc.example.com" 6667)
  /\ parseConfig Simulated.lib fs' "umbled.conf"
     = inl (mkConfig ["#a"; "#b"] "bot" "irc.example.com" 6667).
Proof.
  intros pre line fs fs'.
  assert (Hother : forall l : list string,
             forallb (fun k => negb (String.eqb "motd" k)) l = true -> "motd" ∉ l).
  { induction l as [|k l IH]; simpl; intros Hall Hin; [by apply elem_of_nil in Hin|].
    apply andb_true_iff in Hall as [Hk Hl].
    apply elem_of_cons in Hin as [<-|Hin]; [done|by apply IH]. }
  split; [reflexivity|]. split; [reflexivity|].
  apply (parseConfig_ignores_new_key Simulated.lib fs fs' "umbled.conf"
           pre line Sample.file "motd" "hello").
  - reflexivity.
  - reflexivity.
  - right. by exists "# umbled".
  - reflexivity.
  - reflexivity.
  - reflexivity.
  - discriminate.
  - apply Hother. reflexivity.
  - apply Hother. reflexivity.
  - reflexivity.
Defined.

Lemma connect_contract_witness :
  let env := Simulated.env [inl Sample.notice; inl Sample.welcome] None None in
  decisive (env_ReadMessage env
              (afterReads env 1 ([] ++ [EvConnect None; EvRegister None]))) = true
  /\ connect env 2 Sample.conf []
     = Some (None,
             [EvConnect None; EvRegister None;
              EvReadMessage (inl Sample.notice); EvReadMessage (inl Sample.welcome);
              EvSetRegistered; EvJoin "#a" None; EvJoin "#b" None])
  /\ exists r tr', connect env 2 Sample.conf [] = Some (r, tr').
Proof.
  intros env. split; [reflexivity|]. split; [reflexivity|].
  exact (proj2 (connect_contract env Sample.conf []) 1%nat 2%nat eq_refl
           ltac:(repeat constructor)).
Defined.

Lemma shouldGiveUp_iff_witness :
  let env := Simulated.env [] None None in
  let tr := repeat (EvLog "") 960 in
  let s := mkState Sample.epoch [] in
  time.unixNano (env_Now env tr) - time.unixNano (lastActivityTime s) = 16 * time.Minute
  /\ shouldGiveUp env s tr = Some (true, tr ++ [EvNow (env_Now env tr)]).
Proof.
  intros env tr s. split; [reflexivity|].
  destruct (shouldGiveUp_iff env s tr) as (b & Hrun & _ & _ & _ & Htrue & _).
  rewrite Hrun. rewrite (Htrue eq_refl). reflexivity.
Defined.

Lemma sendMessages_keeps_undelivered_witness :
  let env := Simulated.env [] None (Some 4%nat) in
  let s := mkState Sample.epoch ["e0"; "e1"; "e2"] in
  exists s' r ext,
    sendMessages env Sample.conf s [] = Some ((s', r), [] ++ ext)
    /\ r = Some (errorString "cannot send")
    /\ errors s' = ["e1"; "e2"]
    /\ attempts ext
       = [("#a", "e0", None); ("#a", "e1", None); ("#a", "e2", None);
          ("#b", "e0", None); ("#b", "e1", Some (errorString "cannot send"))].
Proof.
  intros env s.
  destruct (sendMessages_keeps_undelivered env Sample.conf s [])
    as (s' & r & ext & Hrun & _).
  exists s', r, ext. split; [exact Hrun|].
  vm_compute in Hrun. injection Hrun as <- <- <-.
  repeat split.
Defined.

Lemma addError_appends_witness :
  let env := Simulated.env [] None None in
  let s := mkState Sample.epoch ["earlier"] in
  (exists s',
     addError env s "some error: %s" [AnyError (errorString "something went wrong")] []
     = Some (s', [EvNow Sample.epoch;
                  EvLog "1970-01-01T00:00:00Z: some error: something went wrong"])
     /\ errors s' = ["earlier"; "1970-01-01T00:00:00Z: some error: something went wrong"]
     /\ isRFC3339 (time.formatRFC3339 (env_Now env [])) = true)
  /\ exists entry s',
       addError env s "try %2d: %s" [AnyOther "int"; AnyError (errorString "refused")] []
       = Some (s', [EvNow Sample.epoch; EvLog entry])
       /\ errors s' = ["earlier"; entry]
       /\ entry
          = "1970-01-01T00:00:00Z" +:+ ": "
            +:+ Sprintf env "try %2d: %s"
                  [AnyOther "int"; AnyError (errorString "refused")].
Proof.
  intros env s. split.
  - destruct (addError_appends env s "some error: %s"
                [AnyError (errorString "something went wrong")] [])
      as (entry & s' & Hrun & Herrors & _ & _ & _ & _ & Hshape & _ & Hstamp).
    exists s'. rewrite (Hshape eq_refl) in *.
    split; [exact Hrun|]. split; [exact Herrors|].
    apply Hstamp. repeat split; vm_compute; try reflexivity; discriminate.
  - destruct (addError_appends env s "try %2d: %s"
                [AnyOther "int"; AnyError (errorString "refused")] [])
      as (entry & s' & Hrun & Herrors & _ & _ & _ & _ & _ & Hfree & _).
    exists entry, s'. split; [exact Hrun|]. split; [exact Herrors|].
    exact (Hfree eq_refl).
Defined.

(** ** Which files are accepted *)

Section Acceptance.

Variable lib : Lib.

(** A scanning loop that comes through has passed every line. *)
Lemma readLines_lines_ok (texts : list string) : forall m0 m,
  readLines lib texts m0 = inl m ->
  Forall (fun text => lineOk text = true) texts.
Proof.
  induction texts as [|text texts IH]; intros m0 m Hrun; [constructor|].
  rewrite readLines_cons in Hrun. unfold lineOk at 1.
  destruct (classify text) as [|k v|] eqn:Hclass; [| |done].
  - constructor; [by rewrite Hclass|by eapply IH].
  - destruct (String.eqb k EmptyString) eqn:Hkey; [done|].
    destruct (m0 !! k); [done|].
    constructor; [by rewrite Hclass, Hkey|by eapply IH].
Qed.

(** The scanning loop comes through when every line passes and no key
    comes twice or is in the map already. *)
Lemma readLines_complete (texts : list string) : forall m0,
  Forall (fun text => lineOk text = true) texts ->
  NoDup (omap lineEntry texts).*1 ->
  (forall k, k ∈ (omap lineEntry texts).*1 -> m0 !! k = None) ->
  exists m, readLines lib texts m0 = inl m.
Proof.
  induction texts as [|text texts IH]; intros m0 Hok Hnodup Hfresh.
  - by exists m0.
  - apply Forall_cons in Hok as [Hline Hok].
    rewrite readLines_cons. rewrite omap_lineEntry_cons in Hnodup, Hfresh.
    unfold lineOk in Hline.
    destruct (classify text) as [|k v|]; [by apply IH| |done].
    apply negb_true_iff in Hline. rewrite Hline.
    csimpl in Hnodup. csimpl in Hfresh.
    apply NoDup_cons in Hnodup as [Hk Hnodup].
    rewrite (Hfresh k) by apply list_elem_of_here.
    apply IH; [done|done|]. intros k' Hk'.
    rewrite lookup_insert_ne by (by intros ->).
    apply Hfresh. by apply list_elem_of_further.
Qed.

Lemma readChannels_complete (pieces : list string) : forall acc,
  Forall hashed (channelNames pieces) ->
  readChannels lib pieces acc = inl (acc ++ channelNames pieces).
Proof.
  induction pieces as [|c pieces IH]; intros acc Hall.
  - simpl. by rewrite app_nil_r.
  - cbn [readChannels]. unfold channelNames in *. csimpl in *.
    destruct (strings.TrimSpace c) as [|c0 rest] eqn:Htrim; [by apply IH|].
    apply Forall_cons in Hall as [[rest' Hhash] Hall]. simplify_eq.
    simpl. rewrite IH by done. by rewrite <- app_assoc.
Qed.

Variable ReadFile : string -> string + error.

Lemma parseConfig_lines_ok (path buf : string) (conf : Config) :
  ReadFile path = inl buf ->
  parseConfig lib ReadFile path = inl conf ->
  Forall (fun line => lineOk (bufio.dropCR line) = true) (bufio.rawLines buf).
Proof.
  intros Hfile. unfold parseConfig, bufio.Scanner. rewrite Hfile.
  destruct (bufio.scan (bufio.rawLines buf)) as [texts scanErr] eqn:Hscan.
  destruct (readLines lib texts ∅) as [m|err] eqn:Hlines; [|done].
  destruct scanErr as [err|]; [done|]. intros _.
  apply scan_no_error in Hscan as [_ ->].
  apply readLines_lines_ok in Hlines.
  by apply Forall_fmap in Hlines.
Qed.

Lemma parseConfig_complete (path buf : string) (conf : Config) :
  ReadFile path = inl buf ->
  accepted lib buf conf ->
  parseConfig lib ReadFile path = inl conf.
Proof.
  intros Hfile (Hfits & Hok & Hnodup & Hchs & Hhashed & Hsome & Hnick & Hnick'
                & Hhost & Hhost' & Hport).
  unfold parseConfig, bufio.Scanner. rewrite Hfile, (scan_fits _ Hfits).
  unfold entries in *. rewrite <- omap_lineEntry_dropCR in *.
  destruct (readLines_complete (bufio.dropCR <$> bufio.rawLines buf) ∅) as [m Hlines].
  { by apply Forall_fmap. }
  { done. }
  { intros k _. apply lookup_empty. }
  rewrite Hlines. rewrite !(readLines_index lib _ _ _ Hlines).
  rewrite readChannels_complete by (by rewrite <- Hchs). simpl.
  rewrite <- Hchs, <- Hnick, <- Hhost, Hport.
  apply String.eqb_neq in Hnick', Hhost'. rewrite Hnick', Hhost'.
  destruct (Channels conf) eqn:Hc; [done|]. simpl. rewrite <- Hc.
  by destruct conf.
Qed.

(** X1.  [parseConfig] accepts a path exactly when the file can be read,
    every line is shorter than the scanner's limit and is blank, a comment
    or an entry with a key, no key comes twice, at least one channel is
    named and every channel name starts with [#], [nick] and [server-host]
    are not empty and [server-port] is an integer for [strconv.ParseInt];
    the configuration is then made of the values of these four keys.
    Nothing else makes it reject a file. *)
Theorem parseConfig_accepts_iff (path : string) (conf : Config) :
  parseConfig lib ReadFile path = inl conf
  <-> exists buf, ReadFile path = inl buf /\ accepted lib buf conf.
Proof.
  split.
  - intros Hrun. destruct (parseConfig_inl _ _ _ _ Hrun) as (buf & Hfile & Hfits & Hrest).
    exists buf. split; [done|]. split; [done|]. split; [|done].
    by apply (parseConfig_lines_ok path buf conf).
  - intros (buf & Hfile & Hacc). by apply (parseConfig_complete path buf).
Qed.

(** X2.  Beyond the checks of the four keys, [parseConfig] rejects a path
    whose file cannot be read, with an error that names the path and the
    cause, and a file with a line of 64 KiB or more, with a line that is not
    blank, no comment and has no [=], or with an entry whose key is blank. *)
Theorem parseConfig_rejects_lines (path : string) :
  (forall err,
     ReadFile path = inr err ->
     parseConfig lib ReadFile path
     = inr (errorString ("error reading file: " +:+ path +:+ ": " +:+ Error err)))
  /\ (forall buf line,
        ReadFile path = inl buf ->
        line ∈ bufio.rawLines buf ->
        bufio.tooLong line = true
        \/ classify (bufio.dropCR line) = Malformed
        \/ (exists value, classify (bufio.dropCR line) = Entry EmptyString value) ->
        exists err, parseConfig lib ReadFile path = inr err).
Proof.
  split.
  - intros err Hfile. unfold parseConfig. rewrite Hfile.
    unfold fmt.Errorf, fmt.Sprintf. simpl. rewrite !append_empty_r. done.
  - intros buf line Hfile Hline Hbad.
    destruct (parseConfig lib ReadFile path) as [conf|err] eqn:Hrun; [|by exists err].
    pose proof (parseConfig_lines_ok _ _ _ Hfile Hrun) as Hok.
    destruct (parseConfig_inl _ _ _ _ Hrun) as (buf' & Hfile' & Hfits & _).
    rewrite Hfile in Hfile'. simplify_eq.
    rewrite Forall_forall in Hok, Hfits.
    specialize (Hok _ Hline). specialize (Hfits _ Hline). unfold lineOk in Hok.
    destruct Hbad as [Hlong|[Hmal|[value Hblank]]].
    + by rewrite Hlong in Hfits.
    + by rewrite Hmal in Hok.
    + by rewrite Hblank in Hok.
Qed.

End Acceptance.

Lemma valueOf_Permutation (es es' : list (string * string)) (k : string) :
  NoDup es.*1 -> es ≡ₚ es' -> valueOf k es = valueOf k es'.
Proof.
  intros Hnodup Hperm.
  assert (Hnodup' : NoDup es'.*1) by (by rewrite <- Hperm).
  destruct (decide (k ∈ es.*1)) as [Hk|Hk].
  - apply list_elem_of_fmap in Hk as ([k' v] & -> & Hkv). simpl.
    rewrite (valueOf_elem es k' v) by done.
    symmetry. apply valueOf_elem; [done|]. by rewrite <- Hperm.
  - rewrite (valueOf_missing es) by done.
    symmetry. apply valueOf_missing. by rewrite <- Hperm.
Qed.

Lemma scan_app (l1 l2 : list string) :
  bufio.scan (l1 ++ l2)
  = match bufio.scan l1 with
    | (t1, Some err) => (t1, Some err)
    | (t1, None) => let '(t2, err) := bufio.scan l2 in (t1 ++ t2, err)
    end.
Proof.
  induction l1 as [|line l1 IH]; simpl.
  - by destruct (bufio.scan l2).
  - destruct (bufio.tooLong line); [done|]. rewrite IH.
    destruct (bufio.scan l1) as [t1 [err|]]; [done|].
    by destruct (bufio.scan l2).
Qed.

Section Lines.

Variable lib : Lib.

(** A line that is blank or a comment, anywhere among the texts, is passed
    over. *)
Lemma readLines_skip (before : list string) : forall after text m,
  classify text = Skipped ->
  readLines lib (before ++ text :: after) m = readLines lib (before ++ after) m.
Proof.
  induction before as [|b before IH]; intros after text m Hskip.
  - simpl app. by rewrite readLines_cons, Hskip.
  - simpl app. rewrite !readLines_cons.
    destruct (classify b) as [|k v|]; [by apply IH| |done].
    destruct (String.eqb k EmptyString); [done|].
    destruct (m !! k); [done|]. by apply IH.
Qed.

(** X3.  The order of the lines of a file does not matter: a file whose
    lines are those of an accepted file in another order is accepted, with
    the same configuration. *)
Theorem parseConfig_order_irrelevant (fs fs' : string -> string + error)
    (path path' buf buf' : string) (conf : Config) :
  fs path = inl buf ->
  fs' path' = inl buf' ->
  bufio.rawLines buf' ≡ₚ bufio.rawLines buf ->
  parseConfig lib fs path = inl conf ->
  parseConfig lib fs' path' = inl conf.
Proof.
  intros Hfile Hfile' Hperm Hrun.
  pose proof (parseConfig_lines_ok lib fs _ _ _ Hfile Hrun) as Hok.
  destruct (parseConfig_inl _ _ _ _ Hrun)
    as (buf0 & Hfile0 & Hfits & Hnodup & Hchs & Hhashed & Hsome & Hnick & Hnick'
        & Hhost & Hhost' & Hport).
  rewrite Hfile in Hfile0. injection Hfile0 as <-.
  assert (Hes : entries buf ≡ₚ entries buf') by (unfold entries; by rewrite Hperm).
  apply (parseConfig_complete lib fs' path' buf'); [done|].
  unfold accepted.
  rewrite <- !(valueOf_Permutation _ _ _ Hnodup Hes), <- Hes, Hperm.
  done.
Qed.

(** X4.  A blank line or a comment, short enough for the scanner and put
    between the lines of a file, changes nothing: [parseConfig] returns the
    same configuration or the same error as without it. *)
Theorem parseConfig_skips_comments (fs fs' : string -> string + error)
    (path pre line post : string) :
  fs path = inl (pre +:+ post) ->
  fs' path = inl (pre +:+ line +:+ eol +:+ post) ->
  pre = EmptyString \/ (exists p, pre = p +:+ eol) ->
  strings.cut line bufio.newline = None ->
  bufio.tooLong line = false ->
  classify (bufio.dropCR line) = Skipped ->
  parseConfig lib fs' path = parseConfig lib fs path.
Proof.
  intros Hfs Hfs' Hpre Hline Hfit Hskip.
  unfold parseConfig, bufio.Scanner. rewrite Hfs, Hfs'.
  rewrite !(rawLines_lines pre) by done.
  change (line +:+ eol +:+ post) with (line +:+ String bufio.newline post).
  rewrite rawLines_append, (Split_one _ _ Hline).
  set (l1 := bufio.rawLines pre). set (l2 := bufio.rawLines post).
  rewrite !scan_app.
  destruct (bufio.scan l1) as [t1 [err|]]; [done|].
  simpl. rewrite Hfit.
  destruct (bufio.scan l2) as [t2 err2].
  by rewrite (readLines_skip t1 t2 _ ∅ Hskip).
Qed.

End Lines.

(** ** The passes of the loop *)

Section Passes.

Variable env : Env.

(** A run of [connect] that returns is one of the runs of [connectRun]. *)
Lemma connect_runs (fuel : nat) (conf : Config) (tr tr' : Trace) (r : option error) :
  connect env fuel conf tr = Some (r, tr') ->
  exists ext, tr' = tr ++ ext /\ connectRun (env_lib env) conf r ext.
Proof.
  unfold connect, bind at 1, c_Connect. rewrite call_eq.
  destruct (env_Connect env tr) as [err|] eqn:Hconnect.
  { intros Hrun. injection Hrun as <- <-. eexists. split; [done|]. constructor. }
  unfold bind at 1, c_Register. rewrite call_eq.
  destruct (env_Register env _) as [err|] eqn:Hregister.
  { intros Hrun. injection Hrun as <- <-.
    exists [EvConnect None; EvRegister (Some err)].
    split; [by rewrite <- app_assoc|]. constructor. }
  pose proof (awaitWelcome_spec env conf fuel
                ((tr ++ [EvConnect None]) ++ [EvRegister None])) as Hloop.
  intros Hrun. rewrite Hrun in Hloop.
  destruct Hloop as (ms & tail & -> & Hms & _ & Hend).
  exists (registering ms ++ tail). split.
  - unfold registering. by rewrite <- !app_assoc.
  - by constructor.
Qed.

Ltac entry_of :=
  unfold entryOf, describe, Sprintf;
  rewrite ?Sprintf_timestamp_prefix by reflexivity;
  unfold fmt.Sprintf; simpl; rewrite ?append_empty_r.

Ltac calls :=
  unfold iteration, addError, shouldGiveUp, bind, ret, time_Sleep, time_Now, log_Print,
    c_IsConnected, c_ReadMessage, c_Pong, c_Close, call;
  repeat (rewrite <- ?app_assoc; simpl).

(** What is left to show once a pass has returned. *)
Ltac landed :=
  let Hrun := fresh "Hrun" in
  intros Hrun; rewrite <- ?app_assoc in Hrun; injection Hrun as <- <-;
  eexists; split; [reflexivity|].

(** The text [addError] records for a format that ends in its one operand. *)
Lemma addError_entry (s : state) (f : failure) (format : string) (arg : any)
    (tr : Trace) :
  (forall ts, Sprintf env ("%s: " +:+ format) [AnyString ts; arg]
              = ts +:+ ": " +:+ describe (env_lib env) f) ->
  let t := env_Now env tr in
  let e := entryOf (env_lib env) t f in
  addError env s format [arg] tr
  = Some (set_errors (errors s ++ [e]) s, tr ++ [EvNow t; EvLog e]).
Proof.
  intros Htext t e. unfold addError, bind, ret, time_Now, log_Print, call.
  simpl. rewrite Htext, <- app_assoc. done.
Qed.

(** The give-up decision and the [Close] that may follow it. *)
Lemma giveUp_tail (s : state) (tr : Trace) :
  let t := env_Now env tr in
  (g <- shouldGiveUp env s;;
   (if g then c_Close env;;; ret tt else ret tt);;;
   ret s)%go tr
  = Some (s, tr ++ EvNow t :: closing (gaveUp t (lastActivityTime s))
                              (env_Close env (tr ++ [EvNow t]))).
Proof.
  unfold shouldGiveUp, bind, ret, time_Now, c_Close, call, closing, gaveUp. simpl.
  destruct (_ <? _); [|done]. by rewrite <- app_assoc.
Qed.

Lemma giveUp_or_EOF_tail (s : state) (err : error) (tr : Trace) :
  let t := env_Now env tr in
  (g <- shouldGiveUp env s;;
   (if g || is_EOF err then c_Close env;;; ret tt else ret tt);;;
   ret s)%go tr
  = Some (s, tr ++ EvNow t :: closing (gaveUp t (lastActivityTime s) || is_EOF err)
                              (env_Close env (tr ++ [EvNow t]))).
Proof.
  unfold shouldGiveUp, bind, ret, time_Now, c_Close, call, closing, gaveUp. simpl.
  destruct (_ || _); [|done]. by rewrite <- app_assoc.
Qed.

(** A pass of the loop that returns is one of the passes of [pass]. *)
Lemma iteration_pass (fuel : nat) (conf : Config) (s s' : state) (tr tr' : Trace) :
  iteration env fuel conf s tr = Some (s', tr') ->
  exists ext, tr' = tr ++ ext /\ pass (env_lib env) conf s s' ext.
Proof.
  unfold iteration, bind at 1 2, time_Sleep, c_IsConnected, call.
  rewrite <- app_assoc. simpl app.
  destruct (env_IsConnected env _) as [|] eqn:Hup; cbv beta iota delta [negb].
  - unfold bind at 1, c_ReadMessage. rewrite call_eq.
    destruct (env_ReadMessage env _) as [m|err] eqn:Hread.
    + unfold bind at 1, time_Now. rewrite call_eq.
      destruct (String.eqb (irc.Command m) "ERROR") eqn:Herror.
      { apply String.eqb_eq in Herror. unfold bind at 1.
        rewrite (addError_entry _ (GotError m)) by (intros; entry_of; done).
        unfold bind, c_Close, ret. rewrite call_eq.
        landed. by apply pass_error. }
      apply String.eqb_neq in Herror.
      destruct (String.eqb (irc.Command m) "PING") eqn:Hping; simpl negb; cbv iota.
      2:{ apply String.eqb_neq in Hping. unfold ret.
          landed. by apply pass_other. }
      apply String.eqb_eq in Hping.
      unfold bind at 1, c_Pong. rewrite call_eq.
      destruct (env_Pong env _ m) as [err|] eqn:Hpong.
      { unfold bind at 1.
        rewrite (addError_entry _ (Ponging err)) by (intros; entry_of; done).
        cbv beta iota. rewrite giveUp_tail.
        landed. by apply pass_pong_failed. }
      unfold bind at 1. rewrite call_eq. unfold bind at 1.
      match goal with
      | |- context [sendMessages env conf ?st ?t] =>
          destruct (sendMessages_spec env conf st t)
            as (ds & ts & [last0 errors0] & r & tail & Hflush & Hlen & Hlast & Hclear & Hout)
      end.
      rewrite Hflush. simpl in Hlast, Hclear, Hout. subst last0.
      destruct r as [err|].
      * unfold flushOutcome in Hout. simpl in Hout.
        destruct Hout as (chs1 & ch & chs2 & k & e & Hchs & He & -> & -> & ->).
        unfold bind at 1.
        rewrite (addError_entry _ (Messaging err)) by (intros; entry_of; done).
        cbv beta iota. rewrite giveUp_tail.
        landed. by eapply pass_flush_failed.
      * unfold flushOutcome in Hout. simpl in Hout.
        destruct Hout as [-> ->]. rewrite (Hclear eq_refl), app_nil_r.
        unfold ret. landed. by apply pass_flushed.
    + unfold bind at 1.
      rewrite (addError_entry _ (Reading err)) by (intros; entry_of; done).
      cbv beta iota. rewrite giveUp_or_EOF_tail.
      landed. apply pass_read_failed.
  - unfold bind at 1.
    destruct (connect env fuel conf _) as [[r tr1]|] eqn:Hconnect; [|done].
    apply connect_runs in Hconnect as (cext & -> & Hcext).
    destruct r as [err|].
    + unfold bind at 1.
      rewrite (addError_entry _ (Connecting err)) by (intros; entry_of; done).
      unfold bind, c_Close, ret. rewrite call_eq.
      landed. by apply pass_connect_failed.
    + unfold bind, time_Now, ret. rewrite call_eq.
      landed. by apply pass_connected.
Qed.

(** The passes of [iterations]. *)
Lemma iterations_passes (fuel : nat) (conf : Config) (n : nat) :
  forall s s' tr tr',
    iterations env n fuel conf s tr = Some (s', tr') ->
    exists ext, tr' = tr ++ ext /\ passes (env_lib env) conf n s s' ext.
Proof.
  induction n as [|n IH]; intros s s' tr tr'; simpl.
  - intros Hrun. injection Hrun as <- <-. exists []. split; [by rewrite app_nil_r|].
    constructor.
  - unfold bind at 1.
    destruct (iteration env fuel conf s tr) as [[s1 tr1]|] eqn:Hpass; [|done].
    intros Hrest. apply iteration_pass in Hpass as (ext1 & -> & Hpass).
    apply IH in Hrest as (ext & -> & Hrest).
    exists (ext1 ++ ext). split; [by rewrite app_assoc|]. by econstructor.
Qed.

End Passes.

(** *** Counting the calls of a run *)

Lemma count_app (kind : Event -> bool) (tr1 tr2 : Trace) :
  count kind (tr1 ++ tr2) = (count kind tr1 + count kind tr2)%nat.
Proof. unfold count. by rewrite List.filter_app, length_app. Qed.

Lemma count_cons (kind : Event -> bool) (ev : Event) (tr : Trace) :
  count kind (ev :: tr) = ((if kind ev then 1 else 0) + count kind tr)%nat.
Proof. unfold count. simpl. by destruct (kind ev). Qed.

Lemma count_none (kind other : Event -> bool) (tr : Trace) :
  (forall ev, other ev = true -> kind ev = false) ->
  Forall (fun ev => other ev = true) tr ->
  count kind tr = 0%nat.
Proof.
  intros Hkind. induction 1 as [|ev tr Hev _ IH]; [done|].
  by rewrite count_cons, (Hkind _ Hev), IH.
Qed.

(** [connect] calls [Connect], [Register], [ReadMessage], [SetRegistered]
    and [Join], and nothing else. *)
Lemma connectRun_calls lib conf r ext :
  connectRun lib conf r ext -> Forall (fun ev => isConnectCall ev = true) ext.
Proof.
  assert (Hreads : forall ms, Forall (fun ev => isConnectCall ev = true) (readsOf ms)).
  { intros ms. unfold readsOf. apply Forall_fmap. by apply Forall_true. }
  assert (Hjoined : forall chs, Forall (fun ev => isConnectCall ev = true) (joined chs)).
  { intros chs. unfold joined. apply Forall_fmap. by apply Forall_true. }
  destruct 1 as [| |ms r tail Hms Hend].
  - by repeat constructor.
  - by repeat constructor.
  - unfold registering. rewrite !Forall_app. split; [split|].
    + by repeat constructor.
    + apply Hreads.
    + destruct Hend; rewrite ?Forall_app; repeat split;
        try apply Hjoined; by repeat constructor.
Qed.

Lemma delivered_calls (ds : list (string * string)) : forall ts,
  Forall (fun ev => match ev with
                    | EvMessage _ _ _ | EvNow _ => true
                    | _ => false
                    end = true) (delivered ds ts).
Proof.
  induction ds as [|[ch e] ds IH]; intros [|t ts]; simpl; try done.
  by repeat constructor.
Qed.

(** What one pass adds to the counts: one sleep of a second, one question
    to the client, at most one line in the log, a [Close] only with such a
    line, and at most one entry more in the error log. *)
Lemma pass_counts lib conf s s' ext :
  pass lib conf s s' ext ->
  count isSleep ext = 1%nat
  /\ count isPoll ext = 1%nat
  /\ (count isLog ext <= 1)%nat
  /\ (count isClose ext <= count isLog ext)%nat
  /\ (length (errors s') <= length (errors s) + count isLog ext)%nat.
Proof.
  assert (Hc : forall kind r cext,
             (forall ev, isConnectCall ev = true -> kind ev = false) ->
             connectRun lib conf r cext -> count kind cext = 0%nat).
  { intros kind r cext Hkind Hrun.
    eapply count_none; [exact Hkind|]. by eapply connectRun_calls. }
  assert (Hd : forall kind ds ts,
             (forall ev, match ev with
                         | EvMessage _ _ _ | EvNow _ => true
                         | _ => false
                         end = true -> kind ev = false) ->
             count kind (delivered ds ts) = 0%nat).
  { intros kind ds ts Hkind.
    eapply count_none; [exact Hkind|]. apply delivered_calls. }
  destruct 1; unfold polled, closing;
    repeat match goal with
           | |- context [if ?b then [EvClose _] else []] => destruct b
           end;
    rewrite ?count_app, ?count_cons;
    rewrite ?(Hc isSleep _ cext), ?(Hc isPoll _ cext), ?(Hc isLog _ cext),
      ?(Hc isClose _ cext), ?(Hd isSleep), ?(Hd isPoll), ?(Hd isLog), ?(Hd isClose)
      by (done || by intros []);
    simpl; rewrite ?Z.eqb_refl, ?length_app, ?length_drop; unfold count; simpl; lia.
Qed.

Section Counts.

Variable env : Env.

(** X5.  Whatever the clock and the client answer, [n] passes of the loop
    sleep [n] times, a second each, and ask the client [n] times whether it
    is connected.  They print at most [n] lines to the log, one for each
    pass at most, and call [Close] at most as many times as they print a
    line: the connection is never closed without an error being recorded.
    The error log grows by at most one entry for each line printed. *)
Theorem passes_counted (n fuel : nat) (conf : Config) (s s' : state) (tr tr' : Trace) :
  iterations env n fuel conf s tr = Some (s', tr') ->
  exists ext,
    tr' = tr ++ ext
    /\ count isSleep ext = n
    /\ count isPoll ext = n
    /\ (count isLog ext <= n)%nat
    /\ (count isClose ext <= count isLog ext)%nat
    /\ (length (errors s') <= length (errors s) + count isLog ext)%nat.
Proof.
  intros Hrun. apply iterations_passes in Hrun as (ext & -> & Hpasses).
  exists ext. split; [done|].
  induction Hpasses as [s|n s s1 s' ext1 ext Hpass Hrest IH].
  - unfold count. simpl. repeat split; lia.
  - apply pass_counts in Hpass. rewrite !count_app. lia.
Qed.

End Counts.

(** *** What becomes of the entries of the error log *)

Lemma omap_calls {B} (f : Event -> option B) (other : Event -> bool) (tr : Trace) :
  (forall ev, other ev = true -> f ev = None) ->
  Forall (fun ev => other ev = true) tr ->
  omap f tr = [].
Proof.
  intros Hf. induction 1 as [|ev tr Hev _ IH]; [done|].
  csimpl. by rewrite (Hf _ Hev), IH.
Qed.

Lemma logged_app tr1 tr2 : logged (tr1 ++ tr2) = logged tr1 ++ logged tr2.
Proof. apply omap_app. Qed.

Lemma logged_delivered ds ts : logged (delivered ds ts) = [].
Proof.
  eapply omap_calls; [|apply delivered_calls]. by intros [].
Qed.

Lemma logged_connectRun lib conf r ext : connectRun lib conf r ext -> logged ext = [].
Proof.
  intros Hrun. eapply omap_calls; [|by eapply connectRun_calls]. by intros [].
Qed.

Lemma attempts_connectRun lib conf r ext : connectRun lib conf r ext -> attempts ext = [].
Proof.
  intros Hrun. eapply omap_calls; [|by eapply connectRun_calls]. by intros [].
Qed.

Lemma attempts_closing decided r : attempts (closing decided r) = [].
Proof. by destruct decided. Qed.

Lemma logged_closing decided r : logged (closing decided r) = [].
Proof. by destruct decided. Qed.

Lemma recorded_entryOf lib t f : recorded lib (entryOf lib t f).
Proof. by exists t, f. Qed.

(** What one pass does to the error log: it cuts it at some entry [k],
    having delivered the entries before [k], and adds the lines it prints;
    all it sends to a channel are entries of the log. *)
Lemma pass_log lib conf s s' ext :
  pass lib conf s s' ext ->
  exists k,
    errors s' = drop k (errors s) ++ logged ext
    /\ (Channels conf <> [] ->
        forall e, e ∈ take k (errors s) ->
          exists ch, ch ∈ Channels conf /\ (ch, e, None) ∈ attempts ext)
    /\ (forall ch e r, (ch, e, r) ∈ attempts ext -> ch ∈ Channels conf /\ e ∈ errors s)
    /\ Forall (recorded lib) (logged ext).
Proof.
  assert (Hnone : (Channels conf <> [] ->
                   forall e, e ∈ take 0 (errors s) ->
                     exists ch, ch ∈ Channels conf
                                /\ (ch, e, None) ∈ (@nil (string * string * option error)))
                  /\ (forall ch e (r : option error),
                        (ch, e, r) ∈ (@nil (string * string * option error)) ->
                        ch ∈ Channels conf /\ e ∈ errors s)).
  { split.
    - intros _ e He. by apply elem_of_nil in He.
    - intros ch e r He. by apply elem_of_nil in He. }
  destruct Hnone as [Hnone1 Hnone2].
  destruct 1 as [cext err t r Hc|cext t Hc|err t t2 r|m t1 t r Hm|m t1 Hm Hm'
                 |m t1 err t t2 r Hm|m t1 t2 ts Hm Hlen
                 |m t1 t2 chs1 ch chs2 k e ts err t t3 r Hm Hchs He Hlen].
  1-6: exists 0%nat; unfold polled;
    rewrite ?logged_app, ?attempts_app, ?(logged_connectRun _ _ _ _ Hc),
      ?(attempts_connectRun _ _ _ _ Hc), ?logged_closing, ?attempts_closing;
    simpl; rewrite ?app_nil_r;
    (split; [done|]); (split; [exact Hnone1|]); (split; [exact Hnone2|]);
    repeat constructor; apply recorded_entryOf.
  - exists (length (errors s)). unfold polled.
    rewrite ?logged_app, ?attempts_app, logged_delivered, attempts_delivered by done.
    simpl. rewrite drop_all, firstn_all. split; [done|]. split; [|split; [|done]].
    + intros Hsome e He. destruct (Channels conf) as [|ch chs] eqn:Hchs; [done|].
      exists ch. split; [apply list_elem_of_here|].
      apply list_elem_of_fmap. exists (ch, e). split; [done|].
      apply elem_of_deliveries. split; [apply list_elem_of_here|done].
    + intros ch e r [[ch' e'] [Heq Hd]]%list_elem_of_fmap. simplify_eq.
      by apply elem_of_deliveries in Hd.
  - exists k. unfold polled.
    rewrite ?logged_app, ?attempts_app, logged_delivered, attempts_delivered,
      ?logged_closing, ?attempts_closing by done.
    simpl. split; [done|]. split; [|split].
    + intros _ e' He'. exists ch. split; [rewrite Hchs; apply elem_of_app; right; apply list_elem_of_here|].
      apply elem_of_app. left. apply list_elem_of_fmap. exists (ch, e').
      split; [done|]. apply elem_of_app. right. apply list_elem_of_fmap. by exists e'.
    + assert (Hch : ch ∈ Channels conf).
      { rewrite Hchs. apply elem_of_app. right. apply list_elem_of_here. }
      intros ch0 e0 r0 [Hin|Hin]%elem_of_app.
      * apply list_elem_of_fmap in Hin as ([ch' e'] & Heq & [Hd|Hd]%elem_of_app).
        -- simplify_eq. apply elem_of_deliveries in Hd as [Hch' He'].
           split; [|done]. rewrite Hchs. apply elem_of_app. by left.
        -- apply list_elem_of_fmap in Hd as (e'' & Heq' & He''). simplify_eq.
           split; [done|]. rewrite <- (take_drop k (errors s)).
           apply elem_of_app. by left.
      * apply list_elem_of_singleton in Hin. simplify_eq.
        split; [done|]. by eapply list_elem_of_lookup_2.
    + repeat constructor. apply recorded_entryOf.
Qed.

(** What a number of passes do to the error log. *)
Lemma passes_log lib conf n s s' ext :
  passes lib conf n s s' ext ->
  (Channels conf <> [] ->
   forall e, e ∈ errors s \/ e ∈ logged ext ->
     e ∈ errors s' \/ exists ch, ch ∈ Channels conf /\ (ch, e, None) ∈ attempts ext)
  /\ (Forall (recorded lib) (errors s) ->
      Forall (recorded lib) (errors s')
      /\ Forall (recorded lib) (logged ext)
      /\ forall ch e r,
           (ch, e, r) ∈ attempts ext -> ch ∈ Channels conf /\ recorded lib e).
Proof.
  induction 1 as [s|n s s1 s' ext1 ext Hpass Hrest [IHkeep IHrec]].
  - split.
    + intros _ e [He|He]; [by left|by apply elem_of_nil in He].
    + intros Hs. split; [done|]. split; [constructor|].
      intros ch e r He. by apply elem_of_nil in He.
  - destruct (pass_log _ _ _ _ _ Hpass) as (k & Herrs & Hsent & Hfrom & Hrec).
    rewrite logged_app, attempts_app. split.
    + intros Hsome e He.
      assert (Hcase : (exists ch, ch ∈ Channels conf /\ (ch, e, None) ∈ attempts ext1)
                      \/ e ∈ errors s1 \/ e ∈ logged ext).
      { destruct He as [He|[He|He]%elem_of_app].
        - rewrite <- (take_drop k (errors s)) in He.
          apply elem_of_app in He as [He|He]; [left; by apply Hsent|].
          right. left. rewrite Herrs. apply elem_of_app. by left.
        - right. left. rewrite Herrs. apply elem_of_app. by right.
        - right. by right. }
      destruct Hcase as [(ch & Hch & Hin)|Hcase].
      * right. exists ch. split; [done|]. apply elem_of_app. by left.
      * destruct (IHkeep Hsome e Hcase) as [He'|(ch & Hch & Hin)]; [by left|].
        right. exists ch. split; [done|]. apply elem_of_app. by right.
    + intros Hs.
      assert (Hs1 : Forall (recorded lib) (errors s1)).
      { rewrite Herrs. apply Forall_app. split; [by apply Forall_drop|done]. }
      destruct (IHrec Hs1) as (Hs' & Hlogged & Hatt).
      split; [done|]. split; [by apply Forall_app|].
      intros ch e r [Hin|Hin]%elem_of_app; [|by apply (Hatt ch e r)].
      apply Hfrom in Hin as [Hch He]. split; [done|].
      rewrite Forall_forall in Hs. by apply Hs.
Qed.

Section LogEntries.

Variable env : Env.

(** X6.  With at least one channel configured, no recorded error is lost:
    after any number of passes, every entry that was in the error log at the
    start and every line printed to the log since is either still in the
    error log or has been delivered to a channel, in a [Message] call that
    succeeded. *)
Theorem passes_lose_no_error (n fuel : nat) (conf : Config) (s s' : state)
    (tr tr' : Trace) :
  Channels conf <> [] ->
  iterations env n fuel conf s tr = Some (s', tr') ->
  exists ext,
    tr' = tr ++ ext
    /\ forall e, e ∈ errors s \/ e ∈ logged ext ->
         e ∈ errors s'
         \/ exists ch, ch ∈ Channels conf /\ (ch, e, None) ∈ attempts ext.
Proof.
  intros Hsome Hrun. apply iterations_passes in Hrun as (ext & -> & Hpasses).
  exists ext. split; [done|]. by apply (passes_log _ _ _ _ _ _ Hpasses).
Qed.

(** X7.  All that the loop records, prints and sends are error entries: in
    a run that starts with an empty error log, as [run] does, every entry of
    the error log, every line printed to the log and every text sent in a
    [Message] call is the RFC 3339 timestamp of a time, a colon, a space and
    the text of one of the five failures; and messages go to configured
    channels only. *)
Theorem run_sends_recorded_entries (n fuel : nat) (conf : Config) (s' : state)
    (tr tr' : Trace) :
  run env n fuel conf tr = Some (s', tr') ->
  exists ext,
    tr' = tr ++ ext
    /\ Forall (recorded (env_lib env)) (errors s')
    /\ Forall (recorded (env_lib env)) (logged ext)
    /\ forall ch e r,
         (ch, e, r) ∈ attempts ext -> ch ∈ Channels conf /\ recorded (env_lib env) e.
Proof.
  unfold run. intros Hrun. apply iterations_passes in Hrun as (ext & -> & Hpasses).
  exists ext. split; [done|].
  apply (passes_log _ _ _ _ _ _ Hpasses). constructor.
Qed.

End LogEntries.

(** *** The passes one by one *)

Lemma gaveUp_iff (now last : time.Time) :
  gaveUp now last = true <-> waitPeriod < time.unixNano now - time.unixNano last.
Proof. apply Sub_exceeds_waitPeriod. Qed.

Section Branches.

Variable env : Env.

Ltac calls :=
  unfold iteration, addError, shouldGiveUp, bind, ret, time_Sleep, time_Now, log_Print,
    c_IsConnected, c_ReadMessage, c_Pong, c_Close, call;
  repeat (rewrite <- ?app_assoc; simpl).

Ltac entry_of :=
  unfold entryOf, describe, Sprintf;
  rewrite ?Sprintf_timestamp_prefix by reflexivity;
  unfold fmt.Sprintf; simpl; rewrite ?append_empty_r.

(** X8.  A pass that finds the client disconnected runs [connect] and
    nothing else of the loop.  When [connect] fails, whatever the cause,
    the pass records [error connecting: ] with the cause, calls [Close] and
    leaves [lastActivityTime] as it was; when [connect] succeeds it only
    sets [lastActivityTime] to a reading of the clock.  The pass returns
    exactly when [connect] does. *)
Theorem disconnected_pass (fuel : nat) (conf : Config) (s : state) (tr : Trace) :
  env_IsConnected env (tr ++ [EvSleep time.Second]) = false ->
  iteration env fuel conf s tr
  = match connect env fuel conf (tr ++ polled false) with
    | Some (Some err, tr1) =>
        let t := env_Now env tr1 in
        let e := entryOf (env_lib env) t (Connecting err) in
        Some (mkState (lastActivityTime s) (errors s ++ [e]),
              tr1 ++ [EvNow t; EvLog e; EvClose (env_Close env (tr1 ++ [EvNow t; EvLog e]))])
    | Some (None, tr1) =>
        let t := env_Now env tr1 in
        Some (mkState t (errors s), tr1 ++ [EvNow t])
    | None => None
    end.
Proof.
  intros Hdown.
  unfold iteration, bind at 1 2, time_Sleep, c_IsConnected, call.
  rewrite Hdown, <- app_assoc. simpl app. cbv beta iota delta [negb].
  unfold bind at 1, polled.
  destruct (connect env fuel conf _) as [[[err|] tr1]|]; [| |done].
  - unfold bind at 1.
    rewrite (addError_entry _ _ (Connecting err)) by (intros; entry_of; done).
    unfold bind, c_Close, ret, call. by rewrite <- app_assoc.
  - by unfold bind, time_Now, ret, call.
Qed.

(** X9.  When the answer to a [PING] cannot be sent, the pass records
    [error PONGing: ] with the cause and attempts no flush.  The activity
    time is then the reading that followed the read of the [PING], so the
    connection is closed only when more than the wait period has gone by
    between that reading and the one of the give-up decision, in this very
    pass. *)
Theorem pong_failure_pass (fuel : nat) (conf : Config) (s : state) (tr : Trace)
    (m : irc.Message) (err : error) :
  env_IsConnected env (tr ++ [EvSleep time.Second]) = true ->
  env_ReadMessage env (tr ++ polled true) = inl m ->
  irc.Command m = "PING" ->
  let tr1 := tr ++ polled true ++ [EvReadMessage (inl m)] in
  let t1 := env_Now env tr1 in
  env_Pong env (tr1 ++ [EvNow t1]) m = Some err ->
  let tr2 := tr1 ++ [EvNow t1; EvPong m (Some err)] in
  let t := env_Now env tr2 in
  let e := entryOf (env_lib env) t (Ponging err) in
  let tr3 := tr2 ++ [EvNow t; EvLog e] in
  let t2 := env_Now env tr3 in
  iteration env fuel conf s tr
  = Some (mkState t1 (errors s ++ [e]),
          tr3 ++ EvNow t2 :: closing (gaveUp t2 t1) (env_Close env (tr3 ++ [EvNow t2])))
  /\ (gaveUp t2 t1 = true <-> waitPeriod < time.unixNano t2 - time.unixNano t1).
Proof.
  intros Hup Hread Hping tr1 t1 Hpong tr2 t e tr3 t2.
  split; [|apply gaveUp_iff].
  unfold polled in *. calls. rewrite Hup. simpl. calls. rewrite Hread. simpl.
  rewrite Hping. simpl. calls.
  subst tr1 t1. repeat (rewrite <- ?app_assoc in Hpong; simpl in Hpong).
  rewrite Hpong. simpl. calls.
  subst tr3 t2 e t tr2. unfold gaveUp, closing. entry_of.
  repeat (rewrite <- ?app_assoc; simpl).
  destruct (_ <? _); repeat (rewrite <- ?app_assoc; simpl); reflexivity.
Qed.

(** X10.  When the answer to a [PING] is sent, the pass flushes the error
    log and returns.  If every delivery succeeds the log is empty, nothing
    is printed and the connection stays open.  If a delivery fails, at
    entry [k] on channel [ch], the log is cut at [k] and the new entry
    [error messaging: ] with the cause is added behind what is left, so the
    log is not empty and the new entry is the last to be sent by the next
    flush; the connection is closed only when more than the wait period has
    gone by since the last call that succeeded. *)
Theorem ping_flush_pass (fuel : nat) (conf : Config) (s : state) (tr : Trace)
    (m : irc.Message) :
  env_IsConnected env (tr ++ [EvSleep time.Second]) = true ->
  env_ReadMessage env (tr ++ polled true) = inl m ->
  irc.Command m = "PING" ->
  let tr1 := tr ++ polled true ++ [EvReadMessage (inl m)] in
  let t1 := env_Now env tr1 in
  env_Pong env (tr1 ++ [EvNow t1]) m = None ->
  let tr2 := tr1 ++ [EvNow t1; EvPong m None] in
  let t2 := env_Now env tr2 in
  exists s' ds ts rest,
    iteration env fuel conf s tr = Some (s', tr2 ++ [EvNow t2] ++ delivered ds ts ++ rest)
    /\ length ts = length ds
    /\ lastActivityTime s' = default t2 (last ts)
    /\ ((rest = [] /\ ds = deliveries (Channels conf) (errors s) /\ errors s' = [])
        \/ exists chs1 ch chs2 k e err t t3 r,
             Channels conf = chs1 ++ ch :: chs2
             /\ errors s !! k = Some e
             /\ ds = deliveries chs1 (errors s) ++ (pair ch <$> take k (errors s))
             /\ rest = [EvMessage ch e (Some err); EvNow t;
                        EvLog (entryOf (env_lib env) t (Messaging err)); EvNow t3]
                       ++ closing (gaveUp t3 (lastActivityTime s')) r
             /\ errors s' = drop k (errors s) ++ [entryOf (env_lib env) t (Messaging err)]).
Proof.
  intros Hup Hread Hping tr1 t1 Hpong tr2 t2.
  unfold polled in *.
  unfold iteration, bind at 1 2, time_Sleep, c_IsConnected, call.
  rewrite Hup, <- app_assoc. simpl app. cbv beta iota delta [negb].
  unfold bind at 1, c_ReadMessage, call. rewrite Hread. cbv beta iota zeta.
  unfold bind at 1, time_Now, call. cbv beta iota zeta.
  rewrite Hping. change (String.eqb "PING" "ERROR") with false.
  change (String.eqb "PING" "PING") with true. cbv beta iota delta [negb].
  unfold bind at 1, c_Pong, call. cbv beta iota zeta.
  subst tr2 t2 tr1 t1.
  repeat (rewrite <- ?app_assoc in *; cbn [app] in * ).
  rewrite Hpong. cbv beta iota. unfold bind at 1. cbv beta iota. unfold bind at 1.
  match goal with
  | |- context [sendMessages env conf ?st ?t] =>
      destruct (sendMessages_spec env conf st t)
        as (ds & ts & [last0 errors0] & r & tail & Hflush & Hlen & Hlast & Hclear & Hout)
  end.
  rewrite Hflush. simpl in Hlast, Hclear. subst last0.
  unfold flushOutcome in Hout. destruct r as [err|]; simpl in Hout.
  - destruct Hout as (chs1 & ch & chs2 & k & e & Hchs & He & -> & -> & ->).
    unfold bind at 1.
    rewrite (addError_entry _ _ (Messaging err)) by (intros; entry_of; done).
    cbv beta iota. rewrite giveUp_tail.
    eexists _, _, ts, _.
    split; [repeat (rewrite <- ?app_assoc; cbn [app]); reflexivity|].
    split; [exact Hlen|]. split; [reflexivity|].
    right. eexists chs1, ch, chs2, k, e, err, _, _, _.
    split; [done|]. split; [done|]. split; [done|]. split; reflexivity.
  - destruct Hout as [-> ->]. rewrite (Hclear eq_refl).
    eexists _, _, ts, [].
    split; [unfold ret; repeat (rewrite <- ?app_assoc; cbn [app]); reflexivity|].
    split; [exact Hlen|]. split; [reflexivity|]. by left.
Qed.

End Branches.

(** *** Flushing and connecting at the edges *)

Section Edges.

Variable env : Env.

Lemma sendChannels_empty_log (chs : list string) (s : state) (tr : Trace) :
  errors s = [] -> sendChannels env chs s tr = Some ((s, None), tr).
Proof.
  intros Hempty. induction chs as [|ch chs IH]; [done|].
  simpl. rewrite Hempty. simpl. unfold bind, ret. exact IH.
Qed.

(** X11.  A flush with nothing to send makes no call: when the error log
    is empty, or when no channel is configured, [sendMessages] returns no
    error and leaves the clock, the client and [lastActivityTime] alone.
    With no channel configured the entries of the log are dropped without
    having been sent.  In particular a flush that follows a flush that
    succeeded does nothing. *)
Theorem flush_with_nothing_to_send (conf : Config) (s : state) (tr : Trace) :
  (errors s = [] \/ Channels conf = [] ->
   sendMessages env conf s tr = Some ((mkState (lastActivityTime s) [], None), tr))
  /\ (forall s' tr',
        sendMessages env conf s tr = Some ((s', None), tr') ->
        sendMessages env conf s' tr' = Some ((s', None), tr')).
Proof.
  assert (Hnothing : forall s0 tr0,
             errors s0 = [] \/ Channels conf = [] ->
             sendMessages env conf s0 tr0
             = Some ((mkState (lastActivityTime s0) [], None), tr0)).
  { intros s0 tr0 [Hempty|Hnone]; unfold sendMessages, bind.
    - by rewrite sendChannels_empty_log.
    - by rewrite Hnone. }
  split; [apply Hnothing|].
  intros s' tr' Hrun.
  destruct (sendMessages_spec env conf s tr)
    as (ds & ts & s0 & r & tail & Hflush & _ & _ & Hclear & _).
  rewrite Hflush in Hrun. injection Hrun as -> -> <-.
  specialize (Hclear eq_refl).
  rewrite Hnothing by (by left). destruct s' as [last0 errors0].
  simpl in Hclear. by subst errors0.
Qed.

(** A run of [connect] starts with its one call of [Connect]; the calls
    behind it are those of the registration. *)
Lemma connectRun_registration lib conf r ext :
  connectRun lib conf r ext ->
  exists c rest,
    ext = EvConnect c :: rest
    /\ Forall (fun ev => isRegistrationCall ev = true) rest.
Proof.
  destruct 1 as [err|err|ms r tail Hms Hend].
  - by eexists _, [].
  - eexists _, _. split; [done|]. by repeat constructor.
  - unfold registering. eexists _, _. split; [reflexivity|].
    constructor; [done|]. rewrite Forall_app. split.
    + unfold readsOf. apply Forall_fmap. by apply Forall_true.
    + destruct Hend; rewrite ?Forall_app; repeat split;
        try (unfold joined; apply Forall_fmap; by apply Forall_true);
        by repeat constructor.
Qed.

(** X12.  A [connect] that returns has called [Connect] first, once, and
    after it nothing but [Register], [ReadMessage], [SetRegistered] and
    [Join]: it does not call [Connect] again, reads no clock, prints
    nothing and never calls [Close], so that a connection it has opened is
    still open when it returns an error and closing is left to the
    caller. *)
Theorem connect_leaves_closing_to_caller (fuel : nat) (conf : Config) (tr tr' : Trace)
    (r : option error) :
  connect env fuel conf tr = Some (r, tr') ->
  exists rest,
    tr' = tr ++ EvConnect (env_Connect env tr) :: rest
    /\ Forall (fun ev => isRegistrationCall ev = true) rest
    /\ count isConnectAttempt rest = 0%nat
    /\ count isClose rest = 0%nat
    /\ count isLog rest = 0%nat
    /\ count (fun ev => match ev with EvNow _ => true | _ => false end) rest = 0%nat.
Proof.
  intros Hrun.
  destruct (connect_runs env _ _ _ _ _ Hrun) as (ext & -> & Hext).
  destruct (connectRun_registration _ _ _ _ Hext) as (c & rest & -> & Hrest).
  assert (Hc : c = env_Connect env tr).
  { destruct (connect_starts env _ _ _ _ _ Hrun) as [rest' Heq].
    apply app_inv_head in Heq. by injection Heq. }
  subst c. exists rest. split; [done|]. split; [done|].
  repeat split; (eapply count_none; [|exact Hrest]); by intros [].
Qed.

End Edges.

(** ** Starting up *)

Section Startup.

Variable env : Env.
Variable ReadFile : string -> string + error.

(** X13.  [main] ends the process in [log.Fatal] before any call on the
    client when the flag [-conf] is empty, having printed the defaults and
    without reading any file, and when [parseConfig] rejects the file.
    Otherwise it makes the client from the configuration, with the nick in
    the three places of a name, sets its timeout to seven minutes and runs
    the loop from the zero state; the configuration it runs with names at
    least one channel, each starting with [#], a nick and a host. *)
Theorem main_startup (config : string) (n fuel : nat) :
  (config = EmptyString ->
   main env ReadFile config n fuel
   = ([EvPrintDefaults; EvFatal (errorString "no config file provided")], None))
  /\ (forall err,
        config <> EmptyString ->
        parseConfig (env_lib env) ReadFile config = inr err ->
        main env ReadFile config n fuel = ([EvFatal err], None))
  /\ (forall evs loop,
        main env ReadFile config n fuel = (evs, Some loop) ->
        exists conf,
          config <> EmptyString
          /\ parseConfig (env_lib env) ReadFile config = inl conf
          /\ evs = [EvNew (Nick conf) (Nick conf) (Nick conf) (ServerHost conf)
                      (ServerPort conf) true;
                    EvSetTimeoutTime (420 * time.Second)]
          /\ loop = iterations env n fuel conf (mkState time.zero []) []
          /\ Channels conf <> []
          /\ Forall hashed (Channels conf)
          /\ Nick conf <> EmptyString
          /\ ServerHost conf <> EmptyString).
Proof.
  unfold main, getArgs. split; [|split].
  - by intros ->.
  - intros err Hconfig Hparse. apply String.eqb_neq in Hconfig.
    rewrite Hconfig. simpl. by rewrite Hparse.
  - intros evs loop.
    destruct (String.eqb config EmptyString) eqn:Hconfig; [done|].
    apply String.eqb_neq in Hconfig. simpl.
    destruct (parseConfig (env_lib env) ReadFile config) as [conf|err] eqn:Hparse;
      [|done].
    intros Hmain. injection Hmain as <- <-. exists conf.
    destruct (parseConfig_inl _ _ _ _ Hparse)
      as (buf & _ & _ & _ & _ & Hhashed & Hsome & _ & Hnick & _ & Hhost & _).
    done.
Qed.

(** X14.  In the program as [main] starts it, no recorded error is lost:
    whatever the clock and the client answer, after any number of passes
    every line that was printed to the log is still in the error log or has
    been delivered to a configured channel. *)
Theorem main_loses_no_error (config : string) (n fuel : nat)
    (evs : list StartEvent) (s : state) (tr : Trace) :
  main env ReadFile config n fuel = (evs, Some (Some (s, tr))) ->
  forall e, e ∈ logged tr ->
    e ∈ errors s \/ exists ch, (ch, e, None) ∈ attempts tr.
Proof.
  unfold main, getArgs.
  destruct (String.eqb config EmptyString); [done|]. simpl.
  destruct (parseConfig (env_lib env) ReadFile config) as [conf|err] eqn:Hparse;
    [|done].
  intros Hmain. injection Hmain as _ Hrun.
  destruct (parseConfig_inl _ _ _ _ Hparse) as (buf & _ & _ & _ & _ & _ & Hsome & _).
  unfold run in Hrun.
  apply iterations_passes in Hrun as (ext & -> & Hpasses).
  intros e He. simpl in *.
  destruct (proj1 (passes_log _ _ _ _ _ _ Hpasses) Hsome e (or_intror He))
    as [Hin|(ch & _ & Hin)]; [by left|right; by exists ch].
Qed.

End Startup.

(** ** The test of [addError] *)

Lemma after_app (p q : list (ascii -> bool)) : forall s,
  after (p ++ q) s = after p s ≫= after q.
Proof.
  induction p as [|c p IH]; intros s; [done|].
  destruct s as [|a s]; [done|]. simpl. destruct (c a); [apply IH|done].
Qed.

(** The date and the time of day of a timestamp, before its zone. *)
Lemma formatRFC3339_parts (t : time.Time) :
  fourDigitYear t ->
  exists body,
    time.formatRFC3339 t = body +:+ time.zoneSuffix (time.zoneOffset t)
    /\ forall rest,
         after [digit; digit; digit; digit; lit "-"; digit; digit; lit "-";
                digit; digit; lit "T"; digit; digit; lit ":"; digit; digit;
                lit ":"; digit; digit] (body +:+ rest) = Some rest.
Proof.
  intros [Hsecs Hzone]. unfold time.formatRFC3339.
  set (secs := time.unixNano t / time.Second + time.zoneOffset t) in *.
  assert (Hsod : 0 <= secs mod 86400 < 86400) by (apply Z.mod_pos_bound; lia).
  assert (Hdays : -719528 <= secs / 86400 <= 2932896).
  { assert (-719528 <= secs / 86400 < 2932897); [|lia].
    split; [apply Z.div_le_lower_bound|apply Z.div_lt_upper_bound]; lia. }
  pose proof (civil_range _ Hdays) as Hcivil.
  destruct (time.civil (secs / 86400)) as [[y m] d].
  destruct Hcivil as (Hy & Hm & Hd).
  set (sod := secs mod 86400) in *.
  assert (Hh : 0 <= sod / 3600 < 100).
  { split; [apply Z.div_pos|apply Z.div_lt_upper_bound]; lia. }
  assert (Hmi : 0 <= sod mod 3600 / 60 < 100).
  { pose proof (Z.mod_pos_bound sod 3600).
    split; [apply Z.div_pos|apply Z.div_lt_upper_bound]; lia. }
  assert (Hs : 0 <= sod mod 60 < 100) by (pose proof (Z.mod_pos_bound sod 60); lia).
  pose proof (appendInt_four y Hy) as Ey.
  pose proof (appendInt_two m Hm) as Em.
  pose proof (appendInt_two d Hd) as Ed.
  pose proof (appendInt_two _ Hh) as Eh.
  pose proof (appendInt_two _ Hmi) as Emi.
  pose proof (appendInt_two _ Hs) as Es.
  apply fourDigits_inv in Ey as (y1 & y2 & y3 & y4 & -> & ? & ? & ? & ?).
  apply twoDigits_inv in Em as (m1 & m2 & -> & ? & ?).
  apply twoDigits_inv in Ed as (d1 & d2 & -> & ? & ?).
  apply twoDigits_inv in Eh as (h1 & h2 & -> & ? & ?).
  apply twoDigits_inv in Emi as (i1 & i2 & -> & ? & ?).
  apply twoDigits_inv in Es as (s1 & s2 & -> & ? & ?).
  eexists (String y1 (String y2 (String y3 (String y4 (String "-"
            (String m1 (String m2 (String "-" (String d1 (String d2 (String "T"
            (String h1 (String h2 (String ":" (String i1 (String i2 (String ":"
            (String s1 (String s2 EmptyString))))))))))))))))))).
  split; [reflexivity|]. intros rest.
  cbv [String.append after lit Ascii.eqb Bool.eqb].
  repeat match goal with
         | H : digit _ = true |- _ => rewrite H; clear H
         end.
  done.
Qed.

(** The zone of a timestamp is [Z] for the offset zero, and otherwise a
    sign, two digits, a colon and two digits. *)
Lemma zoneSuffix_parts (offset : Z) :
  -360000 < offset < 360000 ->
  if offset =? 0 then time.zoneSuffix offset = "Z"
  else exists c a1 a2 b1 b2,
      time.zoneSuffix offset
      = String c (String a1 (String a2 (String ":" (String b1 (String b2 EmptyString)))))
      /\ sign c = true /\ digit a1 = true /\ digit a2 = true
      /\ digit b1 = true /\ digit b2 = true.
Proof.
  intros Hzone. unfold time.zoneSuffix.
  destruct (offset =? 0); [done|].
  set (a := Z.abs (Z.quot offset 60)).
  assert (Ha : 0 <= a < 6000).
  { subst a. rewrite <- (Z.quot_abs _ 60) by lia. change (Z.abs 60) with 60.
    rewrite Z.quot_div_nonneg by lia.
    split; [apply Z.div_pos|apply Z.div_lt_upper_bound]; lia. }
  assert (Ha1 : 0 <= a / 60 < 100).
  { split; [apply Z.div_pos|apply Z.div_lt_upper_bound]; lia. }
  assert (Ha2 : 0 <= a mod 60 < 100) by (pose proof (Z.mod_pos_bound a 60); lia).
  apply appendInt_two, twoDigits_inv in Ha1 as (a1 & a2 & -> & ? & ?).
  apply appendInt_two, twoDigits_inv in Ha2 as (b1 & b2 & -> & ? & ?).
  destruct (Z.quot offset 60 <? 0); eexists _, a1, a2, b1, b2;
    (split; [reflexivity|done]).
Qed.

(** An entry matches the expression of its case exactly when the zone of
    its timestamp is not the offset zero. *)
Lemma wanted_entry (t : time.Time) (message : string) :
  fourDigitYear t ->
  testing.wanted message (time.formatRFC3339 t +:+ ": " +:+ message)
  = negb (time.zoneOffset t =? 0).
Proof.
  intros Ht. destruct (formatRFC3339_parts t Ht) as (body & -> & Hbody).
  destruct Ht as [_ Hzone]. apply zoneSuffix_parts in Hzone.
  unfold testing.wanted.
  change [digit; digit; digit; digit; lit "-"; digit; digit; lit "-";
          digit; digit; lit "T"; digit; digit; lit ":"; digit; digit;
          lit ":"; digit; digit; testing.zoneMark; digit; digit; lit ":";
          digit; digit; lit ":"; lit " "]
    with ([digit; digit; digit; digit; lit "-"; digit; digit; lit "-";
           digit; digit; lit "T"; digit; digit; lit ":"; digit; digit;
           lit ":"; digit; digit]
          ++ [testing.zoneMark; digit; digit; lit ":"; digit; digit; lit ":"; lit " "]).
  rewrite after_app, append_assoc, Hbody. simpl mbind.
  destruct (time.zoneOffset t =? 0).
  - rewrite Hzone. reflexivity.
  - destruct Hzone as (c & a1 & a2 & b1 & b2 & -> & Hc & Ha1 & Ha2 & Hb1 & Hb2).
    cbv [String.append after lit].
    assert (Hmark : testing.zoneMark c = true).
    { unfold testing.zoneMark, sign in *.
      destruct (Ascii.eqb c "+"), (Ascii.eqb c "-"); done. }
    rewrite Hmark, Ha1, Ha2, Hb1, Hb2. simpl. apply String.eqb_refl.
Qed.

Section Testing.

Variable env : Env.

(** X15.  [TestAddError] makes one entry in each of its two cases, so the
    check of the length never fails; but a case passes exactly when the
    zone of the clock is not the offset zero.  Its expressions want two
    digits, a colon and two digits behind the zone mark, and the timestamp
    of a time at offset zero ends in a bare [Z]: with the clock on UTC the
    test fails in both cases, for all times of the years 0000 to 9999. *)
Theorem TestAddError_needs_zone (tr : Trace) :
  let t1 := env_Now env tr in
  let e1 := time.formatRFC3339 t1 +:+ ": hi" in
  let tr1 := tr ++ [EvNow t1; EvLog e1] in
  let t2 := env_Now env tr1 in
  let e2 := time.formatRFC3339 t2 +:+ ": some error: something went wrong" in
  fourDigitYear t1 ->
  fourDigitYear t2 ->
  testing.TestAddError env tr
  = Some ([if time.zoneOffset t1 =? 0 then testing.NoMatch e1 else testing.Pass;
           if time.zoneOffset t2 =? 0 then testing.NoMatch e2 else testing.Pass],
          tr1 ++ [EvNow t2; EvLog e2]).
Proof.
  intros t1 e1 tr1 t2 e2 Ht1 Ht2.
  assert (Hcheck : forall tr0 format args message,
             sequential format = true ->
             fmt.Sprintf (env_lib env) format args = message ->
             fourDigitYear (env_Now env tr0) ->
             let t := env_Now env tr0 in
             let e := time.formatRFC3339 t +:+ ": " +:+ message in
             testing.check env (testing.mkCase format args (testing.wanted message)) tr0
             = Some (if time.zoneOffset t =? 0 then testing.NoMatch e else testing.Pass,
                     tr0 ++ [EvNow t; EvLog e])).
  { intros tr0 format args message Hseq Hmessage Ht t e.
    unfold testing.check, addError, bind, ret, time_Now, log_Print, call. simpl.
    assert (Hentry : Sprintf env ("%s: " +:+ format)
                       (if (0 <? length args)%nat
                        then AnyString (time.formatRFC3339 t) :: args
                        else [AnyString (time.formatRFC3339 t)]) = e).
    { unfold Sprintf. destruct args as [|a args]; simpl.
      - rewrite Sprintf_timestamp_prefix by done. by rewrite Hmessage.
      - rewrite Sprintf_timestamp_prefix by done. by rewrite Hmessage. }
    fold t. rewrite Hentry. simpl. subst e. rewrite wanted_entry by done.
    rewrite <- app_assoc. by destruct (time.zoneOffset t =? 0). }
  unfold testing.TestAddError, testing.tests. cbn [testing.checks].
  unfold bind at 1. rewrite (Hcheck tr "hi" [] "hi" eq_refl eq_refl Ht1).
  cbv beta iota zeta. unfold bind at 1 2.
  change (": " +:+ "hi") with ": hi". fold t1 e1 tr1.
  rewrite (Hcheck tr1 "some error: %s" [AnyError (errorString "something went wrong")]
             "some error: something went wrong" eq_refl eq_refl Ht2).
  reflexivity.
Qed.

End Testing.

(** *** Retrying *)

Lemma count_fmap_none {A} (kind : Event -> bool) (f : A -> Event) (l : list A) :
  (forall x, kind (f x) = false) -> count kind (f <$> l) = 0%nat.
Proof.
  intros Hkind. induction l as [|x l IH]; [done|].
  csimpl. by rewrite count_cons, Hkind, IH.
Qed.

(** A run of [connect] calls [Connect] once. *)
Lemma connectRun_one_attempt lib conf r ext :
  connectRun lib conf r ext -> count isConnectAttempt ext = 1%nat.
Proof.
  destruct 1 as [| |ms r tail Hms Hend]; [done|done|].
  unfold registering, readsOf. rewrite !count_app, count_fmap_none by done.
  destruct Hend; unfold joined; rewrite ?count_app, ?count_cons, ?count_fmap_none by done;
    done.
Qed.

(** What one pass adds to the counts of attempts: a call of [Connect]
    exactly when the client is down, a call of [Pong] only when it is up. *)
Lemma pass_attempts lib conf s s' ext :
  pass lib conf s s' ext ->
  count isConnectAttempt ext = count isDown ext
  /\ (count isPong ext + count isDown ext <= 1)%nat.
Proof.
  assert (Hc : forall kind r cext,
             (forall ev, isConnectCall ev = true -> kind ev = false) ->
             connectRun lib conf r cext -> count kind cext = 0%nat).
  { intros kind r cext Hkind Hrun.
    eapply count_none; [exact Hkind|]. by eapply connectRun_calls. }
  assert (Hd : forall kind ds ts,
             (forall ev, match ev with
                         | EvMessage _ _ _ | EvNow _ => true
                         | _ => false
                         end = true -> kind ev = false) ->
             count kind (delivered ds ts) = 0%nat).
  { intros kind ds ts Hkind.
    eapply count_none; [exact Hkind|]. apply delivered_calls. }
  destruct 1; unfold polled, closing;
    repeat match goal with
           | |- context [if ?b then [EvClose _] else []] => destruct b
           end;
    rewrite ?count_app, ?count_cons;
    rewrite ?(connectRun_one_attempt _ _ _ cext), ?(Hc isDown _ cext),
      ?(Hc isPong _ cext), ?(Hd isConnectAttempt), ?(Hd isDown), ?(Hd isPong)
      by (done || by intros []);
    unfold count; simpl; lia.
Qed.

Section Retrying.

Variable env : Env.

(** X16.  The loop retries without delay or limit: in any number of
    passes it calls [Connect] exactly as many times as the client has
    answered that it is not connected, once in each such pass, a second
    after the pass before.  It answers at most one [PING] in a pass, and
    none in a pass that finds the client down. *)
Theorem passes_connect_when_down (n fuel : nat) (conf : Config) (s s' : state)
    (tr tr' : Trace) :
  iterations env n fuel conf s tr = Some (s', tr') ->
  exists ext,
    tr' = tr ++ ext
    /\ count isConnectAttempt ext = count isDown ext
    /\ (count isPong ext + count isDown ext <= n)%nat.
Proof.
  intros Hrun. apply iterations_passes in Hrun as (ext & -> & Hpasses).
  exists ext. split; [done|].
  induction Hpasses as [s|n s s1 s' ext1 ext Hpass Hrest IH].
  - unfold count. simpl. lia.
  - apply pass_attempts in Hpass. rewrite !count_app. lia.
Qed.

End Retrying.

(** ** The properties at work on the sample inputs *)

Lemma parseConfig_accepts_iff_witness :
  exists buf,
    Sample.disk "umbled.conf" Sample.file "umbled.conf" = inl buf
    /\ accepted Simulated.lib buf Sample.conf.
Proof.
  apply (proj1 (parseConfig_accepts_iff Simulated.lib
                  (Sample.disk "umbled.conf" Sample.file) "umbled.conf" Sample.conf)).
  reflexivity.
Defined.

Lemma parseConfig_rejects_lines_witness :
  let fs := Sample.disk "umbled.conf" ("nick" +:+ eol +:+ Sample.file) in
  parseConfig Simulated.lib fs "other.conf"
  = inr (errorString "error reading file: other.conf: no such file or directory")
  /\ classify (bufio.dropCR "nick") = Malformed
  /\ exists err, parseConfig Simulated.lib fs "umbled.conf" = inr err.
Proof.
  intros fs. split; [|split; [reflexivity|]].
  - exact (proj1 (parseConfig_rejects_lines Simulated.lib fs "other.conf") _ eq_refl).
  - apply (proj2 (parseConfig_rejects_lines Simulated.lib fs "umbled.conf")
             ("nick" +:+ eol +:+ Sample.file) "nick").
    + reflexivity.
    + vm_compute. apply list_elem_of_here.
    + right. left. reflexivity.
Defined.

Lemma parseConfig_order_irrelevant_witness :
  let fs := Sample.disk "umbled.conf" Sample.file in
  let fs' := Sample.disk "other.conf" Scenario.reordered in
  parseConfig Simulated.lib fs "umbled.conf" = inl Sample.conf
  /\ parseConfig Simulated.lib fs' "other.conf" = inl Sample.conf.
Proof.
  intros fs fs'. split; [reflexivity|].
  apply (parseConfig_order_irrelevant Simulated.lib fs fs' "umbled.conf" "other.conf"
           Sample.file Scenario.reordered).
  - reflexivity.
  - reflexivity.
  - vm_compute. apply perm_swap.
  - reflexivity.
Defined.

Lemma parseConfig_skips_comments_witness :
  let fs := Sample.disk "umbled.conf" (Scenario.firstLine +:+ Scenario.otherLines) in
  let fs' :=
    Sample.disk "umbled.conf"
      (Scenario.firstLine +:+ Scenario.comment +:+ eol +:+ Scenario.otherLines) in
  parseConfig Simulated.lib fs "umbled.conf" = inl Sample.conf
  /\ parseConfig Simulated.lib fs' "umbled.conf"
     = parseConfig Simulated.lib fs "umbled.conf".
Proof.
  intros fs fs'. split; [reflexivity|].
  apply (parseConfig_skips_comments Simulated.lib fs fs' "umbled.conf"
           Scenario.firstLine Scenario.comment Scenario.otherLines).
  - reflexivity.
  - reflexivity.
  - right. by exists "channels=#a,#b".
  - reflexivity.
  - reflexivity.
  - reflexivity.
Defined.

Lemma passes_counted_witness :
  let env := Simulated.env [inl Sample.notice; inl Sample.welcome; inl Sample.ping]
               None None in
  exists s' tr',
    iterations env 4 5 Sample.conf (mkState time.zero []) [] = Some (s', tr')
    /\ count isSleep tr' = 4%nat
    /\ count isPoll tr' = 4%nat
    /\ count isLog tr' = 2%nat
    /\ count isClose tr' = 2%nat
    /\ length (errors s') = 2%nat.
Proof.
  intros env.
  destruct (iterations env 4 5 Sample.conf (mkState time.zero []) [])
    as [[s' tr']|] eqn:Hrun; [|by vm_compute in Hrun].
  exists s', tr'. split; [done|].
  destruct (passes_counted env _ _ _ _ _ _ _ Hrun) as (ext & Hext & _).
  vm_compute in Hrun. injection Hrun as <- <-. repeat split.
Defined.

Lemma passes_lose_no_error_witness :
  let env := Simulated.env [inl Sample.ping; inl Sample.ping] None (Some 1%nat) in
  let s := mkState Sample.epoch ["e0"; "e1"] in
  exists s' tr',
    iterations env 2 5 Sample.conf s Scenario.connected = Some (s', tr')
    /\ forall e, e ∈ ["e0"; "e1"] ->
         e ∈ errors s' \/ exists ch, (ch, e, None) ∈ attempts tr'.
Proof.
  intros env s.
  destruct (iterations env 2 5 Sample.conf s Scenario.connected)
    as [[s' tr']|] eqn:Hrun; [|by vm_compute in Hrun].
  exists s', tr'. split; [done|].
  destruct (passes_lose_no_error env _ _ Sample.conf _ _ _ _ ltac:(discriminate) Hrun)
    as (ext & -> & Hkept).
  intros e He. destruct (Hkept e (or_introl He)) as [Hin|(ch & _ & Hin)]; [by left|].
  right. exists ch. unfold Scenario.connected. rewrite attempts_app. exact Hin.
Defined.

Lemma run_sends_recorded_entries_witness :
  let env := Simulated.env [inl Sample.notice; inl Sample.welcome; inl Sample.ping]
               None None in
  exists s' tr',
    run env 4 5 Sample.conf [] = Some (s', tr')
    /\ Forall (recorded Simulated.lib) (errors s')
    /\ Forall (recorded Simulated.lib) (logged tr').
Proof.
  intros env.
  destruct (run env 4 5 Sample.conf []) as [[s' tr']|] eqn:Hrun;
    [|by vm_compute in Hrun].
  exists s', tr'. split; [done|].
  destruct (run_sends_recorded_entries env _ _ _ _ _ _ Hrun)
    as (ext & Hext & Hlog & Hprinted & _).
  rewrite app_nil_l in Hext. subst ext. split; assumption.
Defined.

Lemma disconnected_pass_witness :
  let env := Simulated.env [inr (errorString "connection reset")] None None in
  let s := mkState Sample.epoch [] in
  iteration env 5 Sample.conf s []
  = Some (mkState Sample.epoch
            ["1970-01-01T00:00:05Z: error connecting: connection reset"],
          [EvSleep time.Second; EvIsConnected false; EvConnect None; EvRegister None;
           EvReadMessage (inr (errorString "connection reset"));
           EvNow (time.mkTime (5 * time.Second) 0);
           EvLog "1970-01-01T00:00:05Z: error connecting: connection reset";
           EvClose None]).
Proof.
  intros env s. exact (disconnected_pass env 5 Sample.conf s [] eq_refl).
Defined.

Lemma pong_failure_pass_witness :
  let s := mkState Sample.epoch [] in
  iteration Scenario.refusing 5 Sample.conf s []
  = Some (mkState (time.mkTime (3 * time.Second) 3600)
            ["1970-01-01T01:00:05+01:00: error PONGing: broken pipe"],
          [EvSleep time.Second; EvIsConnected true; EvReadMessage (inl Sample.ping);
           EvNow (time.mkTime (3 * time.Second) 3600);
           EvPong Sample.ping (Some (errorString "broken pipe"));
           EvNow (time.mkTime (5 * time.Second) 3600);
           EvLog "1970-01-01T01:00:05+01:00: error PONGing: broken pipe";
           EvNow (time.mkTime (7 * time.Second) 3600)]).
Proof.
  intros s.
  exact (proj1 (pong_failure_pass Scenario.refusing 5 Sample.conf s [] Sample.ping
                  (errorString "broken pipe") eq_refl eq_refl eq_refl eq_refl)).
Defined.

Lemma ping_flush_pass_witness :
  let env := Simulated.env [inl Sample.ping] None (Some 1%nat) in
  let s := mkState Sample.epoch ["e0"; "e1"] in
  exists s' tr',
    iteration env 5 Sample.conf s Scenario.connected = Some (s', tr')
    /\ errors s' = ["e1"; "1970-01-01T00:00:10Z: error messaging: cannot send"]
    /\ attempts tr' = [("#a", "e0", None); ("#a", "e1", Some (errorString "cannot send"))].
Proof.
  intros env s.
  destruct (ping_flush_pass env 5 Sample.conf s Scenario.connected Sample.ping
              eq_refl eq_refl eq_refl eq_refl)
    as (s' & ds & ts & rest & Hrun & _).
  match type of Hrun with
  | _ = Some (_, ?t) => remember t as tr' eqn:Htr'
  end.
  clear Htr'. exists s', tr'. split; [exact Hrun|].
  vm_compute in Hrun. injection Hrun as <- <-. split; reflexivity.
Defined.

Lemma flush_with_nothing_to_send_witness :
  let env := Simulated.env [] None None in
  let quiet := mkState Sample.epoch [] in
  let noChannel := mkConfig [] "bot" "irc.example.com" 6667 in
  let s := mkState Sample.epoch ["e0"; "e1"] in
  sendMessages env Sample.conf quiet [] = Some ((quiet, None), [])
  /\ sendMessages env noChannel s [] = Some ((quiet, None), [])
  /\ exists s' tr',
       sendMessages env Sample.conf s [] = Some ((s', None), tr')
       /\ sendMessages env Sample.conf s' tr' = Some ((s', None), tr').
Proof.
  intros env quiet noChannel s. split; [|split].
  - exact (proj1 (flush_with_nothing_to_send env Sample.conf quiet [])
             (or_introl eq_refl)).
  - exact (proj1 (flush_with_nothing_to_send env noChannel s []) (or_intror eq_refl)).
  - eexists _, _. split; [vm_compute; reflexivity|].
    apply (proj2 (flush_with_nothing_to_send env Sample.conf s [])).
    vm_compute. reflexivity.
Defined.

Lemma connect_leaves_closing_to_caller_witness :
  let env := Simulated.env [inl Sample.notice; inl Sample.welcome] (Some 1%nat) None in
  exists r rest,
    connect env 2 Sample.conf [] = Some (Some r, EvConnect None :: rest)
    /\ Forall (fun ev => isRegistrationCall ev = true) rest
    /\ count isConnectAttempt rest = 0%nat
    /\ count isClose rest = 0%nat.
Proof.
  intros env.
  destruct (connect env 2 Sample.conf []) as [[[r|] tr']|] eqn:Hrun;
    [|by vm_compute in Hrun|by vm_compute in Hrun].
  destruct (connect_leaves_closing_to_caller env _ _ _ _ _ Hrun)
    as (rest & -> & Hcalls & Honce & Hclose & _).
  by exists r, rest.
Defined.

Lemma main_startup_witness :
  let env := Simulated.env [] None None in
  let fs := Sample.disk "umbled.conf" Sample.file in
  main env fs "" 3 5
  = ([EvPrintDefaults; EvFatal (errorString "no config file provided")], None)
  /\ main env fs "other.conf" 3 5
     = ([EvFatal (errorString
                    "error reading file: other.conf: no such file or directory")],
        None)
  /\ exists evs loop conf,
       main env fs "umbled.conf" 3 5 = (evs, Some loop)
       /\ parseConfig Simulated.lib fs "umbled.conf" = inl conf
       /\ evs = [EvNew "bot" "bot" "bot" "irc.example.com" 6667 true;
                 EvSetTimeoutTime (420 * time.Second)].
Proof.
  intros env fs. split; [|split].
  - exact (proj1 (main_startup env fs "" 3 5) eq_refl).
  - apply (proj1 (proj2 (main_startup env fs "other.conf" 3 5)));
      [discriminate|vm_compute; reflexivity].
  - destruct (main env fs "umbled.conf" 3 5) as [evs [loop|]] eqn:Hmain;
      [|by vm_compute in Hmain].
    destruct (proj2 (proj2 (main_startup env fs "umbled.conf" 3 5)) evs loop Hmain)
      as (conf & _ & Hparse & Hevs & _).
    exists evs, loop, conf. split; [done|]. split; [exact Hparse|].
    rewrite Hevs. vm_compute in Hparse. injection Hparse as <-. reflexivity.
Defined.

Lemma main_loses_no_error_witness :
  let env := Simulated.env [inl Sample.welcome] None None in
  let fs := Sample.disk "umbled.conf" Sample.file in
  let e := "1970-01-01T00:00:12Z: error reading: EOF" in
  exists evs s tr,
    main env fs "umbled.conf" 2 5 = (evs, Some (Some (s, tr)))
    /\ e ∈ logged tr
    /\ (e ∈ errors s \/ exists ch, (ch, e, None) ∈ attempts tr).
Proof.
  intros env fs e.
  destruct (main env fs "umbled.conf" 2 5) as [evs [[[s tr]|]|]] eqn:Hmain;
    [|by vm_compute in Hmain|by vm_compute in Hmain].
  exists evs, s, tr. split; [done|].
  assert (He : e ∈ logged tr).
  { vm_compute in Hmain. injection Hmain as _ _ <-. vm_compute.
    apply list_elem_of_here. }
  split; [exact He|].
  exact (main_loses_no_error env fs _ _ _ _ _ _ Hmain e He).
Defined.

Lemma TestAddError_needs_zone_witness :
  testing.TestAddError (Simulated.env [] None None) []
  = Some ([testing.NoMatch "1970-01-01T00:00:00Z: hi";
           testing.NoMatch "1970-01-01T00:00:02Z: some error: something went wrong"],
          [EvNow Sample.epoch; EvLog "1970-01-01T00:00:00Z: hi";
           EvNow (time.mkTime (2 * time.Second) 0);
           EvLog "1970-01-01T00:00:02Z: some error: something went wrong"])
  /\ testing.TestAddError Scenario.refusing []
     = Some ([testing.Pass; testing.Pass],
             [EvNow (time.mkTime 0 3600); EvLog "1970-01-01T01:00:00+01:00: hi";
              EvNow (time.mkTime (2 * time.Second) 3600);
              EvLog "1970-01-01T01:00:02+01:00: some error: something went wrong"]).
Proof.
  split.
  - apply (TestAddError_needs_zone (Simulated.env [] None None) []); by vm_compute.
  - apply (TestAddError_needs_zone Scenario.refusing []); by vm_compute.
Defined.

Lemma passes_connect_when_down_witness :
  let env := Simulated.env [inl Sample.welcome; inl Sample.ping] None None in
  exists s' tr',
    iterations env 4 5 Sample.conf (mkState time.zero []) [] = Some (s', tr')
    /\ count isConnectAttempt tr' = 2%nat
    /\ count isDown tr' = 2%nat
    /\ count isPong tr' = 1%nat.
Proof.
  intros env.
  destruct (iterations env 4 5 Sample.conf (mkState time.zero []) [])
    as [[s' tr']|] eqn:Hrun; [|by vm_compute in Hrun].
  exists s', tr'. split; [done|].
  destruct (passes_connect_when_down env _ _ _ _ _ _ _ Hrun) as (ext & Hext & _).
  vm_compute in Hrun. injection Hrun as <- <-. repeat split.
Defined.
